(** * Cockpit: post-processing chain and bias-image acquisition sweep

    A shallow embedding of the parts of Cockpit that the acquisition engine
    is made of, and the properties proved about them:

    - [cockpit/devices/microscopeCamera.py]: the chain of post-processors of
      a camera ([addPostProcessor], [removePostProcessor], [getImageSize]);
    - [cockpit/devices/aurox.py]: the sectioning transform of the Clarity
      device ([_section_data], [_on_section]);
    - [cockpit/experiment/dsDataCollection.py] and
      [cockpit/experiment/dsDataHWAT.py]: the sweep generator
      ([makeBiasPolytope], [generateAbb]), the constructors and
      [executeRep].

    Python objects that are mutated in place are threaded through a small
    state-and-exception monad; Python exceptions are values of [exn]. *)

From stdpp Require Import base list sorting strings pretty gmap.
From Stdlib Require Import Ascii ZArith QArith Qabs Lia.

Local Open Scope Z_scope.

(** ** Exceptions and the state monad *)

(** The Python exceptions the modelled code can raise. [Exception] is the
    plain [raise Exception(...)] of aurox.py. *)
Inductive exn : Set :=
  | IndexError
  | ValueError
  | AttributeError
  | TypeError
  | ZeroDivisionError
  | TimeoutError
  | StopIteration
  | Exception.

Inductive result (A : Type) : Type :=
  | Ok (a : A)
  | Raise (e : exn).
Arguments Ok {A} a.
Arguments Raise {A} e.

(** A computation on a mutable object of type [S]: it returns a value or
    raises, and leaves the object in the state it had at that point. *)
Definition M (S A : Type) : Type := S -> result A * S.

Definition ret {S A} (a : A) : M S A := fun s => (Ok a, s).

Definition bind {S A B} (m : M S A) (k : A -> M S B) : M S B :=
  fun s => match m s with
           | (Ok a, s') => k a s'
           | (Raise e, s') => (Raise e, s')
           end.

Definition raise {S A} (e : exn) : M S A := fun s => (Raise e, s).
Definition get {S} : M S S := fun s => (Ok s, s).
Definition put {S} (s : S) : M S unit := fun _ => (Ok tt, s).
Definition modify {S} (f : S -> S) : M S unit := fun s => (Ok tt, f s).

(** [try: m except: h] with a bare [except] clause. *)
Definition try_except {S A} (m : M S A) (h : M S A) : M S A :=
  fun s => match m s with
           | (Ok a, s') => (Ok a, s')
           | (Raise _, s') => h s'
           end.

(** Lifting of a pure computation that may raise. *)
Definition lift {S A} (r : result A) : M S A := fun s => (r, s).

Notation "'let!' x ':=' m 'in' k" := (bind m (fun x => k))
  (at level 10, x pattern, m at level 100, k at level 200, only parsing).
Notation "m1 ';;;' m2" := (bind m1 (fun _ => m2))
  (at level 100, m2 at level 200, right associativity, only parsing).

(** [for x in xs: body x] *)
Fixpoint for_each {S X} (xs : list X) (body : X -> M S unit) : M S unit :=
  match xs with
  | [] => ret tt
  | x :: xs' => body x ;;; for_each xs' body
  end.

(** Python sequence indexing [l[i]] on a sequence of length [n]: a negative
    index counts from the end, and an index outside [-n, n) raises
    [IndexError]. *)
Definition norm_index (n : nat) (i : Z) : result nat :=
  if (0 <=? i) && (i <? Z.of_nat n) then Ok (Z.to_nat i)
  else if (- Z.of_nat n <=? i) && (i <? 0) then Ok (Z.to_nat (Z.of_nat n + i))
  else Raise IndexError.

Definition getitem {A} (l : list A) (i : Z) : result A :=
  match norm_index (length l) i with
  | Ok k => match l !! k with Some x => Ok x | None => Raise IndexError end
  | Raise e => Raise e
  end.

(** The character [c] does not occur in [s]. *)
Fixpoint free_of (c : ascii) (s : string) : Prop :=
  match s with
  | EmptyString => True
  | String c' s' => c' <> c /\ free_of c s'
  end.

(** ** The post-processor chain (microscopeCamera.py) *)

Module Camera.
Section Chain.

(** The callables handed to the camera. Python compares them with [==]:
    two function objects are equal when they are the same object, two
    bound methods when they are bound to the same object and function.
    [DataFn] and [ShapeFn] are the callables up to that comparison, and
    [shape_call] is what a shape callable computes on [(width, height)]. *)
Context {DataFn ShapeFn : Type}.
Context `{EqDecision DataFn} `{EqDecision ShapeFn}.
Variable shape_call : ShapeFn -> Z * Z -> Z * Z.

(** [@dataclasses.dataclass class _PostProcessor]; the generated [__eq__]
    compares the three fields. *)
Record _PostProcessor : Type := mkPostProcessor {
  priority : Z;
  f_data : DataFn;
  f_shape : ShapeFn;
}.

#[global] Instance _PostProcessor_eq_dec : EqDecision _PostProcessor.
Proof. solve_decision. Defined.

(** [list.sort(key=lambda x: x.priority)]. The builtin is documented as
    an ascending sort that keeps the relative order of elements with equal
    keys; it is embedded as the insertion of each element, in list order,
    behind every element whose key is not greater. *)
Fixpoint sort_insert (x : _PostProcessor) (l : list _PostProcessor)
  : list _PostProcessor :=
  match l with
  | [] => [x]
  | y :: l' =>
      if priority x <? priority y then x :: y :: l'
      else y :: sort_insert x l'
  end.

Definition sort_by_priority (l : list _PostProcessor) : list _PostProcessor :=
  fold_left (fun acc x => sort_insert x acc) l [].

(** [MicroscopeCamera.addPostProcessor]: the object state is the list
    [self._post_processors]. *)
Definition addPostProcessor (prio : Z) (fd : DataFn) (fs : ShapeFn)
  : M (list _PostProcessor) unit :=
  let! pps := get in
  let pps := pps ++ [mkPostProcessor prio fd fs] in
  put (sort_by_priority pps).

(** [list.remove(x)]: drops the first element equal to [x], raises
    [ValueError] when there is none. *)
Fixpoint list_remove (x : _PostProcessor) (l : list _PostProcessor)
  : result (list _PostProcessor) :=
  match l with
  | [] => Raise ValueError
  | y :: l' =>
      if decide (y = x) then Ok l'
      else match list_remove x l' with
           | Ok r => Ok (y :: r)
           | Raise e => Raise e
           end
  end.

(** [MicroscopeCamera.removePostProcessor]. An argument left at its
    default [None] is [None] here; a callable is truthy. *)
Definition removePostProcessor (prio : Z) (fd : option DataFn)
    (fs : option ShapeFn) : M (list _PostProcessor) unit :=
  let! pps := get in
  let candidates := filter (fun item => priority item = prio) pps in
  let candidates :=
    match fd with
    | Some fd => filter (fun item => f_data item = fd) candidates
    | None => candidates
    end in
  let candidates :=
    match fs with
    | Some fs => filter (fun item => f_shape item = fs) candidates
    | None => candidates
    end in
  let! first := lift (getitem candidates 0) in
  let! pps' := lift (list_remove first pps) in
  put pps'.

(** [ROI] and [Binning] of python-microscope, as the camera proxy returns
    them. *)
Record ROI : Type := mkROI { left : Z; top : Z; width : Z; height : Z }.
Record Binning : Type := mkBinning { h : Z; v : Z }.

(** Python's [//] on integers. *)
Definition floordiv (a b : Z) : result Z :=
  if b =? 0 then Raise ZeroDivisionError else Ok (a `div` b).

(** The size before post-processing:
    [(roi.width//binning.h, roi.height//binning.v)]. *)
Definition sensor_size (roi : ROI) (binning : Binning) : result (Z * Z) :=
  match floordiv (width roi) (h binning) with
  | Raise e => Raise e
  | Ok w =>
      match floordiv (height roi) (v binning) with
      | Raise e => Raise e
      | Ok ht => Ok (w, ht)
      end
  end.

(** The loop [for pp in self._post_processors: size = pp.f_shape(size)]. *)
Fixpoint apply_shapes (pps : list _PostProcessor) (size : Z * Z) : Z * Z :=
  match pps with
  | [] => size
  | pp :: pps' => apply_shapes pps' (shape_call (f_shape pp) size)
  end.

(** [MicroscopeCamera.getImageSize], given what [getROI] and
    [get_binning] return. *)
Definition getImageSize (roi : ROI) (binning : Binning)
  : M (list _PostProcessor) (Z * Z) :=
  let! size := lift (sensor_size roi binning) in
  let! pps := get in
  ret (apply_shapes pps size).

(** The chain of a camera created by [__init__] (which sets
    [self._post_processors = []]) after the calls of [addPostProcessor]
    listed in [adds], in that order. *)
Definition add_all (adds : list _PostProcessor)
  : M (list _PostProcessor) unit :=
  for_each adds
    (fun pp => addPostProcessor (priority pp) (f_data pp) (f_shape pp)).

Definition chain_after (adds : list _PostProcessor) : list _PostProcessor :=
  snd (add_all adds []).

(** *** Vocabulary of the statements about the chain *)

(** A processor is a candidate of [removePostProcessor prio fd fs]. *)
Definition candidate (prio : Z) (fd : option DataFn) (fs : option ShapeFn)
    (item : _PostProcessor) : Prop :=
  priority item = prio
  /\ match fd with Some f => f_data item = f | None => True end
  /\ match fs with Some f => f_shape item = f | None => True end.

#[global] Instance candidate_dec prio fd fs item :
  Decision (candidate prio fd fs item).
Proof. unfold candidate. destruct fd, fs; apply _. Defined.

(** [l] lists the processors added by [adds] in ascending priority, those
    of equal priority in the order in which they were added. *)
Definition priority_order (adds l : list _PostProcessor) : Prop :=
  StronglySorted (fun a b => priority a <= priority b) l
  /\ forall p, filter (fun x => priority x = p) l
              = filter (fun x => priority x = p) adds.

(** The left fold of the shape functions over a base size. *)
Definition fold_shapes (l : list _PostProcessor) (base : Z * Z) : Z * Z :=
  fold_left (fun size pp => shape_call (f_shape pp) size) l base.

End Chain.
End Camera.

(** ** The sectioning transform of the Clarity device (aurox.py) *)

Module Aurox.

(** Priority number for the sectioning post-processor. *)
Definition PRIORITY_SECTIONING : Z := 100.

(** The callables [_on_section] hands to the camera: the bound method
    [self._section_data], and the object that one evaluation of
    [lambda shape: (shape[0] // 2, shape[1])] creates ([obj] tells the
    objects of different evaluations apart). *)
Inductive data_fn : Set := Section_data.
Inductive shape_fn : Set := Halve_width (obj : nat).

#[global] Instance data_fn_eq_dec : EqDecision data_fn.
Proof. solve_decision. Defined.
#[global] Instance shape_fn_eq_dec : EqDecision shape_fn.
Proof. solve_decision. Defined.

Definition shape_call (f : shape_fn) (shape : Z * Z) : Z * Z :=
  match f with
  | Halve_width _ => (fst shape `div` 2, snd shape)
  end.

(** [Clarity._on_section]: [button_toggled] is the value of the toggle
    button, [camera_found] tells whether [depot.getDeviceWithName] found the
    camera, whose chain is the state. *)
Definition _on_section (button_toggled camera_found : bool) (obj : nat)
  : M (list (@Camera._PostProcessor data_fn shape_fn)) unit :=
  if negb camera_found then raise Exception
  else if button_toggled then
    Camera.addPostProcessor PRIORITY_SECTIONING Section_data (Halve_width obj)
  else
    Camera.removePostProcessor PRIORITY_SECTIONING (Some Section_data) None.

Section Clarity.

(** Image data, their [(width, height)], and the calibrated processors of
    the [aurox_clarity] package with what [p.process(data).get()] returns. *)
Context {Frame Processor : Type}.
Variable frame_shape : Frame -> Z * Z.
Variable process : Processor -> Frame -> Frame.

(** What a call does with the hardware proxy and with
    [self._processors]. *)
Inductive access : Type :=
  | Get_filter_position
  | Read_processor (fpos : Z).

(** The device object: [self._processors] ([[None] * 4] after [__init__])
    and the accesses made so far. *)
Record Clarity : Type := mkClarity {
  _processors : list (option Processor);
  accesses : list access;
}.

Definition record_access (a : access) : M Clarity unit :=
  modify (fun dev => mkClarity (_processors dev) (accesses dev ++ [a])).

(** [Clarity._section_data]; [position] is what
    [self._proxy.get_filter_position()] returns at this call. *)
Definition _section_data (position : option Z) (data : Frame)
  : M Clarity Frame :=
  record_access Get_filter_position ;;;
  let fpos := position in
  match fpos with
  | Some fpos =>
      record_access (Read_processor fpos) ;;;
      let! dev := get in
      let! p := lift (getitem (_processors dev) fpos) in
      match p with
      | Some p => ret (process p data)
      | None => raise AttributeError
      end
  | None => ret data
  end.

End Clarity.
End Aurox.

(** ** The aberration sweep (dsDataCollection.py, dsDataHWAT.py) *)

(** The numbers of the sweep. The code computes on numpy floats; every
    definition below is written over this interface, so that what is proved
    about the structure of the sweep holds whatever the arithmetic does. *)
Class Scalars : Type := {
  F64 : Type;                    (* float64: steps and start aberrations *)
  F32 : Type;                    (* float32: the amplitudes of a bias vector *)
  Step : Type;                   (* the numbers of [steps] *)
  zero64 : F64;                  (* the entries of [np.zeros(n)] *)
  f32_of : F64 -> F32;           (* the conversion in [beta[:] = ...] *)
  f32_add : F32 -> Step -> F32;  (* [x += 1 * step] *)
  f32_sub : F32 -> Step -> F32;  (* [x -= 1 * step] *)
  one : Step;                    (* the [1] of the default [steps=(1,)] *)
  fmt1 : F64 -> string;          (* the text of [{step:.1f}] *)
}.

Module Sweep.
Section Generic.

Context `{Scalars}.

(** [range(n)] *)
Definition range (n : Z) : list Z := map Z.of_nat (seq 0 (Z.to_nat n)).

(** [np.max] of a tuple of integers; it raises on an empty one. *)
Definition np_max (l : list Z) : result Z :=
  match l with
  | [] => Raise ValueError
  | x :: l' => Ok (fold_left Z.max l' x)
  end.

(** [np.zeros(n)]; a negative size raises. *)
Definition np_zeros (n : Z) : result (list F64) :=
  if n <? 0 then Raise ValueError else Ok (replicate (Z.to_nat n) zero64).

(** [beta = np.zeros(nk, dtype=np.float32); beta[:] = start_aberrations]:
    the assignment converts, and broadcasts a sequence of length one. *)
Definition new_beta (start_aberrations : list F64) (nk : Z)
  : result (list F32) :=
  if nk <? 0 then Raise ValueError
  else if Z.of_nat (length start_aberrations) =? nk
  then Ok (map f32_of start_aberrations)
  else match start_aberrations with
       | [x] => Ok (replicate (Z.to_nat nk) (f32_of x))
       | _ => Raise ValueError
       end.

(** [offset = beta.copy(); offset[axis] += 1 * step] (and [-=]). *)
Definition offset_copy (op : F32 -> Step -> F32) (beta : list F32)
    (axis : Z) (step : Step) : result (list F32) :=
  match norm_index (length beta) axis with
  | Raise e => Raise e
  | Ok k =>
      match beta !! k with
      | Some x => Ok (<[k := op x step]> beta)
      | None => Raise IndexError
      end
  end.

Definition append {A} (x : A) : M (list A) unit :=
  modify (fun l => l ++ [x]).

(** [makeBiasPolytope], the same in both experiments. The state of the
    loops is the list [betas]. *)
Definition makeBiasPolytope (start_aberrations : list F64)
    (offset_axes : list Z) (nk : Z) (steps : list Step)
  : result (list (list F32)) :=
  match new_beta start_aberrations nk with
  | Raise e => Raise e
  | Ok beta =>
      let body : M (list (list F32)) unit :=
        append beta ;;;
        for_each offset_axes (fun axis =>
          for_each steps (fun step =>
            let! plus_offset := lift (offset_copy f32_add beta axis step) in
            append plus_offset) ;;;
          for_each steps (fun step =>
            let! minus_offset := lift (offset_copy f32_sub beta axis step) in
            append minus_offset)) in
      match body [] with
      | (Ok _, betas) => Ok betas
      | (Raise e, _) => Raise e
      end
  end.

(** What the generator yields: [(biaslist, fprefix, newarea)]. *)
Record item : Type := mkItem {
  biaslist : list (list F32);
  fprefix : string;
  is_newarea : bool;
}.

(** The frame of a running [generateAbb]: its two mutable locals and what
    it has yielded so far. *)
Record frame : Type := mkFrame {
  start_aberrations : list F64;
  newarea : bool;
  yielded : list item;
}.

Definition set_newarea (b : bool) : M frame unit :=
  modify (fun f => mkFrame (start_aberrations f) b (yielded f)).

Definition yield (it : item) : M frame unit :=
  modify (fun f =>
    mkFrame (start_aberrations f) (newarea f) (yielded f ++ [it])).

(** [start_aberrations[applied_abb] = step] *)
Definition set_start (applied_abb : Z) (step : F64) : M frame unit :=
  let! f := get in
  let! k := lift (norm_index (length (start_aberrations f)) applied_abb) in
  put (mkFrame (<[k := step]> (start_aberrations f)) (newarea f) (yielded f)).

(** The two statements before the loops. *)
Definition init_frame (bias_modes applied_modes : list Z) : result frame :=
  match np_max bias_modes with
  | Raise e => Raise e
  | Ok mb =>
      match np_max applied_modes with
      | Raise e => Raise e
      | Ok ma =>
          match np_zeros (Z.max mb ma + 1) with
          | Raise e => Raise e
          | Ok z => Ok (mkFrame z false [])
          end
      end
  end.

(** The body of the innermost loop, up to the prefix. *)
Definition sweep_step (bias_modes : list Z) (prefix : string)
    (applied_abb : Z) (step : F64) : M frame unit :=
  set_start applied_abb step ;;;
  let! f := get in
  let! bl := lift (makeBiasPolytope (start_aberrations f) bias_modes
                     (Z.of_nat (length (start_aberrations f))) [one]) in
  yield (mkItem bl prefix (newarea f)) ;;;
  set_newarea false.

(** [f"A{area}A{applied_abb}S{step:.1f}_"] *)
Definition fprefix_DC (area applied_abb : Z) (step : F64) : string :=
  "A" +:+ pretty area +:+ "A" +:+ pretty applied_abb
      +:+ "S" +:+ fmt1 step +:+ "_".

(** [f"R{areas}A{area}A{applied_abb}S{step:.1f}_"] *)
Definition fprefix_HWAT (areas area applied_abb : Z) (step : F64) : string :=
  "R" +:+ pretty areas +:+ "A" +:+ pretty area +:+ "A" +:+ pretty applied_abb
      +:+ "S" +:+ fmt1 step +:+ "_".

(** The loops of [BiasImageDatasetExperiment.generateAbb]. *)
Definition loops_DC (bias_modes applied_modes : list Z)
    (applied_steps : list F64) (areas : Z) : M frame unit :=
  for_each (range areas) (fun area =>
    for_each applied_modes (fun applied_abb =>
      for_each applied_steps (fun step =>
        sweep_step bias_modes (fprefix_DC area applied_abb step)
          applied_abb step)) ;;;
    set_newarea true).

(** The loops of [ATBiasImageDatasetExperiment.generateAbb]. *)
Definition loops_HWAT (bias_modes applied_modes : list Z)
    (applied_steps : list F64) (areas : Z) : M frame unit :=
  for_each (range areas) (fun area =>
    (if area =? 0 then ret tt else set_newarea true) ;;;
    for_each applied_modes (fun applied_abb =>
      for_each applied_steps (fun step =>
        sweep_step bias_modes (fprefix_HWAT areas area applied_abb step)
          applied_abb step))).

(** *** Vocabulary of the statements about the sweep *)

(** The position a valid index [axis] denotes in a sequence of length
    [n]. *)
Definition axis_index (n : nat) (axis : Z) : nat :=
  Z.to_nat (if 0 <=? axis then axis else Z.of_nat n + axis).

(** [beta] with [op _ step] applied along [axis] only. *)
Definition shifted (op : F32 -> Step -> F32) (beta : list F32) (axis : Z)
    (step : Step) : list F32 :=
  let k := axis_index (length beta) axis in
  match beta !! k with
  | Some x => <[k := op x step]> beta
  | None => beta
  end.

(** The base vector, then for each axis its plus offsets for every step and
    its minus offsets for every step. *)
Definition polytope (beta : list F32) (axes : list Z) (steps : list Step)
  : list (list F32) :=
  beta :: flat_map (fun axis =>
            map (shifted f32_add beta axis) steps
            ++ map (shifted f32_sub beta axis) steps) axes.

(** The order in the words of the specification, "axis-major, step-minor,
    plus before minus": for every axis, for every step, the plus and then
    the minus perturbation. It is here to be compared with [polytope],
    which is what the code does. *)
Definition polytope_as_specified (beta : list F32) (axes : list Z)
    (steps : list Step) : list (list F32) :=
  beta :: flat_map (fun axis =>
            flat_map (fun step =>
              [shifted f32_add beta axis step;
               shifted f32_sub beta axis step]) steps) axes.

(** The [(area, applied_abb, step)] of the sweep, in the order of the
    loops. *)
Definition sweep_triples (areas : Z) (applied_modes : list Z)
    (applied_steps : list F64) : list (Z * Z * F64) :=
  flat_map (fun area =>
    flat_map (fun applied_abb =>
      map (fun step => (area, applied_abb, step)) applied_steps)
      applied_modes)
    (range areas).

(** Mode tuples on which the generator raises nothing: both non-empty, and
    every mode a position counted from the start. *)
Definition valid_modes (bias_modes applied_modes : list Z) : Prop :=
  bias_modes <> [] /\ applied_modes <> []
  /\ Forall (fun m => 0 <= m) bias_modes
  /\ Forall (fun m => 0 <= m) applied_modes.

(** The flag of the [i]-th item of a sweep with [per_area] items in each
    area: set on the first item of every area but the first. *)
Definition flag_at (per_area i : nat) : bool :=
  (0 <? i)%nat && (i mod per_area =? 0)%nat.

(** Item [it] is what the sweep yields at the triple [t]: its prefix is
    that of [t], and its bias list is the polytope around a start vector
    that has [step] at [applied_abb]. *)
Definition yields_at (prefix_of : Z -> Z -> F64 -> string)
    (bias_modes : list Z) (t : Z * Z * F64) (it : item) : Prop :=
  let '(area, applied_abb, step) := t in
  fprefix it = prefix_of area applied_abb step
  /\ exists sa,
      sa !! Z.to_nat applied_abb = Some step
      /\ biaslist it = polytope (map f32_of sa) bias_modes [one].

(** The flags of [items] are those of the first items of a sweep. *)
Definition flags_upto (per_area : nat) (items : list item) : Prop :=
  forall i it, items !! i = Some it -> is_newarea it = flag_at per_area i.

(** The frame of a generator that has gone through [a] areas and yielded
    [r] items in the next one. *)
Definition at_position (per_area a r : nat) (f : frame) : Prop :=
  length (yielded f) = (a * per_area + r)%nat
  /\ flags_upto per_area (yielded f)
  /\ newarea f = if (r =? 0)%nat then (0 <? a)%nat else false.

(** The frame of a generator that has gone through the triples [ts], on a
    start vector of [n] amplitudes. *)
Definition gone_through (prefix_of : Z -> Z -> F64 -> string)
    (bias_modes : list Z) (n : nat) (ts : list (Z * Z * F64)) (f : frame)
  : Prop :=
  length (start_aberrations f) = n
  /\ Forall2 (yields_at prefix_of bias_modes) ts (yielded f).

(** A generator that has been run to its end: the items it yields, in
    order, and the exception that ends it, if one does. A generator only
    computes when it is asked for an item, and this one has no effect but on
    its own locals, so running it ahead changes nothing a caller can see. *)
Record generator : Type := mkGenerator {
  pending : list item;
  failure : option exn;
}.

Definition run_generator (loops : M frame unit)
    (bias_modes applied_modes : list Z) : generator :=
  match init_frame bias_modes applied_modes with
  | Raise e => mkGenerator [] (Some e)
  | Ok f0 =>
      match loops f0 with
      | (Ok _, f) => mkGenerator (yielded f) None
      | (Raise e, f) => mkGenerator (yielded f) (Some e)
      end
  end.

Definition generateAbb_DC (bias_modes applied_modes : list Z)
    (applied_steps : list F64) (areas : Z) : generator :=
  run_generator (loops_DC bias_modes applied_modes applied_steps areas)
    bias_modes applied_modes.

Definition generateAbb_HWAT (bias_modes applied_modes : list Z)
    (applied_steps : list F64) (areas : Z) : generator :=
  run_generator (loops_HWAT bias_modes applied_modes applied_steps areas)
    bias_modes applied_modes.

(** [generator.__next__()]: the next item; at the end the pending
    exception once, and [StopIteration] from then on. *)
Definition next : M generator item :=
  let! g := get in
  match pending g with
  | it :: rest => put (mkGenerator rest (failure g)) ;;; ret it
  | [] =>
      match failure g with
      | Some e => put (mkGenerator [] None) ;;; raise e
      | None => raise StopIteration
      end
  end.

End Generic.
End Sweep.

(** ** One repetition (dsDataCollection.py, [executeRep]) *)

Module Rep.
Section Generic.

Context `{Scalars}.
(** The image data a capture delivers. *)
Context {Image : Type}.

Inductive message : Type :=
  | Started_rep (repNum numReps : Z)
  | Dm_not_set
  | Experiment_complete.

(** What a repetition does to the world around it, in order. *)
Inductive event : Type :=
  | Print (m : message)
  | Set_phase (abb : list F32) (raised : bool)
  | Take_image (i : nat) (result : option Image)
  | Mimwrite (filename : string) (imlist : list Image)
  | Get_position
  | Go_to_xy (x y : Q).

(** What the hardware answers during one repetition: whether
    [aodev.proxy.set_phase] raises on the [i]-th bias vector, what
    [events.executeAndWaitForOrTimeout] returns for the [i]-th capture
    ([None] on a timeout, else the image [result[0]]), and the stage
    position. *)
Record Hardware : Type := mkHardware {
  set_phase_raises : nat -> bool;
  capture : nat -> option Image;
  position : Q * Q * Q;
}.

(** The state a repetition works on: the generator of the experiment, the
    events so far, and the locals [imlist] and [dm_set_failure]. *)
Record state : Type := mkState {
  abb_generator : Sweep.generator;
  events : list event;
  imlist : list Image;
  dm_set_failure : bool;
}.

Definition emit (e : event) : M state unit :=
  modify (fun s =>
    mkState (abb_generator s) (events s ++ [e]) (imlist s) (dm_set_failure s)).

Definition set_imlist (l : list Image) : M state unit :=
  modify (fun s =>
    mkState (abb_generator s) (events s) l (dm_set_failure s)).

Definition set_dm_set_failure (b : bool) : M state unit :=
  modify (fun s => mkState (abb_generator s) (events s) (imlist s) b).

(** [self.abb_generator.__next__()] *)
Definition next_item : M state Sweep.item :=
  fun s =>
    match Sweep.next (abb_generator s) with
    | (r, g) => (r, mkState g (events s) (imlist s) (dm_set_failure s))
    end.

(** [aodev.proxy.set_phase(abb)] *)
Definition set_phase (hw : Hardware) (i : nat) (abb : list F32)
  : M state unit :=
  emit (Set_phase abb (set_phase_raises hw i)) ;;;
  if set_phase_raises hw i then raise Exception else ret tt.

(** [events.executeAndWaitForOrTimeout(..., takeimage, ...)] *)
Definition take_image (hw : Hardware) (i : nat) : M state (option Image) :=
  emit (Take_image i (capture hw i)) ;;;
  ret (capture hw i).

(** [enumerate(l)] *)
Definition enumerate {A} (l : list A) : list (nat * A) :=
  zip (seq 0 (length l)) l.

(** [BiasImageDatasetExperiment.executeRep]; [numReps] and [saveBasePath]
    are the attributes of [self] it reads. *)
Definition executeRep (numReps : Z) (saveBasePath : string) (hw : Hardware)
    (repNum : Z) : M state unit :=
  emit (Print (Started_rep repNum numReps)) ;;;
  let! it := next_item in
  set_imlist [] ;;;
  set_dm_set_failure false ;;;
  for_each (enumerate (Sweep.biaslist it)) (fun '(i, abb) =>
    try_except (set_phase hw i abb) (set_dm_set_failure true) ;;;
    let! result := take_image hw i in
    match result with
    | Some image => let! s := get in set_imlist (imlist s ++ [image])
    | None => raise TimeoutError
    end) ;;;
  let! s := get in
  (if dm_set_failure s then emit (Print Dm_not_set) else ret tt) ;;;
  let filename := saveBasePath +:+ Sweep.fprefix it +:+ ".tif" in
  emit (Mimwrite filename (imlist s)) ;;;
  emit Get_position ;;;
  let '(curX, curY, curZ) := position hw in
  (if Sweep.is_newarea it
   then emit (Go_to_xy (curX + 50) (curY - 50)) else ret tt) ;;;
  (if numReps =? repNum + 1
   then emit (Print Experiment_complete) else ret tt).

(** *** Vocabulary of the statements about a repetition *)

(** The captures among some events, and the files written. *)
Definition captures_of (evs : list event) : list (nat * option Image) :=
  omap (fun e => match e with Take_image i r => Some (i, r) | _ => None end)
    evs.

Definition writes_of (evs : list event) : list (string * list Image) :=
  omap (fun e => match e with Mimwrite fn l => Some (fn, l) | _ => None end)
    evs.


(** What the loop over the enumerated bias list does: its events, the
    images it collects, whether a capture timed out, and whether a
    [set_phase] raised on the way. *)
Fixpoint loop_events (hw : Hardware) (ibl : list (nat * list F32))
  : list event :=
  match ibl with
  | [] => []
  | (i, abb) :: rest =>
      Set_phase abb (set_phase_raises hw i)
      :: Take_image i (capture hw i)
      :: match capture hw i with
         | Some _ => loop_events hw rest
         | None => []
         end
  end.

Fixpoint loop_images (hw : Hardware) (ibl : list (nat * list F32))
  : list Image :=
  match ibl with
  | [] => []
  | (i, _) :: rest =>
      match capture hw i with
      | Some image => image :: loop_images hw rest
      | None => []
      end
  end.

Fixpoint loop_timed_out (hw : Hardware) (ibl : list (nat * list F32))
  : bool :=
  match ibl with
  | [] => false
  | (i, _) :: rest =>
      match capture hw i with
      | Some _ => loop_timed_out hw rest
      | None => true
      end
  end.

Fixpoint loop_failure (hw : Hardware) (ibl : list (nat * list F32))
  : bool :=
  match ibl with
  | [] => false
  | (i, _) :: rest =>
      set_phase_raises hw i
      || match capture hw i with
         | Some _ => loop_failure hw rest
         | None => false
         end
  end.

(** What follows the loop when no capture timed out. *)
Definition closing_events (numReps : Z) (saveBasePath : string)
    (hw : Hardware) (repNum : Z) (it : Sweep.item) (images : list Image)
    (failed : bool) : list event :=
  (if failed then [Print Dm_not_set] else [])
  ++ [Mimwrite (saveBasePath +:+ Sweep.fprefix it +:+ ".tif") images;
      Get_position]
  ++ (if Sweep.is_newarea it
      then [Go_to_xy (fst (fst (position hw)) + 50)
                     (snd (fst (position hw)) - 50)]
      else [])
  ++ (if numReps =? repNum + 1 then [Print Experiment_complete] else []).

End Generic.
End Rep.

(** ** The experiments on exact numbers *)

(** [np.linspace], [__init__] and [{step:.1f}] compute on numbers; here the
    floats are read as the rationals they denote. *)
Module Exact.

Local Open Scope Q_scope.

(** Rounding of a rational [q >= 0] to an integer, ties to even. *)
Definition round_half_even (q : Q) : Z :=
  let n := Qnum q in
  let d := Z.pos (Qden q) in
  let fl := (n `div` d)%Z in
  let r := (n `mod` d)%Z in
  if (2 * r <? d)%Z then fl
  else if (d <? 2 * r)%Z then (fl + 1)%Z
  else if Z.even fl then fl else (fl + 1)%Z.

(** [f"{x:.1f}"]: the sign, then the magnitude rounded to one decimal. *)
Definition format_1f (x : Q) : string :=
  let t := round_half_even (Qabs x * 10) in
  (if Qlt_le_dec x 0 then "-" else "")
    +:+ pretty (t `div` 10)%Z +:+ "." +:+ pretty (t `mod` 10)%Z.

#[global] Instance exact_scalars : Scalars := {|
  F64 := Q;
  F32 := Q;
  Step := Z;
  zero64 := 0;
  f32_of := fun x => x;
  f32_add := fun x step => x + inject_Z (1 * step);
  f32_sub := fun x step => x - inject_Z (1 * step);
  one := 1%Z;
  fmt1 := format_1f;
|}.

(** [y[-1] = stop] *)
Definition set_last (y : list Q) (stop : Q) : list Q :=
  <[pred (length y) := stop]> y.

(** [np.linspace(start, stop, num)] with the default [endpoint=True],
    after numpy's [function_base.linspace], read over exact numbers. The
    number of samples, the sample at position 0 and the value assigned to
    the last position are those of numpy; the samples in between are the
    unrounded ones, where numpy rounds each operation to a float. *)
Definition linspace (start stop : Q) (num : Z) : result (list Q) :=
  if (num <? 0)%Z then Raise ValueError
  else
    let div := (num - 1)%Z in
    let delta := stop - start in
    let y := map inject_Z (Sweep.range num) in
    let y :=
      if (0 <? div)%Z then
        let step := delta / inject_Z div in
        if Qeq_bool step 0
        then map (fun v => v / inject_Z div * delta) y
        else map (fun v => v * step) y
      else map (fun v => v * delta) y in
    let y := map (fun v => v + start) y in
    Ok (if (1 <? num)%Z then set_last y stop else y).

(** The keyword arguments of the two constructors that the sweep uses. *)
Record Config : Type := mkConfig {
  bias_modes : list Z;
  abb_magnitude : Q;
  applied_modes : list Z;
  applied_step : Z;
  numReps : Z;
}.

(** The attributes the constructors set. *)
Record Experiment : Type := mkExperiment {
  self_bias_modes : list Z;
  self_abb_generator : Sweep.generator;
  self_numReps : Z;
  self_cameraToImageCount : Z;
}.

(** [BiasImageDatasetExperiment.__init__] *)
Definition BiasImageDatasetExperiment_init (cfg : Config)
  : result Experiment :=
  let areas := numReps cfg in
  match linspace (- abb_magnitude cfg) (abb_magnitude cfg)
          (applied_step cfg) with
  | Raise e => Raise e
  | Ok applied_steps =>
      Ok (mkExperiment (bias_modes cfg)
            (Sweep.generateAbb_DC (bias_modes cfg) (applied_modes cfg)
               applied_steps areas)
            (Z.of_nat (length applied_steps) * areas)%Z
            (2 * Z.of_nat (length (bias_modes cfg)) + 1)%Z)
  end.

(** [ATBiasImageDatasetExperiment.__init__] *)
Definition ATBiasImageDatasetExperiment_init (cfg : Config)
  : result Experiment :=
  let areas := numReps cfg in
  match linspace (- abb_magnitude cfg) (abb_magnitude cfg)
          (applied_step cfg) with
  | Raise e => Raise e
  | Ok applied_steps =>
      Ok (mkExperiment (bias_modes cfg)
            (Sweep.generateAbb_HWAT (bias_modes cfg) (applied_modes cfg)
               applied_steps areas)
            (Z.of_nat (length applied_steps)
               * Z.of_nat (length (applied_modes cfg)) * areas)%Z
            (2 * Z.of_nat (length (bias_modes cfg)) + 1)%Z)
  end.

(** The defaults of [BiasImageDatasetExperiment.__init__]. *)
Definition default_DC : Config :=
  mkConfig [4; 5; 6; 7; 10]%Z 5 [4; 5; 6; 7; 10]%Z 5 1.

(** The defaults of [ATBiasImageDatasetExperiment.__init__]. *)
Definition default_HWAT : Config :=
  mkConfig [4; 5; 6; 7; 10]%Z 5 [4; 5; 6; 7; 10]%Z 50 1.

End Exact.

(** ** Calls on the chain of a camera (microscopeCamera.py) *)

Module ChainCalls.
Section Calls.

Context {DataFn ShapeFn : Type}.
Context `{EqDecision DataFn} `{EqDecision ShapeFn}.

(** A call of [addPostProcessor] or of [removePostProcessor]. *)
Inductive chain_call : Type :=
  | Add (priority : Z) (f_data : DataFn) (f_shape : ShapeFn)
  | Remove (priority : Z) (f_data : option DataFn) (f_shape : option ShapeFn).

Definition call (c : chain_call)
  : M (list (@Camera._PostProcessor DataFn ShapeFn)) unit :=
  match c with
  | Add p fd fs => Camera.addPostProcessor p fd fs
  | Remove p fd fs => Camera.removePostProcessor p fd fs
  end.

(** The chain after the calls [cs], made one after the other on the chain
    [pps]; a call that raises does not keep the later ones from being
    made. *)
Fixpoint after_calls (cs : list chain_call)
    (pps : list (@Camera._PostProcessor DataFn ShapeFn))
  : list (@Camera._PostProcessor DataFn ShapeFn) :=
  match cs with
  | [] => pps
  | c :: cs' => after_calls cs' (snd (call c pps))
  end.

End Calls.
End ChainCalls.

(** ** Delivery of camera data (microscopeCamera.py, [receiveData]) *)

Module Receive.
Section Data.

(** The callables of the chain as in [Camera]; [data_call] is what a data
    callable does to an image, on the state [W] of whatever it reads or
    changes. [zeros] is [np.zeros(size, dtype=np.int16)]. *)
Context {DataFn ShapeFn Frame Time W : Type}.
Variable data_call : DataFn -> Frame -> M W Frame.
Variable zeros : Z * Z -> Frame.

(** What the call works on: the state behind the data callables, and the
    [(image, timestamp)] published as [NEW_IMAGE] so far. *)
Record bus : Type := mkBus {
  world : W;
  published : list (Frame * Time);
}.

(** [events.publish(events.NEW_IMAGE % self.name, image, timestamp)] *)
Definition publish (image : Frame) (timestamp : Time) : M bus unit :=
  modify (fun b => mkBus (world b) (published b ++ [(image, timestamp)])).

(** [pp.f_data(image)] *)
Definition call_f_data (pp : @Camera._PostProcessor DataFn ShapeFn)
    (image : Frame) : M bus Frame :=
  fun b =>
    match data_call (Camera.f_data pp) image (world b) with
    | (r, w) => (r, mkBus w (published b))
    end.

(** [for pp in self._post_processors: image = pp.f_data(image)] *)
Fixpoint apply_data (pps : list (@Camera._PostProcessor DataFn ShapeFn))
    (image : Frame) : M bus Frame :=
  match pps with
  | [] => ret image
  | pp :: pps' =>
      let! image := call_f_data pp image in
      apply_data pps' image
  end.

(** [MicroscopeCamera.receiveData] on the chain [pps]. The hardware hands
    over image data or an exception; [handler_size] is what
    [self.handler.getImageSize()] returns. *)
Definition receiveData (pps : list (@Camera._PostProcessor DataFn ShapeFn))
    (handler_size : Z * Z) (image : exn + Frame) (timestamp : Time)
  : M bus unit :=
  match image with
  | inr image =>
      let! image := apply_data pps image in
      publish image timestamp
  | inl e =>
      publish (zeros handler_size) timestamp ;;;
      raise e
  end.

End Data.
End Receive.

(** ** The Clarity device (aurox.py) *)

Module ClarityDevice.

(** The states of [cockpit.handlers.deviceHandler.STATES] that aurox.py
    publishes. *)
Inductive STATES : Set := disabled | enabled | busy | error.

#[global] Instance STATES_eq_dec : EqDecision STATES.
Proof. solve_decision. Defined.

(** Period of the timer used to update the user interface. *)
Definition TIMER_PERIOD_MS : Z := 1000.

(** [s.split("\n")]: the pieces between the newlines, empty ones
    included. *)
Fixpoint split_lines (s : string) : list string :=
  match s with
  | EmptyString => [EmptyString]
  | String c s' =>
      if Ascii.eqb c "010"%char then EmptyString :: split_lines s'
      else match split_lines s' with
           | piece :: pieces => String c piece :: pieces
           | [] => [String c EmptyString]
           end
  end.

(** ["\n".join(lines)] *)
Fixpoint join_lines (lines : list string) : string :=
  match lines with
  | [] => EmptyString
  | [line] => line
  | line :: lines' => line +:+ String "010" (join_lines lines')
  end.

(** [bool(label)] of a string. *)
Definition nonempty (label : string) : bool :=
  match label with
  | EmptyString => false
  | String _ _ => true
  end.

Section Device.

Context {Frame Processor Deforms Path : Type}.
(** [aurox_clarity.processor.Processor(data)] and [p.get_deforms()]. *)
Variable new_processor : Frame -> Processor.
Variable get_deforms : Processor -> Deforms.

(** The attributes [__init__] sets: the labels of the filter cubes, the
    camera name, and the processors with the accesses made to them. *)
Record Clarity : Type := mkClarity {
  _filter_cubes : list string;
  _camera_name : string;
  device : @Aurox.Clarity Processor;
}.

(** [Clarity.__init__] on the configuration [config] of the device. *)
Definition init (config : gmap string string) : result Clarity :=
  let _processors := replicate 4 (@None Processor) in
  match config !! "filter cubes" with
  | None => Raise Exception
  | Some cubes =>
      match config !! "camera" with
      | None => Raise Exception
      | Some camera =>
          let _filter_cubes := List.filter nonempty (split_lines cubes) in
          if negb (length _filter_cubes =? 4)%nat then Raise Exception
          else Ok (mkClarity _filter_cubes camera
                     (Aurox.mkClarity _processors []))
      end
  end.

(** What a handler works on: the device and the [DEVICE_STATUS] states it
    has published for its handler. *)
Record session : Type := mkSession {
  clarity : @Aurox.Clarity Processor;
  statuses : list STATES;
}.

Definition publish_status (state : STATES) : M session unit :=
  modify (fun s => mkSession (clarity s) (statuses s ++ [state])).

Definition read_position : M session unit :=
  modify (fun s =>
    mkSession
      (Aurox.mkClarity (Aurox._processors (clarity s))
         (Aurox.accesses (clarity s) ++ [Aurox.Get_filter_position]))
      (statuses s)).

(** [self._processors[fpos] = p] *)
Definition set_processor (fpos : Z) (p : Processor) : M session unit :=
  let! s := get in
  let! k := lift (norm_index (length (Aurox._processors (clarity s))) fpos) in
  put (mkSession
         (Aurox.mkClarity (<[k := Some p]> (Aurox._processors (clarity s)))
            (Aurox.accesses (clarity s)))
         (statuses s)).

(** [fpos = get_filter_position()] followed by
    [while fpos is None: fpos = get_filter_position()]. The [i]-th read of
    the position returns [reads i]; the loop is cut after [fuel] rounds,
    and [None] stands for a loop that is still running then. *)
Fixpoint wait_for_position (reads : nat -> option Z) (fuel i : nat)
    (s : session) : option (Z * session) :=
  match read_position s with
  | (_, s') =>
      match reads i with
      | Some fpos => Some (fpos, s')
      | None =>
          match fuel with
          | O => None
          | S fuel' => wait_for_position reads fuel' (S i) s'
          end
      end
  end.

(** [Clarity._on_calib]: [handler_found] tells whether the camera handler
    exists and [data] is what [getImageForCamera] returns. [None] stands
    for a call that is still waiting for a position after [fuel] rounds. *)
Definition _on_calib (fuel : nat) (handler_found : bool)
    (data : option Frame) (reads : nat -> option Z) (s : session)
  : option (result unit * session) :=
  if negb handler_found then Some (Raise Exception, s)
  else
    match data with
    | None => Some (Raise Exception, s)
    | Some data =>
        match publish_status busy s with
        | (_, s1) =>
            match wait_for_position reads fuel 0 s1 with
            | None => None
            | Some (fpos, s2) =>
                Some ((set_processor fpos (new_processor data) ;;;
                       publish_status enabled) s2)
            end
        end
    end.

(** The session [s] after [k] more reads of the filter position. *)
Definition after_reads (k : nat) (s : session) : session :=
  mkSession
    (Aurox.mkClarity (Aurox._processors (clarity s))
       (Aurox.accesses (clarity s) ++ replicate k Aurox.Get_filter_position))
    (statuses s).

(** What [_on_deforms] does outside the device: the archives written by
    [numpy.savez_compressed(path, **deforms)]. *)
Definition archive : Type := (Path * gmap string Deforms)%type.

(** The keyword-only parameters of [numpy.savez_compressed] in the numpy at
    hand: none up to numpy 2.0, [allow_pickle] from numpy 2.1 on. *)
Variable keyword_only : list string.

(** [numpy.savez_compressed(path, **deforms)]. The entries of the dictionary
    are passed as keyword arguments: an entry named [file], like the first
    parameter of [savez_compressed], makes the call raise [TypeError]
    before anything is written, and an entry named like a keyword-only
    parameter is taken as that argument and not stored. *)
Definition savez_compressed (path : Path) (kwds : gmap string Deforms)
  : M (list archive) unit :=
  if decide (is_Some (kwds !! "file")) then raise TypeError
  else
    modify (fun saved =>
      saved ++ [(path, filter (fun kv => fst kv ∉ keyword_only) kwds)]).

(** The dictionary comprehension
    [{self._filter_cubes[i]: p.get_deforms()
      for i, p in enumerate(self._processors) if p}]: the entries are set
    in the order of the channels, so a later channel replaces an earlier one
    under the same label. *)
Fixpoint collect_deforms (labels : list string)
    (channels : list (nat * option Processor))
    (deforms : gmap string Deforms) : result (gmap string Deforms) :=
  match channels with
  | [] => Ok deforms
  | (i, None) :: channels' => collect_deforms labels channels' deforms
  | (i, Some p) :: channels' =>
      match getitem labels (Z.of_nat i) with
      | Raise e => Raise e
      | Ok label =>
          collect_deforms labels channels' (<[label := get_deforms p]> deforms)
      end
  end.

(** The processors of the channels labelled [label], in the order of the
    channels. *)
Definition calibrated_under (label : string)
    (channels : list (string * option Processor)) : list Processor :=
  omap (fun '(l, p) => if decide (l = label) then p else None) channels.

(** [Clarity._on_deforms]: [choice] is the path chosen in the file dialog,
    [None] when the dialog is cancelled; the state is the list of archives
    written. *)
Definition _on_deforms (labels : list string)
    (processors : list (option Processor)) (choice : option Path)
  : M (list archive) unit :=
  let! deforms :=
    lift (collect_deforms labels (Rep.enumerate processors) ∅) in
  if decide (deforms = ∅) then raise Exception
  else
    match choice with
    | None => raise Exception
    | Some path => savez_compressed path deforms
    end.

End Device.
End ClarityDevice.

(** ** The user interface of the Clarity device (aurox.py) *)

Module ClarityUI.
Import ClarityDevice.

(** The widgets [_update_UI] reads and sets, the events queued on the
    sectioning button, and the [DEVICE_STATUS] states published. *)
Record Widgets : Type := mkWidgets {
  choice_sect : Z;
  choice_sect_focus : bool;
  choice_fcube : Z;
  choice_fcube_focus : bool;
  cbox_calib : bool;
  button_calib_light : bool;
  button_section : bool;
  button_section_enabled : bool;
  queued_toggles : nat;
  cbox_door : bool;
  status_shown : list STATES;
}.

(** What the proxy answers to the reads of one [_update_UI], in the order
    of the reads: those of the [try] block, then those after it. *)
Record Answers : Type := mkAnswers {
  try_is_enabled : result bool;
  try_disk_position : result (option Z);
  try_filter_position : result (option Z);
  try_door_closed : result bool;
  disk_position : result (option Z);
  filter_position : result (option Z);
  calibration_led : result bool;
  door_closed : result bool;
}.

Definition show_status (state : STATES) : M Widgets unit :=
  modify (fun w =>
    mkWidgets (choice_sect w) (choice_sect_focus w) (choice_fcube w)
      (choice_fcube_focus w) (cbox_calib w) (button_calib_light w)
      (button_section w) (button_section_enabled w) (queued_toggles w)
      (cbox_door w) (status_shown w ++ [state])).

Definition set_choice_sect (dpos : Z) : M Widgets unit :=
  modify (fun w =>
    mkWidgets dpos (choice_sect_focus w) (choice_fcube w)
      (choice_fcube_focus w) (cbox_calib w) (button_calib_light w)
      (button_section w) (button_section_enabled w) (queued_toggles w)
      (cbox_door w) (status_shown w)).

Definition set_choice_fcube (fpos : Z) : M Widgets unit :=
  modify (fun w =>
    mkWidgets (choice_sect w) (choice_sect_focus w) fpos
      (choice_fcube_focus w) (cbox_calib w) (button_calib_light w)
      (button_section w) (button_section_enabled w) (queued_toggles w)
      (cbox_door w) (status_shown w)).

Definition set_cbox_calib (b : bool) : M Widgets unit :=
  modify (fun w =>
    mkWidgets (choice_sect w) (choice_sect_focus w) (choice_fcube w)
      (choice_fcube_focus w) b (button_calib_light w)
      (button_section w) (button_section_enabled w) (queued_toggles w)
      (cbox_door w) (status_shown w)).

Definition set_button_calib_light (b : bool) : M Widgets unit :=
  modify (fun w =>
    mkWidgets (choice_sect w) (choice_sect_focus w) (choice_fcube w)
      (choice_fcube_focus w) (cbox_calib w) b
      (button_section w) (button_section_enabled w) (queued_toggles w)
      (cbox_door w) (status_shown w)).

Definition set_button_section (b : bool) : M Widgets unit :=
  modify (fun w =>
    mkWidgets (choice_sect w) (choice_sect_focus w) (choice_fcube w)
      (choice_fcube_focus w) (cbox_calib w) (button_calib_light w)
      b (button_section_enabled w) (queued_toggles w)
      (cbox_door w) (status_shown w)).

Definition enable_button_section (b : bool) : M Widgets unit :=
  modify (fun w =>
    mkWidgets (choice_sect w) (choice_sect_focus w) (choice_fcube w)
      (choice_fcube_focus w) (cbox_calib w) (button_calib_light w)
      (button_section w) b (queued_toggles w)
      (cbox_door w) (status_shown w)).

(** [self._button_section.QueueEvent(evt)] *)
Definition queue_toggle : M Widgets unit :=
  modify (fun w =>
    mkWidgets (choice_sect w) (choice_sect_focus w) (choice_fcube w)
      (choice_fcube_focus w) (cbox_calib w) (button_calib_light w)
      (button_section w) (button_section_enabled w) (S (queued_toggles w))
      (cbox_door w) (status_shown w)).

Definition set_cbox_door (b : bool) : M Widgets unit :=
  modify (fun w =>
    mkWidgets (choice_sect w) (choice_sect_focus w) (choice_fcube w)
      (choice_fcube_focus w) (cbox_calib w) (button_calib_light w)
      (button_section w) (button_section_enabled w) (queued_toggles w)
      b (status_shown w)).

(** The condition [get_disk_position() is None or get_filter_position() is
    None or not door_closed], read from left to right as far as needed. *)
Definition indeterminate (a : Answers) : M Widgets bool :=
  let! dpos := lift (try_disk_position a) in
  match dpos with
  | None => ret true
  | Some _ =>
      let! fpos := lift (try_filter_position a) in
      match fpos with
      | None => ret true
      | Some _ =>
          let! door := lift (try_door_closed a) in
          ret (negb door)
      end
  end.

(** The [try] block of [_update_UI]; it returns whether the function goes
    on after it. *)
Definition publish_state (a : Answers) : M Widgets bool :=
  try_except
    (let state := disabled in
     let! is_enabled := lift (try_is_enabled a) in
     let state := if is_enabled then enabled else state in
     let! undecided := indeterminate a in
     let state := if undecided then busy else state in
     show_status state ;;;
     ret true)
    (show_status error ;;;
     ret false).

(** [Clarity._update_UI] on the processors [_processors] of the device. *)
Definition _update_UI {Processor : Type}
    (_processors : list (option Processor)) (a : Answers)
  : M Widgets unit :=
  let! published := publish_state a in
  if negb published then ret tt
  else
    let! dpos := lift (disk_position a) in
    (match dpos with
     | Some dpos =>
         let! w := get in
         if choice_sect_focus w then ret tt else set_choice_sect dpos
     | None => ret tt
     end) ;;;
    let! fpos := lift (filter_position a) in
    (match fpos with
     | Some fpos =>
         let! w := get in
         if choice_fcube_focus w then ret tt else set_choice_fcube fpos
     | None => ret tt
     end) ;;;
    let! calibrated :=
      match fpos with
      | None => ret false
      | Some fpos =>
          let! p := lift (getitem _processors fpos) in
          ret (match p with Some _ => true | None => false end)
      end in
    set_cbox_calib calibrated ;;;
    let! led := lift (calibration_led a) in
    set_button_calib_light led ;;;
    let! w := get in
    (if negb calibrated && button_section w
     then set_button_section false ;;; queue_toggle
     else ret tt) ;;;
    enable_button_section calibrated ;;;
    let! door := lift (door_closed a) in
    set_cbox_door door.

(** The [wx.Timer] of the panel: whether it runs, and the calls made to
    it. *)
Inductive timer_call : Set := Stop | Start (milliseconds : Z).

Record Timer : Type := mkTimer {
  running : bool;
  timer_calls : list timer_call;
}.

(** [Clarity._timer_controller]: [own_handler] tells whether
    [e.EventData[0]] is the handler of this device, [state] is
    [e.EventData[1]]. *)
Definition _timer_controller (own_handler : bool) (state : STATES)
  : M Timer unit :=
  if negb own_handler then ret tt
  else if decide (state = disabled)
  then modify (fun t => mkTimer false (timer_calls t ++ [Stop]))
  else
    let! t := get in
    if negb (running t)
    then put (mkTimer true (timer_calls t ++ [Start TIMER_PERIOD_MS]))
    else ret tt.

End ClarityUI.

(** ** The action table of the hardware-timed experiment (dsDataHWAT.py) *)

Module Actions.
Section Generic.

Context `{Scalars}.
(** The camera sets and light/time pairs of [self.exposureSettings], and
    [Experiment.expose], which returns the time after the exposure. *)
Context {Cameras Pairs : Type}.
Variable expose : Q -> Cameras -> Pairs -> Q.

Inductive action : Type :=
  | Toggle (time : Q)
  | Expose (time : Q) (cameras : Cameras) (pairs : Pairs)
  | Queue_patterns (patterns : list (list F32)).

(** The locals of [generateActions] and what it has done so far. *)
Record state : Type := mkState {
  curTime : Q;
  acc_patterns : list (list F32);
  actions : list action;
}.

Definition act (a : action) : M state unit :=
  modify (fun s => mkState (curTime s) (acc_patterns s) (actions s ++ [a])).

Definition set_curTime (t : Q) : M state unit :=
  modify (fun s => mkState t (acc_patterns s) (actions s)).

Definition set_acc_patterns (l : list (list F32)) : M state unit :=
  modify (fun s => mkState (curTime s) l (actions s)).

(** [acc_patterns.extend(biaslist)] *)
Definition extend (biaslist : list (list F32)) : M state unit :=
  modify (fun s =>
    mkState (curTime s) (acc_patterns s ++ biaslist) (actions s)).

(** [ATBiasImageDatasetExperiment.generateActions] on the generator
    [self.abb_generator]; [movement_time] is what
    [self.dmHandler.getMovementTime()] returns. The [for] statement takes
    the items of the generator to its end, where a generator that ends by
    raising raises in the loop. *)
Definition generateActions (abb_generator : Sweep.generator)
    (movement_time : Q) (exposureSettings : list (Cameras * Pairs))
  : M state unit :=
  set_curTime 0 ;;;
  let delayBeforeImaging := (1 # 1000)%Q in
  set_acc_patterns [] ;;;
  for_each (Sweep.pending abb_generator) (fun it =>
    extend (Sweep.biaslist it) ;;;
    for_each (Sweep.biaslist it) (fun abb =>
      (let! s := get in act (Toggle (curTime s))) ;;;
      (let! s := get in set_curTime (curTime s + movement_time)%Q) ;;;
      (let! s := get in set_curTime (curTime s + (1 # 1000))%Q) ;;;
      (let! s := get in set_curTime (curTime s + delayBeforeImaging)%Q) ;;;
      for_each exposureSettings (fun '(cameras, lightTimePairs) =>
        let! s := get in
        act (Expose (curTime s) cameras lightTimePairs) ;;;
        set_curTime (expose (curTime s) cameras lightTimePairs)))) ;;;
  (match Sweep.failure abb_generator with
   | Some e => raise e
   | None => ret tt
   end) ;;;
  let! s := get in
  act (Queue_patterns (acc_patterns s)).

(** *** Vocabulary of the statements about the action table *)

(** The times of the toggles among some actions, the exposures in order,
    and the pattern lists queued on the device. *)
Definition toggles_of (acts : list action) : list Q :=
  omap (fun a => match a with Toggle t => Some t | _ => None end) acts.

Definition exposures_of (acts : list action) : list (Cameras * Pairs) :=
  omap (fun a => match a with Expose _ c p => Some (c, p) | _ => None end)
    acts.

Definition queued_of (acts : list action) : list (list (list F32)) :=
  omap (fun a => match a with Queue_patterns l => Some l | _ => None end)
    acts.

(** An action without its time. *)
Inductive action_kind : Type :=
  | Toggled
  | Exposed (cameras : Cameras) (pairs : Pairs)
  | Queued (patterns : list (list F32)).

Definition kind_of (a : action) : action_kind :=
  match a with
  | Toggle _ => Toggled
  | Expose _ cameras pairs => Exposed cameras pairs
  | Queue_patterns patterns => Queued patterns
  end.

(** The kinds of the actions for one pattern: the toggle of the mirror,
    then one exposure for every exposure setting. *)
Definition pattern_kinds (exposureSettings : list (Cameras * Pairs))
  : list action_kind :=
  Toggled :: map (fun cp => Exposed (fst cp) (snd cp)) exposureSettings.

End Generic.
End Actions.

(** ** Vocabulary of further statements about the sweep *)

Module SweepVectors.
Section Generic.

Context `{Scalars}.

(** The length of the start vector: one more than the largest mode. *)
Definition vector_length (bias_modes applied_modes : list Z) : nat :=
  match Sweep.np_max bias_modes, Sweep.np_max applied_modes with
  | Ok mb, Ok ma => Z.to_nat (Z.max mb ma + 1)
  | _, _ => 0%nat
  end.

(** The start vector after the sweep has gone through the triples [ts]:
    every triple sets the amplitude of its applied mode to its step and
    leaves the other amplitudes as they are. *)
Definition vector_after (n : nat) (ts : list (Z * Z * F64)) : list F64 :=
  fold_left (fun sa t => <[Z.to_nat (snd (fst t)) := snd t]> sa) ts
    (replicate n zero64).

(** The frame of a generator that has gone through the triples [ts],
    with the bias list of every item it has yielded. *)
Definition tracked (bias_modes : list Z) (n : nat)
    (ts : list (Z * Z * F64)) (f : Sweep.frame) : Prop :=
  Sweep.start_aberrations f = vector_after n ts
  /\ map Sweep.biaslist (Sweep.yielded f)
     = map (fun k =>
              Sweep.polytope (map f32_of (vector_after n (take (S k) ts)))
                bias_modes [one])
         (seq 0 (length ts)).

End Generic.
End SweepVectors.

(** * Proofs *)

(** ** The monad *)

Lemma for_each_app {S X} (xs ys : list X) (body : X -> M S unit) (s : S) :
  for_each (xs ++ ys) body s
  = match for_each xs body s with
    | (Ok _, s') => for_each ys body s'
    | (Raise e, s') => (Raise e, s')
    end.
Proof.
  revert s; induction xs as [|x xs IH]; intros s; simpl; [done|].
  unfold bind. destruct (body x s) as [[[]|e] s']; [apply IH|done].
Qed.

Lemma getitem_0 {A} (l : list A) :
  getitem l 0 = match l with [] => Raise IndexError | x :: _ => Ok x end.
Proof.
  unfold getitem, norm_index. destruct l as [|x l]; simpl; [done|].
  replace (0 <? Z.pos (Pos.of_succ_nat (length l))) with true; [done|].
  symmetry; apply Z.ltb_lt; lia.
Qed.

(** ** The post-processor chain *)

Section ChainFacts.

Context {DataFn ShapeFn : Type}.
Context `{EqDecision DataFn} `{EqDecision ShapeFn}.
Variable shape_call : ShapeFn -> Z * Z -> Z * Z.

Abbreviation PP := (@Camera._PostProcessor DataFn ShapeFn).
Abbreviation prio_le := (fun a b : PP => Camera.priority a <= Camera.priority b).
Abbreviation has_prio p := (fun x : PP => Camera.priority x = p).

(** The three filters of [removePostProcessor] select the candidates. *)
Lemma candidates_filter prio fd fs (pps : list PP) :
  match fs with
  | Some fs =>
      filter (fun item => Camera.f_shape item = fs)
        match fd with
        | Some fd => filter (fun item => Camera.f_data item = fd)
                       (filter (has_prio prio) pps)
        | None => filter (has_prio prio) pps
        end
  | None =>
      match fd with
      | Some fd => filter (fun item => Camera.f_data item = fd)
                     (filter (has_prio prio) pps)
      | None => filter (has_prio prio) pps
      end
  end = filter (Camera.candidate prio fd fs) pps.
Proof.
  unfold Camera.candidate.
  destruct fd as [f|], fs as [g|]; rewrite ?list_filter_filter;
    apply list_filter_iff; intros x; tauto.
Qed.

(** The first element a filter keeps splits the list. *)
Lemma filter_first_split {A} (P : A -> Prop) `{!forall x, Decision (P x)}
    (l : list A) :
  match filter P l with
  | [] => Forall (fun y => ~ P y) l
  | x :: _ => exists l1 l2,
      l = l1 ++ x :: l2 /\ P x /\ Forall (fun y => ~ P y) l1
  end.
Proof.
  induction l as [|y l IH]; simpl; [constructor|].
  rewrite filter_cons. destruct (decide (P y)) as [Hy|Hy].
  - exists [], l. auto.
  - destruct (filter P l) as [|x c].
    + constructor; auto.
    + destruct IH as (l1 & l2 & -> & Hx & Hl1).
      exists (y :: l1), l2. auto.
Qed.

Lemma list_remove_split (x : PP) (l1 l2 : list PP) :
  Forall (fun y => y <> x) l1 ->
  Camera.list_remove x (l1 ++ x :: l2) = Ok (l1 ++ l2).
Proof.
  induction 1 as [|y l1 Hy _ IH]; simpl.
  - by rewrite decide_True.
  - rewrite decide_False by done. by rewrite IH.
Qed.

(** C4. [removePostProcessor] removes exactly the first candidate in the
    order of the chain and leaves every other processor where it was; when
    the chain holds no candidate it raises [IndexError] and leaves the chain
    as it was. *)
Theorem C4_remove_first_candidate_or_raise
    (prio : Z) (fd : option DataFn) (fs : option ShapeFn) (pps : list PP) :
  (exists l1 x l2,
      pps = l1 ++ x :: l2
      /\ Camera.candidate prio fd fs x
      /\ Forall (fun y => ~ Camera.candidate prio fd fs y) l1
      /\ Camera.removePostProcessor prio fd fs pps = (Ok tt, l1 ++ l2))
  \/ (Forall (fun y => ~ Camera.candidate prio fd fs y) pps
      /\ Camera.removePostProcessor prio fd fs pps = (Raise IndexError, pps)).
Proof.
  unfold Camera.removePostProcessor, bind, get, put, lift.
  rewrite (candidates_filter prio fd fs pps), getitem_0.
  pose proof (filter_first_split (Camera.candidate prio fd fs) pps) as Hsplit.
  destruct (filter (Camera.candidate prio fd fs) pps) as [|x c].
  - right. auto.
  - left. destruct Hsplit as (l1 & l2 & -> & Hx & Hl1).
    exists l1, x, l2.
    split; [done|]. split; [exact Hx|]. split; [exact Hl1|].
    rewrite list_remove_split; [done|].
    eapply Forall_impl; [exact Hl1|]. intros y Hy ->. auto.
Qed.


(** *** Sorting *)

Lemma filter_prio_above (q : Z) (l : list PP) :
  Forall (fun z => q < Camera.priority z) l -> filter (has_prio q) l = [].
Proof.
  induction 1 as [|z l Hz _ IH]; [done|].
  rewrite filter_cons, decide_False by lia. exact IH.
Qed.

Lemma sorted_above (y : PP) (l : list PP) (q : Z) :
  StronglySorted prio_le (y :: l) -> q < Camera.priority y ->
  Forall (fun z => q < Camera.priority z) (y :: l).
Proof.
  intros Hs Hq. apply StronglySorted_inv in Hs as [_ Hy].
  constructor; [done|]. eapply Forall_impl; [exact Hy|]. simpl; intros; lia.
Qed.

Lemma sort_insert_elem (x : PP) (l : list PP) (P : PP -> Prop) :
  P x -> Forall P l -> Forall P (Camera.sort_insert x l).
Proof.
  intros Hx; induction 1 as [|y l Hy Hl IH]; simpl.
  - by constructor.
  - destruct (Camera.priority x <? Camera.priority y);
      repeat constructor; auto.
Qed.

Lemma sort_insert_sorted (x : PP) (l : list PP) :
  StronglySorted prio_le l -> StronglySorted prio_le (Camera.sort_insert x l).
Proof.
  induction 1 as [|y l Hs IH Hy]; simpl.
  - repeat constructor.
  - destruct (Z.ltb_spec (Camera.priority x) (Camera.priority y)) as [Hlt|Hge].
    + constructor; [by constructor|].
      constructor; [lia|]. eapply Forall_impl; [exact Hy|]. simpl; intros; lia.
    + constructor; [exact IH|]. apply sort_insert_elem; [lia|exact Hy].
Qed.

Lemma sort_insert_filter (p : Z) (x : PP) (l : list PP) :
  StronglySorted prio_le l ->
  filter (has_prio p) (Camera.sort_insert x l) = filter (has_prio p) (l ++ [x]).
Proof.
  induction l as [|y l IH]; intros Hs; simpl; [done|].
  destruct (Z.ltb_spec (Camera.priority x) (Camera.priority y)) as [Hlt|Hge].
  - change (y :: l ++ [x]) with ((y :: l) ++ [x]). rewrite filter_app.
    rewrite (filter_cons _ x (y :: l)), (filter_cons _ x []), filter_nil.
    destruct (decide (Camera.priority x = p)) as [<-|Hne].
    + by rewrite (filter_prio_above _ _ (sorted_above _ _ _ Hs Hlt)).
    + by rewrite app_nil_r.
  - rewrite !(filter_cons _ y), IH; [done|].
    by apply StronglySorted_inv in Hs as [? _].
Qed.

Lemma sort_fold (l acc : list PP) :
  StronglySorted prio_le acc ->
  StronglySorted prio_le (fold_left (fun a x => Camera.sort_insert x a) l acc)
  /\ forall p,
      filter (has_prio p) (fold_left (fun a x => Camera.sort_insert x a) l acc)
      = filter (has_prio p) (acc ++ l).
Proof.
  revert acc; induction l as [|x l IH]; intros acc Hacc; simpl.
  - by rewrite app_nil_r.
  - destruct (IH _ (sort_insert_sorted x acc Hacc)) as [Hs Hf].
    split; [exact Hs|]. intros p.
    rewrite Hf, filter_app, (sort_insert_filter p x acc Hacc), <- filter_app.
    by rewrite <- app_assoc.
Qed.

(** The embedding of [list.sort] is an ascending sort that keeps the order
    of equal keys. *)
Lemma sort_by_priority_order (l : list PP) :
  Camera.priority_order l (Camera.sort_by_priority l).
Proof.
  destruct (sort_fold l [] (SSorted_nil _)) as [Hs Hf]. by split.
Qed.

Lemma sorted_filter_unique (l1 l2 : list PP) :
  StronglySorted prio_le l1 -> StronglySorted prio_le l2 ->
  (forall p, filter (has_prio p) l1 = filter (has_prio p) l2) ->
  l1 = l2.
Proof.
  revert l2; induction l1 as [|x l1 IH]; intros [|y l2] Hs1 Hs2 Hf; [done|..].
  - specialize (Hf (Camera.priority y)).
    by rewrite filter_nil, filter_cons, decide_True in Hf.
  - specialize (Hf (Camera.priority x)).
    by rewrite filter_nil, filter_cons, decide_True in Hf.
  - assert (Camera.priority x = Camera.priority y) as Hxy.
    { destruct (Z.lt_trichotomy (Camera.priority x) (Camera.priority y))
        as [Hlt|[Heq|Hgt]]; [|done|]; exfalso.
      - specialize (Hf (Camera.priority x)).
        rewrite (filter_prio_above _ _ (sorted_above _ _ _ Hs2 Hlt)) in Hf.
        by rewrite filter_cons, decide_True in Hf.
      - specialize (Hf (Camera.priority y)).
        rewrite (filter_prio_above _ _ (sorted_above _ _ _ Hs1 Hgt)) in Hf.
        by rewrite filter_cons, decide_True in Hf. }
    apply StronglySorted_inv in Hs1 as [Hs1 _].
    apply StronglySorted_inv in Hs2 as [Hs2 _].
    assert (x = y /\ forall p, filter (has_prio p) l1 = filter (has_prio p) l2)
      as [-> Hf'].
    { pose proof (Hf (Camera.priority x)) as H0.
      rewrite (filter_cons _ x), (filter_cons _ y) in H0.
      rewrite decide_True, decide_True in H0 by done.
      injection H0 as -> H0. split; [done|]. intros p.
      specialize (Hf p). rewrite !(filter_cons _ y) in Hf.
      destruct (decide (Camera.priority y = p)); [congruence|done]. }
    f_equal. by apply IH.
Qed.

Lemma priority_order_unique (adds l1 l2 : list PP) :
  Camera.priority_order adds l1 -> Camera.priority_order adds l2 -> l1 = l2.
Proof.
  intros [Hs1 Hf1] [Hs2 Hf2]. apply sorted_filter_unique; [done..|].
  intros p. by rewrite Hf1, Hf2.
Qed.

(** *** The chain after a sequence of additions *)

Lemma add_all_ok (adds pps : list PP) :
  exists pps', Camera.add_all adds pps = (Ok tt, pps').
Proof.
  revert pps; induction adds as [|x adds IH]; intros pps; simpl; [by eexists|].
  unfold Camera.add_all in *; simpl. unfold bind at 1; simpl. apply IH.
Qed.

Lemma chain_after_snoc (adds : list PP) (x : PP) :
  Camera.chain_after (adds ++ [x])
  = Camera.sort_by_priority (Camera.chain_after adds ++ [x]).
Proof.
  unfold Camera.chain_after, Camera.add_all. rewrite for_each_app.
  destruct (add_all_ok adds []) as [pps' Hadds].
  unfold Camera.add_all in Hadds. rewrite Hadds. simpl.
  by destruct x.
Qed.

Lemma chain_after_order (adds : list PP) :
  Camera.priority_order adds (Camera.chain_after adds).
Proof.
  induction adds as [|x adds [Hs Hf]] using rev_ind.
  - split; [constructor|done].
  - rewrite chain_after_snoc.
    destruct (sort_by_priority_order (Camera.chain_after adds ++ [x]))
      as [Hs' Hf'].
    split; [exact Hs'|]. intros p.
    by rewrite Hf', !filter_app, Hf.
Qed.

Lemma apply_shapes_fold (pps : list PP) (size : Z * Z) :
  Camera.apply_shapes shape_call pps size
  = Camera.fold_shapes shape_call pps size.
Proof. revert size; induction pps as [|pp pps IH]; intros size; simpl; auto. Qed.

(** C5. After any sequence of [addPostProcessor] calls on a new camera, the
    chain is the one list that holds the added processors in ascending
    priority with equal priorities in insertion order; [getImageSize]
    returns the left fold of the shape functions over the base size along
    that list; and a second sequence of calls that agrees with the first on
    the order of the processors of each priority gives the same chain and
    the same size. *)
Theorem C5_image_size_folds_in_priority_order
    (adds : list PP) (roi : Camera.ROI) (binning : Camera.Binning)
    (base : Z * Z) :
  Camera.sensor_size roi binning = Ok base ->
  Camera.priority_order adds (Camera.chain_after adds)
  /\ (forall l, Camera.priority_order adds l ->
        Camera.getImageSize shape_call roi binning (Camera.chain_after adds)
        = (Ok (Camera.fold_shapes shape_call l base), l))
  /\ (forall adds',
        (forall p, filter (has_prio p) adds' = filter (has_prio p) adds) ->
        Camera.getImageSize shape_call roi binning (Camera.chain_after adds')
        = Camera.getImageSize shape_call roi binning
            (Camera.chain_after adds)).
Proof.
  intros Hbase. pose proof (chain_after_order adds) as Hord.
  split; [exact Hord|]. split.
  - intros l Hl. rewrite (priority_order_unique _ _ _ Hl Hord).
    unfold Camera.getImageSize, bind, lift, get, ret. rewrite Hbase.
    by rewrite apply_shapes_fold.
  - intros adds' Hsame. f_equal.
    apply (priority_order_unique adds); [|exact Hord].
    destruct (chain_after_order adds') as [Hs Hf].
    split; [exact Hs|]. intros p. by rewrite Hf, Hsame.
Qed.

End ChainFacts.

(** ** Loops *)

(** A loop whose body only appends to the state. *)
Lemma for_each_extend {X A} (xs : list X) (body : X -> M (list A) unit)
    (h : X -> list A) :
  Forall (fun x => forall s, body x s = (Ok tt, s ++ h x)) xs ->
  forall s, for_each xs body s = (Ok tt, s ++ flat_map h xs).
Proof.
  induction 1 as [|x xs Hx _ IH]; intros s; simpl.
  - by rewrite app_nil_r.
  - unfold bind. rewrite Hx, IH. by rewrite app_assoc.
Qed.

Lemma flat_map_singleton {X A} (g : X -> A) (xs : list X) :
  flat_map (fun x => [g x]) xs = map g xs.
Proof. induction xs as [|x xs IH]; simpl; congruence. Qed.

(** A loop invariant [I] over the part of the list already visited; [Q]
    is what holds of the state when the body raises. *)
Lemma for_each_inv {S X} (I : list X -> S -> Prop) (Q : S -> Prop)
    (xs : list X) (body : X -> M S unit) (s0 : S) :
  I [] s0 ->
  (forall l1 x l2 s, xs = l1 ++ x :: l2 -> I l1 s ->
     match body x s with
     | (Ok _, s') => I (l1 ++ [x]) s'
     | (Raise _, s') => Q s'
     end) ->
  match for_each xs body s0 with
  | (Ok _, s') => I xs s'
  | (Raise _, s') => Q s'
  end.
Proof.
  intros H0 Hstep.
  cut (forall l1 l2 s, xs = l1 ++ l2 -> I l1 s ->
         match for_each l2 body s with
         | (Ok _, s') => I xs s'
         | (Raise _, s') => Q s'
         end).
  { intros Hcut. by apply (Hcut [] xs). }
  intros l1 l2; revert l1; induction l2 as [|x l2 IH]; intros l1 s Hxs Hl1.
  - simpl. rewrite app_nil_r in Hxs. by subst.
  - simpl. unfold bind. specialize (Hstep l1 x l2 s Hxs Hl1).
    destruct (body x s) as [[[]|e] s']; [|done].
    apply (IH (l1 ++ [x])); [|done]. by rewrite <- app_assoc.
Qed.

(** ** The bias polytope *)

Section PolytopeFacts.

Context `{Scalars}.

Lemma norm_index_valid (n : nat) (axis : Z) :
  - Z.of_nat n <= axis < Z.of_nat n ->
  norm_index n axis = Ok (Sweep.axis_index n axis)
  /\ (Sweep.axis_index n axis < n)%nat.
Proof.
  intros Hr. unfold norm_index, Sweep.axis_index.
  destruct (Z.leb_spec 0 axis) as [Hp|Hn]; simpl.
  - replace (axis <? Z.of_nat n) with true by (symmetry; apply Z.ltb_lt; lia).
    split; [done|lia].
  - replace (- Z.of_nat n <=? axis) with true
      by (symmetry; apply Z.leb_le; lia).
    replace (axis <? 0) with true by (symmetry; apply Z.ltb_lt; lia).
    split; [done|lia].
Qed.

Lemma offset_copy_valid (op : F32 -> Step -> F32) (beta : list F32)
    (axis : Z) (step : Step) :
  - Z.of_nat (length beta) <= axis < Z.of_nat (length beta) ->
  Sweep.offset_copy op beta axis step = Ok (Sweep.shifted op beta axis step).
Proof.
  intros Hr. unfold Sweep.offset_copy, Sweep.shifted.
  destruct (norm_index_valid _ _ Hr) as [-> Hlt].
  destruct (lookup_lt_is_Some_2 beta _ Hlt) as [x ->]. done.
Qed.

Lemma new_beta_same_length (start : list F64) :
  Sweep.new_beta start (Z.of_nat (length start)) = Ok (map f32_of start).
Proof.
  unfold Sweep.new_beta.
  replace (Z.of_nat (length start) <? 0) with false
    by (symmetry; apply Z.ltb_ge; lia).
  by rewrite Z.eqb_refl.
Qed.

Lemma makeBiasPolytope_valid (start : list F64) (axes : list Z)
    (steps : list Step) :
  Forall (fun axis =>
    - Z.of_nat (length start) <= axis < Z.of_nat (length start)) axes ->
  Sweep.makeBiasPolytope start axes (Z.of_nat (length start)) steps
  = Ok (Sweep.polytope (map f32_of start) axes steps).
Proof.
  intros Haxes. unfold Sweep.makeBiasPolytope.
  rewrite new_beta_same_length. set (beta := map f32_of start).
  unfold bind at 1. unfold Sweep.append at 1, modify. simpl.
  rewrite (for_each_extend axes _ (fun axis =>
    map (Sweep.shifted f32_add beta axis) steps
    ++ map (Sweep.shifted f32_sub beta axis) steps)); [done|].
  eapply Forall_impl; [exact Haxes|]. intros axis Hr s. simpl in Hr.
  assert (- Z.of_nat (length beta) <= axis < Z.of_nat (length beta)) as Hr'
    by (unfold beta; rewrite length_map; exact Hr).
  unfold bind at 1.
  rewrite (for_each_extend steps _ (fun step =>
    [Sweep.shifted f32_add beta axis step])).
  2:{ apply Forall_forall. intros step _ s'.
      unfold bind, lift. by rewrite offset_copy_valid. }
  rewrite (for_each_extend steps _ (fun step =>
    [Sweep.shifted f32_sub beta axis step])).
  2:{ apply Forall_forall. intros step _ s'.
      unfold bind, lift. by rewrite offset_copy_valid. }
  by rewrite <- app_assoc, !flat_map_singleton.
Qed.

Lemma polytope_length (beta : list F32) (axes : list Z) (steps : list Step) :
  length (Sweep.polytope beta axes steps)
  = (1 + 2 * length axes * length steps)%nat.
Proof.
  unfold Sweep.polytope. simpl. f_equal.
  induction axes as [|axis axes IH]; simpl; [done|].
  rewrite !length_app, !length_map, IH. lia.
Qed.

(** C3, amended. On a base vector of [nk] amplitudes and axes that are
    positions of it, [makeBiasPolytope] returns [1 + 2*len(axes)*len(steps)]
    vectors: the base vector first, then axis by axis, in the given order,
    the base vector with each step added along that axis only, then with
    each step subtracted along that axis only (axis-major, then plus before
    minus, then the steps). With at most one step this is the order of the
    specification, a plus and a minus perturbation for every step; with two
    axes and one step the vectors are base, axis0+step, axis0-step,
    axis1+step, axis1-step. *)
Theorem C3_bias_polytope_order_and_size
    (start_aberrations : list F64) (offset_axes : list Z) (nk : Z)
    (steps : list Step) :
  Z.of_nat (length start_aberrations) = nk ->
  Forall (fun axis => - nk <= axis < nk) offset_axes ->
  let beta := map f32_of start_aberrations in
  exists betas,
    Sweep.makeBiasPolytope start_aberrations offset_axes nk steps = Ok betas
    /\ length betas
       = (1 + 2 * length offset_axes * length steps)%nat
    /\ betas
       = beta :: flat_map (fun axis =>
                   map (Sweep.shifted f32_add beta axis) steps
                   ++ map (Sweep.shifted f32_sub beta axis) steps)
                 offset_axes
    /\ (forall axis step,
          axis ∈ offset_axes ->
          exists k x,
            k = Sweep.axis_index (length beta) axis
            /\ beta !! k = Some x
            /\ Sweep.shifted f32_add beta axis step !! k
               = Some (f32_add x step)
            /\ Sweep.shifted f32_sub beta axis step !! k
               = Some (f32_sub x step)
            /\ forall j, j <> k ->
                 Sweep.shifted f32_add beta axis step !! j = beta !! j
                 /\ Sweep.shifted f32_sub beta axis step !! j = beta !! j)
    /\ (forall axis0 axis1 step,
          offset_axes = [axis0; axis1] -> steps = [step] ->
          betas = [beta;
                   Sweep.shifted f32_add beta axis0 step;
                   Sweep.shifted f32_sub beta axis0 step;
                   Sweep.shifted f32_add beta axis1 step;
                   Sweep.shifted f32_sub beta axis1 step])
    /\ ((length steps <= 1)%nat ->
        betas = Sweep.polytope_as_specified beta offset_axes steps).
Proof.
  intros <- Haxes beta. exists (Sweep.polytope beta offset_axes steps).
  split; [by apply makeBiasPolytope_valid|].
  split; [apply polytope_length|]. split; [done|]. split.
  - intros axis step Hin. rewrite Forall_forall in Haxes.
    destruct (norm_index_valid (length beta) axis) as [_ Hlt].
    { unfold beta. rewrite length_map. by apply Haxes. }
    destruct (lookup_lt_is_Some_2 beta _ Hlt) as [x Hx].
    exists (Sweep.axis_index (length beta) axis), x.
    unfold Sweep.shifted. rewrite Hx.
    split; [done|]. split; [done|].
    split; [by apply list_lookup_insert_eq|].
    split; [by apply list_lookup_insert_eq|].
    intros j Hj. by rewrite !list_lookup_insert_ne.
  - split; [by intros axis0 axis1 step -> ->|].
    intros Hone. unfold Sweep.polytope, Sweep.polytope_as_specified.
    f_equal. clear Haxes.
    induction offset_axes as [|axis axes IH]; [done|].
    cbn [flat_map]. rewrite IH.
    by destruct steps as [|step [|step' steps]]; [..|simpl in Hone; lia].
Qed.

End PolytopeFacts.

(** ** The sweep generator: the area flags *)

Section FlagFacts.

Context `{Scalars}.

(** One pass through the body of the innermost loop either yields one item,
    flagged with the current [newarea], and clears [newarea], or raises and
    yields nothing. *)
Lemma sweep_step_cases (bias_modes : list Z) (prefix : string)
    (applied_abb : Z) (step : F64) (f : Sweep.frame) :
  match Sweep.sweep_step bias_modes prefix applied_abb step f with
  | (Ok _, f') =>
      exists bl,
        Sweep.yielded f'
        = Sweep.yielded f ++ [Sweep.mkItem bl prefix (Sweep.newarea f)]
        /\ Sweep.newarea f' = false
  | (Raise _, f') => Sweep.yielded f' = Sweep.yielded f
  end.
Proof.
  unfold Sweep.sweep_step, Sweep.set_start, Sweep.yield, Sweep.set_newarea.
  unfold bind, get, put, lift, modify.
  destruct (norm_index _ applied_abb) as [k|e]; simpl; [|done].
  destruct (Sweep.makeBiasPolytope _ _ _ _) as [bl|e]; simpl; [|done].
  by exists bl.
Qed.

Lemma flags_upto_nil (P : nat) : Sweep.flags_upto P [].
Proof. intros i it Hi. by rewrite lookup_nil in Hi. Qed.

Lemma flag_at_position (P a r : nat) :
  (r < P)%nat ->
  Sweep.flag_at P (a * P + r)
  = if (r =? 0)%nat then (0 <? a)%nat else false.
Proof.
  intros Hr. unfold Sweep.flag_at.
  replace ((a * P + r) mod P)%nat with r.
  2:{ rewrite Nat.add_comm, Nat.Div0.mod_add. symmetry.
      by apply Nat.mod_small. }
  destruct (Nat.eqb_spec r 0) as [->|Hne].
  - rewrite Nat.add_0_r, andb_true_r.
    destruct (Nat.ltb_spec 0 a) as [Ha|Ha].
    + apply Nat.ltb_lt. nia.
    + apply Nat.ltb_ge. nia.
  - apply andb_false_r.
Qed.

(** Yielding at a position inside an area leads to the next position. *)
Lemma at_position_yield (P a r : nat) (f f' : Sweep.frame)
    (bl : list (list F32)) (prefix : string) :
  (r < P)%nat ->
  Sweep.at_position P a r f ->
  Sweep.yielded f'
  = Sweep.yielded f ++ [Sweep.mkItem bl prefix (Sweep.newarea f)] ->
  Sweep.newarea f' = false ->
  Sweep.at_position P a (S r) f'.
Proof.
  intros Hr (Hlen & Hflags & Hnew) Hy Hn. split; [|split].
  - rewrite Hy, length_app, Hlen. simpl. lia.
  - rewrite Hy. intros i it Hi.
    apply lookup_app_Some in Hi as [Hi1|[Hge Hi2]]; [by apply Hflags|].
    rewrite Hlen in Hi2, Hge.
    destruct (i - (a * P + r))%nat as [|j] eqn:Hj; [|done].
    injection Hi2 as <-. simpl.
    replace i with (a * P + r)%nat by lia.
    by rewrite Hnew, flag_at_position.
  - by rewrite Hn.
Qed.

(** The loop over the steps of one applied mode. *)
Lemma steps_loop_flags (P a r0 : nat) (bias_modes : list Z)
    (prefix_of : F64 -> string) (applied_abb : Z) (steps : list F64)
    (f : Sweep.frame) :
  (r0 + length steps <= P)%nat ->
  Sweep.at_position P a r0 f ->
  match for_each steps (fun step =>
          Sweep.sweep_step bias_modes (prefix_of step) applied_abb step) f with
  | (Ok _, f') => Sweep.at_position P a (r0 + length steps) f'
  | (Raise _, f') => Sweep.flags_upto P (Sweep.yielded f')
  end.
Proof.
  intros Hfit Hf.
  apply (for_each_inv
    (fun l1 f' => Sweep.at_position P a (r0 + length l1) f')
    (fun f' => Sweep.flags_upto P (Sweep.yielded f'))).
  - simpl. by rewrite Nat.add_0_r.
  - intros l1 step l2 s Hsteps Hs.
    pose proof (sweep_step_cases bias_modes (prefix_of step) applied_abb
                  step s) as Hcase.
    destruct (Sweep.sweep_step _ _ _ _ s) as [[[]|e] s'].
    + destruct Hcase as (bl & Hy & Hn).
      rewrite length_app. simpl.
      replace (r0 + (length l1 + 1))%nat with (S (r0 + length l1)) by lia.
      eapply at_position_yield; [|exact Hs|exact Hy|exact Hn].
      rewrite Hsteps, length_app in Hfit. simpl in Hfit. lia.
    + rewrite Hcase. by destruct Hs as (_ & Hflags & _).
Qed.

(** The loops over the applied modes and their steps, in one area. *)
Lemma area_loops_flags (a : nat) (bias_modes applied_modes : list Z)
    (prefix_of : Z -> F64 -> string) (steps : list F64) (f : Sweep.frame) :
  let P := (length applied_modes * length steps)%nat in
  Sweep.at_position P a 0 f ->
  match for_each applied_modes (fun applied_abb =>
          for_each steps (fun step =>
            Sweep.sweep_step bias_modes (prefix_of applied_abb step)
              applied_abb step)) f with
  | (Ok _, f') => Sweep.at_position P a P f'
  | (Raise _, f') => Sweep.flags_upto P (Sweep.yielded f')
  end.
Proof.
  intros P Hf.
  apply (for_each_inv
    (fun l1 f' => Sweep.at_position P a (length l1 * length steps) f')
    (fun f' => Sweep.flags_upto P (Sweep.yielded f'))).
  - done.
  - intros l1 applied_abb l2 s Hmodes Hs.
    rewrite length_app. simpl.
    replace ((length l1 + 1) * length steps)%nat
      with (length l1 * length steps + length steps)%nat by lia.
    apply steps_loop_flags; [|done].
    unfold P. rewrite Hmodes, length_app. simpl. lia.
Qed.

(** After an area the position is the start of the next one, up to the
    flag [newarea]. *)
Lemma at_position_next_area (P a : nat) (f : Sweep.frame) :
  Sweep.at_position P a P f ->
  length (Sweep.yielded f) = (S a * P)%nat
  /\ Sweep.flags_upto P (Sweep.yielded f).
Proof. intros (Hlen & Hflags & _). split; [lia|done]. Qed.

Lemma range_split (areas : Z) (l1 l2 : list Z) (area : Z) :
  Sweep.range areas = l1 ++ area :: l2 -> area = Z.of_nat (length l1).
Proof.
  unfold Sweep.range. intros Hr.
  assert ((map Z.of_nat (seq 0 (Z.to_nat areas))) !! length l1 = Some area)
    as Hl.
  { rewrite Hr. by rewrite list_lookup_middle. }
  rewrite list_lookup_fmap in Hl.
  destruct (seq 0 (Z.to_nat areas) !! length l1) as [k|] eqn:Hk; [|done].
  apply lookup_seq in Hk as [-> _]. simpl in Hl. congruence.
Qed.

Lemma loops_DC_flags (bias_modes applied_modes : list Z)
    (steps : list F64) (areas : Z) (f : Sweep.frame) :
  let P := (length applied_modes * length steps)%nat in
  Sweep.at_position P 0 0 f ->
  match Sweep.loops_DC bias_modes applied_modes steps areas f with
  | (_, f') => Sweep.flags_upto P (Sweep.yielded f')
  end.
Proof.
  intros P Hf. unfold Sweep.loops_DC.
  pose proof (for_each_inv
    (fun l1 f' => Sweep.at_position P (length l1) 0 f')
    (fun f' => Sweep.flags_upto P (Sweep.yielded f'))
    (Sweep.range areas)
    (fun area =>
       bind (for_each applied_modes (fun applied_abb =>
               for_each steps (fun step =>
                 Sweep.sweep_step bias_modes
                   (Sweep.fprefix_DC area applied_abb step)
                   applied_abb step)))
            (fun _ => Sweep.set_newarea true)) f Hf) as Hinv.
  match type of Hinv with ?A -> _ => assert A as Hstep end.
  { intros l1 area l2 s _ Hs. unfold bind.
    pose proof (area_loops_flags (length l1) bias_modes applied_modes
                  (Sweep.fprefix_DC area) steps s Hs) as Harea.
    simpl in Harea.
    destruct (for_each applied_modes _ s) as [[[]|e] s']; [|done].
    apply at_position_next_area in Harea as [Hlen Hflags].
    unfold Sweep.set_newarea, modify. rewrite length_app. simpl.
    split; [|split]; simpl; [lia|done|].
    symmetry. apply Nat.ltb_lt. lia. }
  specialize (Hinv Hstep).
  destruct (for_each (Sweep.range areas) _ f) as [[[]|e] f']; [|done].
  by destruct Hinv as (_ & Hflags & _).
Qed.

Lemma loops_HWAT_flags (bias_modes applied_modes : list Z)
    (steps : list F64) (areas : Z) (f : Sweep.frame) :
  let P := (length applied_modes * length steps)%nat in
  Sweep.at_position P 0 0 f ->
  match Sweep.loops_HWAT bias_modes applied_modes steps areas f with
  | (_, f') => Sweep.flags_upto P (Sweep.yielded f')
  end.
Proof.
  intros P Hf. unfold Sweep.loops_HWAT.
  pose proof (for_each_inv
    (fun l1 f' =>
       length (Sweep.yielded f') = (length l1 * P)%nat
       /\ Sweep.flags_upto P (Sweep.yielded f')
       /\ (length l1 = 0%nat -> Sweep.newarea f' = false))
    (fun f' => Sweep.flags_upto P (Sweep.yielded f'))
    (Sweep.range areas)
    (fun area =>
       bind (if area =? 0 then ret tt else Sweep.set_newarea true)
            (fun _ =>
               for_each applied_modes (fun applied_abb =>
                 for_each steps (fun step =>
                   Sweep.sweep_step bias_modes
                     (Sweep.fprefix_HWAT areas area applied_abb step)
                     applied_abb step)))) f) as Hinv.
  match type of Hinv with ?A -> ?B -> _ =>
    assert A as H0; [|assert B as Hstep] end.
  { destruct Hf as (Hlen & Hflags & Hnew). simpl in *. 
    split; [lia|]. split; [done|]. intros _. exact Hnew. }
  { intros l1 area l2 s Hr (Hlen & Hflags & Hnew).
    apply range_split in Hr as ->. unfold bind.
    assert (exists s0,
      (if Z.of_nat (length l1) =? 0 then ret tt else Sweep.set_newarea true) s
      = (Ok tt, s0) /\ Sweep.at_position P (length l1) 0 s0) as (s0 & -> & Hs0).
    { destruct (length l1) as [|k] eqn:Hk.
      - exists s. split; [done|]. split; [simpl; lia|]. split; [done|].
        simpl. by apply Hnew.
      - exists (Sweep.mkFrame (Sweep.start_aberrations s) true
                  (Sweep.yielded s)).
        split; [done|]. split; [simpl; lia|]. split; [done|]. done. }
    pose proof (area_loops_flags (length l1) bias_modes applied_modes
                  (Sweep.fprefix_HWAT areas (Z.of_nat (length l1))) steps s0
                  Hs0) as Harea.
    simpl in Harea.
    destruct (for_each applied_modes _ s0) as [[[]|e] s']; [|done].
    apply at_position_next_area in Harea as [Hlen' Hflags'].
    rewrite length_app. simpl.
    split; [|split]; [lia|done|lia]. }
  specialize (Hinv H0 Hstep).
  destruct (for_each (Sweep.range areas) _ f) as [[[]|e] f']; [|done].
  by destruct Hinv as (_ & Hflags & _).
Qed.

Lemma run_generator_flags (P : nat) (loops : M Sweep.frame unit)
    (bias_modes applied_modes : list Z) :
  (forall f, Sweep.at_position P 0 0 f ->
     match loops f with (_, f') => Sweep.flags_upto P (Sweep.yielded f') end) ->
  Sweep.flags_upto P
    (Sweep.pending (Sweep.run_generator loops bias_modes applied_modes)).
Proof.
  intros Hloops. unfold Sweep.run_generator.
  destruct (Sweep.init_frame bias_modes applied_modes) as [f0|e] eqn:Hinit;
    [|apply flags_upto_nil].
  assert (Sweep.at_position P 0 0 f0) as Hf0.
  { unfold Sweep.init_frame in Hinit.
    destruct (Sweep.np_max bias_modes); [|done].
    destruct (Sweep.np_max applied_modes); [|done].
    destruct (Sweep.np_zeros _); [|done].
    injection Hinit as <-. split; [done|]. split; [apply flags_upto_nil|done]. }
  specialize (Hloops f0 Hf0).
  by destruct (loops f0) as [[[]|e] f'].
Qed.

(** Whatever the arguments, and whether or not the generator ends by
    raising, the items it yields carry the flags of a sweep. *)
Lemma generateAbb_flags (bias_modes applied_modes : list Z)
    (steps : list F64) (areas : Z) :
  let P := (length applied_modes * length steps)%nat in
  Sweep.flags_upto P
    (Sweep.pending (Sweep.generateAbb_DC bias_modes applied_modes steps areas))
  /\ Sweep.flags_upto P
    (Sweep.pending
       (Sweep.generateAbb_HWAT bias_modes applied_modes steps areas)).
Proof.
  intros P. split; apply run_generator_flags; intros f Hf.
  - by apply loops_DC_flags.
  - by apply loops_HWAT_flags.
Qed.

End FlagFacts.

(** ** The sweep generator on valid modes: what is yielded *)

Section YieldFacts.

Context `{Scalars}.

Lemma fold_max_ge (l : list Z) (x : Z) :
  x <= fold_left Z.max l x /\ Forall (fun y => y <= fold_left Z.max l x) l.
Proof.
  revert x; induction l as [|y l IH]; intros x; simpl; [split; [lia|done]|].
  destruct (IH (Z.max x y)) as [Hx Hl]. split; [lia|].
  constructor; [lia|done].
Qed.

Lemma np_max_ge (l : list Z) :
  l <> [] ->
  exists mx, Sweep.np_max l = Ok mx /\ Forall (fun y => y <= mx) l.
Proof.
  destruct l as [|x l]; [done|]. intros _. eexists. split; [done|].
  destruct (fold_max_ge l x). by constructor.
Qed.

(** On valid modes the generator starts on a zero vector long enough for
    every mode. *)
Lemma init_frame_valid (bias_modes applied_modes : list Z) :
  Sweep.valid_modes bias_modes applied_modes ->
  exists n,
    Sweep.init_frame bias_modes applied_modes
    = Ok (Sweep.mkFrame (replicate n zero64) false [])
    /\ Forall (fun m => 0 <= m < Z.of_nat n) bias_modes
    /\ Forall (fun m => 0 <= m < Z.of_nat n) applied_modes.
Proof.
  intros (Hb & Ha & Hbpos & Hapos). unfold Sweep.init_frame.
  destruct (np_max_ge _ Hb) as (mb & -> & Hmb).
  destruct (np_max_ge _ Ha) as (ma & -> & Hma).
  assert (0 <= mb).
  { destruct bias_modes as [|x l]; [done|].
    apply Forall_cons in Hbpos as [? _]. apply Forall_cons in Hmb as [? _].
    lia. }
  unfold Sweep.np_zeros.
  replace (Z.max mb ma + 1 <? 0) with false by (symmetry; apply Z.ltb_ge; lia).
  exists (Z.to_nat (Z.max mb ma + 1)). split; [done|].
  split; apply Forall_forall; intros m Hm.
  - rewrite Forall_forall in Hbpos, Hmb.
    specialize (Hbpos m Hm). specialize (Hmb m Hm). simpl in *. lia.
  - rewrite Forall_forall in Hapos, Hma.
    specialize (Hapos m Hm). specialize (Hma m Hm). simpl in *. lia.
Qed.

Lemma norm_index_nonneg (n : nat) (m : Z) :
  0 <= m < Z.of_nat n -> norm_index n m = Ok (Z.to_nat m).
Proof.
  intros Hm. unfold norm_index.
  replace (0 <=? m) with true by (symmetry; apply Z.leb_le; lia).
  by replace (m <? Z.of_nat n) with true by (symmetry; apply Z.ltb_lt; lia).
Qed.

(** On valid modes the body of the innermost loop never raises. *)
Lemma sweep_step_valid (n : nat) (bias_modes : list Z) (prefix : string)
    (applied_abb : Z) (step : F64) (f : Sweep.frame) :
  length (Sweep.start_aberrations f) = n ->
  0 <= applied_abb < Z.of_nat n ->
  Forall (fun m => 0 <= m < Z.of_nat n) bias_modes ->
  let sa := <[Z.to_nat applied_abb := step]> (Sweep.start_aberrations f) in
  Sweep.sweep_step bias_modes prefix applied_abb step f
  = (Ok tt,
     Sweep.mkFrame sa false
       (Sweep.yielded f
        ++ [Sweep.mkItem (Sweep.polytope (map f32_of sa) bias_modes [one])
              prefix (Sweep.newarea f)])).
Proof.
  intros Hlen Hm Hbias sa.
  unfold Sweep.sweep_step, Sweep.set_start, Sweep.yield, Sweep.set_newarea.
  unfold bind, get, put, lift, modify.
  rewrite Hlen, (norm_index_nonneg _ _ Hm). simpl. fold sa.
  rewrite makeBiasPolytope_valid; [done|].
  unfold sa. rewrite length_insert, Hlen.
  eapply Forall_impl; [exact Hbias|]. simpl; intros; lia.
Qed.

Section OneSweep.

Variable prefix_of : Z -> Z -> F64 -> string.
Variables (bias_modes : list Z) (n : nat).
Hypothesis bias_valid : Forall (fun m => 0 <= m < Z.of_nat n) bias_modes.

Lemma gone_through_step (ts : list (Z * Z * F64)) (area applied_abb : Z)
    (step : F64) (f : Sweep.frame) :
  0 <= applied_abb < Z.of_nat n ->
  Sweep.gone_through prefix_of bias_modes n ts f ->
  exists f',
    Sweep.sweep_step bias_modes (prefix_of area applied_abb step)
      applied_abb step f = (Ok tt, f')
    /\ Sweep.gone_through prefix_of bias_modes n
         (ts ++ [(area, applied_abb, step)]) f'.
Proof.
  intros Hm [Hlen Hts]. eexists. split.
  - by apply (sweep_step_valid n).
  - split; simpl; [by rewrite length_insert|].
    apply Forall2_app; [done|]. constructor; [|constructor].
    split; [done|]. eexists. split; [|done].
    apply list_lookup_insert_eq. lia.
Qed.

Lemma steps_loop_yields (ts : list (Z * Z * F64)) (area applied_abb : Z)
    (steps : list F64) (f : Sweep.frame) :
  0 <= applied_abb < Z.of_nat n ->
  Sweep.gone_through prefix_of bias_modes n ts f ->
  match for_each steps (fun step =>
          Sweep.sweep_step bias_modes (prefix_of area applied_abb step)
            applied_abb step) f with
  | (Ok _, f') =>
      Sweep.gone_through prefix_of bias_modes n
        (ts ++ map (fun step => (area, applied_abb, step)) steps) f'
  | (Raise _, _) => False
  end.
Proof.
  intros Hm Hf.
  apply (for_each_inv
    (fun l1 f' =>
       Sweep.gone_through prefix_of bias_modes n
         (ts ++ map (fun step => (area, applied_abb, step)) l1) f')
    (fun _ => False)).
  - simpl. by rewrite app_nil_r.
  - intros l1 step l2 s _ Hs.
    destruct (gone_through_step _ area applied_abb step s Hm Hs)
      as (f' & -> & Hf').
    by rewrite map_app, app_assoc.
Qed.

Lemma area_loops_yield (ts : list (Z * Z * F64)) (area : Z)
    (applied_modes : list Z) (steps : list F64) (f : Sweep.frame) :
  Forall (fun m => 0 <= m < Z.of_nat n) applied_modes ->
  Sweep.gone_through prefix_of bias_modes n ts f ->
  match for_each applied_modes (fun applied_abb =>
          for_each steps (fun step =>
            Sweep.sweep_step bias_modes (prefix_of area applied_abb step)
              applied_abb step)) f with
  | (Ok _, f') =>
      Sweep.gone_through prefix_of bias_modes n
        (ts ++ flat_map (fun applied_abb =>
                 map (fun step => (area, applied_abb, step)) steps)
               applied_modes) f'
  | (Raise _, _) => False
  end.
Proof.
  intros Hmodes Hf.
  apply (for_each_inv
    (fun l1 f' =>
       Sweep.gone_through prefix_of bias_modes n
         (ts ++ flat_map (fun applied_abb =>
                  map (fun step => (area, applied_abb, step)) steps) l1) f')
    (fun _ => False)).
  - simpl. by rewrite app_nil_r.
  - intros l1 applied_abb l2 s Hl Hs.
    assert (0 <= applied_abb < Z.of_nat n) as Hm.
    { rewrite Forall_forall in Hmodes. apply Hmodes.
      rewrite Hl. apply elem_of_app. right. by left. }
    pose proof (steps_loop_yields _ area applied_abb steps s Hm Hs) as Hloop.
    destruct (for_each steps _ s) as [[[]|e] s']; [|done].
    rewrite flat_map_app. simpl. by rewrite app_nil_r, app_assoc.
Qed.

End OneSweep.

Lemma gone_through_newarea prefix_of bias_modes n ts (f : Sweep.frame) b :
  Sweep.gone_through prefix_of bias_modes n ts f ->
  Sweep.gone_through prefix_of bias_modes n ts
    (Sweep.mkFrame (Sweep.start_aberrations f) b (Sweep.yielded f)).
Proof. by intros [? ?]. Qed.

Lemma loops_DC_yield (bias_modes applied_modes : list Z) (n : nat)
    (steps : list F64) (areas : Z) (f : Sweep.frame) :
  Forall (fun m => 0 <= m < Z.of_nat n) bias_modes ->
  Forall (fun m => 0 <= m < Z.of_nat n) applied_modes ->
  Sweep.gone_through Sweep.fprefix_DC bias_modes n [] f ->
  exists f',
    Sweep.loops_DC bias_modes applied_modes steps areas f = (Ok tt, f')
    /\ Sweep.gone_through Sweep.fprefix_DC bias_modes n
         (Sweep.sweep_triples areas applied_modes steps) f'.
Proof.
  intros Hbias Hmodes Hf. unfold Sweep.loops_DC, Sweep.sweep_triples.
  pose proof (for_each_inv
    (fun l1 f' =>
       Sweep.gone_through Sweep.fprefix_DC bias_modes n
         (flat_map (fun area =>
            flat_map (fun applied_abb =>
              map (fun step => (area, applied_abb, step)) steps)
              applied_modes) l1) f')
    (fun _ => False)
    (Sweep.range areas)
    (fun area =>
       bind (for_each applied_modes (fun applied_abb =>
               for_each steps (fun step =>
                 Sweep.sweep_step bias_modes
                   (Sweep.fprefix_DC area applied_abb step)
                   applied_abb step)))
            (fun _ => Sweep.set_newarea true)) f Hf) as Hinv.
  match type of Hinv with ?A -> _ => assert A as Hstep end.
  { intros l1 area l2 s _ Hs. unfold bind.
    pose proof (area_loops_yield Sweep.fprefix_DC bias_modes n Hbias _ area
                  applied_modes steps s Hmodes Hs) as Harea.
    destruct (for_each applied_modes _ s) as [[[]|e] s']; [|done].
    rewrite flat_map_app. simpl. rewrite app_nil_r.
    by apply gone_through_newarea. }
  specialize (Hinv Hstep).
  destruct (for_each (Sweep.range areas) _ f) as [[[]|e] f']; [|done].
  by exists f'.
Qed.

Lemma loops_HWAT_yield (bias_modes applied_modes : list Z) (n : nat)
    (steps : list F64) (areas : Z) (f : Sweep.frame) :
  Forall (fun m => 0 <= m < Z.of_nat n) bias_modes ->
  Forall (fun m => 0 <= m < Z.of_nat n) applied_modes ->
  Sweep.gone_through (Sweep.fprefix_HWAT areas) bias_modes n [] f ->
  exists f',
    Sweep.loops_HWAT bias_modes applied_modes steps areas f = (Ok tt, f')
    /\ Sweep.gone_through (Sweep.fprefix_HWAT areas) bias_modes n
         (Sweep.sweep_triples areas applied_modes steps) f'.
Proof.
  intros Hbias Hmodes Hf. unfold Sweep.loops_HWAT, Sweep.sweep_triples.
  pose proof (for_each_inv
    (fun l1 f' =>
       Sweep.gone_through (Sweep.fprefix_HWAT areas) bias_modes n
         (flat_map (fun area =>
            flat_map (fun applied_abb =>
              map (fun step => (area, applied_abb, step)) steps)
              applied_modes) l1) f')
    (fun _ => False)
    (Sweep.range areas)
    (fun area =>
       bind (if area =? 0 then ret tt else Sweep.set_newarea true)
            (fun _ =>
               for_each applied_modes (fun applied_abb =>
                 for_each steps (fun step =>
                   Sweep.sweep_step bias_modes
                     (Sweep.fprefix_HWAT areas area applied_abb step)
                     applied_abb step)))) f Hf) as Hinv.
  match type of Hinv with ?A -> _ => assert A as Hstep end.
  { intros l1 area l2 s _ Hs. unfold bind.
    assert (exists s0,
      (if area =? 0 then ret tt else Sweep.set_newarea true) s = (Ok tt, s0)
      /\ Sweep.gone_through (Sweep.fprefix_HWAT areas) bias_modes n
           (flat_map (fun area =>
              flat_map (fun applied_abb =>
                map (fun step => (area, applied_abb, step)) steps)
                applied_modes) l1) s0) as (s0 & -> & Hs0).
    { destruct (area =? 0); eexists; (split; [done|]); [done|].
      by apply gone_through_newarea. }
    pose proof (area_loops_yield (Sweep.fprefix_HWAT areas) bias_modes n
                  Hbias _ area applied_modes steps s0 Hmodes Hs0) as Harea.
    destruct (for_each applied_modes _ s0) as [[[]|e] s']; [|done].
    rewrite flat_map_app. simpl. by rewrite app_nil_r. }
  specialize (Hinv Hstep).
  destruct (for_each (Sweep.range areas) _ f) as [[[]|e] f']; [|done].
  by exists f'.
Qed.

(** On valid modes both generators end without raising, and yield one item
    for each triple of the sweep, in order. *)
Lemma generateAbb_valid (bias_modes applied_modes : list Z)
    (steps : list F64) (areas : Z) :
  Sweep.valid_modes bias_modes applied_modes ->
  let ts := Sweep.sweep_triples areas applied_modes steps in
  let g_dc := Sweep.generateAbb_DC bias_modes applied_modes steps areas in
  let g_at := Sweep.generateAbb_HWAT bias_modes applied_modes steps areas in
  (Sweep.failure g_dc = None
   /\ Forall2 (Sweep.yields_at Sweep.fprefix_DC bias_modes) ts
        (Sweep.pending g_dc))
  /\ (Sweep.failure g_at = None
      /\ Forall2 (Sweep.yields_at (Sweep.fprefix_HWAT areas) bias_modes) ts
           (Sweep.pending g_at)).
Proof.
  intros Hvalid ts g_dc g_at.
  destruct (init_frame_valid _ _ Hvalid) as (n & Hinit & Hbias & Hmodes).
  assert (forall prefix_of,
    Sweep.gone_through prefix_of bias_modes n []
      (Sweep.mkFrame (replicate n zero64) false [])) as Hf0.
  { intros prefix_of. split; simpl; [apply length_replicate|constructor]. }
  split.
  - destruct (loops_DC_yield bias_modes applied_modes n steps areas _
                Hbias Hmodes (Hf0 _)) as (f' & Hrun & _ & Hts).
    unfold g_dc, Sweep.generateAbb_DC, Sweep.run_generator.
    by rewrite Hinit, Hrun.
  - destruct (loops_HWAT_yield bias_modes applied_modes n steps areas _
                Hbias Hmodes (Hf0 _)) as (f' & Hrun & _ & Hts).
    unfold g_at, Sweep.generateAbb_HWAT, Sweep.run_generator.
    by rewrite Hinit, Hrun.
Qed.

Lemma sweep_triples_length (areas : Z) (applied_modes : list Z)
    (steps : list F64) :
  length (Sweep.sweep_triples areas applied_modes steps)
  = (Z.to_nat areas * (length applied_modes * length steps))%nat.
Proof.
  unfold Sweep.sweep_triples, Sweep.range.
  assert (forall area : Z,
    length (flat_map (fun applied_abb =>
              map (fun step : F64 => (area, applied_abb, step)) steps)
              applied_modes)
    = (length applied_modes * length steps)%nat) as Harea.
  { intros area. induction applied_modes as [|m l IH]; simpl; [done|].
    by rewrite length_app, length_map, IH. }
  generalize 0%nat.
  induction (Z.to_nat areas) as [|k IH]; intros start; simpl; [done|].
  by rewrite length_app, Harea, IH.
Qed.

End YieldFacts.

(** ** The sweep generator: the claims *)

Section SweepClaims.

Context `{Scalars}.

Lemma flag_at_true (P i : nat) :
  Sweep.flag_at P i = true <-> (0 < i)%nat /\ (i mod P = 0)%nat.
Proof.
  unfold Sweep.flag_at.
  by rewrite andb_true_iff, Nat.ltb_lt, Nat.eqb_eq.
Qed.

(** C6. In a sweep over at least one area, with applied modes and applied
    steps, both generators flag an item as a new area exactly when it is the
    first item of an area other than the first: the flag of the item at
    position [i] is set if and only if [i] is positive and a multiple of the
    number of items of an area. In particular the very first item is not
    flagged. On valid modes the generators yield an item for every area,
    applied mode and step, so every later area has its flagged item. *)
Theorem C6_new_area_on_first_item_of_later_areas
    (bias_modes applied_modes : list Z) (applied_steps : list F64)
    (areas : Z) (g : Sweep.generator) :
  1 <= areas -> applied_modes <> [] -> applied_steps <> [] ->
  g = Sweep.generateAbb_DC bias_modes applied_modes applied_steps areas
  \/ g = Sweep.generateAbb_HWAT bias_modes applied_modes applied_steps areas ->
  let per_area := (length applied_modes * length applied_steps)%nat in
  (0 < per_area)%nat
  /\ (forall i it, Sweep.pending g !! i = Some it ->
        (Sweep.is_newarea it = true
         <-> (0 < i)%nat /\ (i mod per_area = 0)%nat))
  /\ (forall it, Sweep.pending g !! 0%nat = Some it ->
        Sweep.is_newarea it = false)
  /\ (Sweep.valid_modes bias_modes applied_modes ->
        Sweep.failure g = None
        /\ length (Sweep.pending g) = (Z.to_nat areas * per_area)%nat).
Proof.
  intros Hareas Hmodes Hsteps Hg per_area.
  assert (Sweep.flags_upto per_area (Sweep.pending g)) as Hflags.
  { destruct (generateAbb_flags bias_modes applied_modes applied_steps areas)
      as [Hdc Hat]. by destruct Hg as [-> | ->]. }
  split; [|split; [|split]].
  - destruct applied_modes, applied_steps; try done. unfold per_area.
    simpl. lia.
  - intros i it Hi. rewrite (Hflags i it Hi). apply flag_at_true.
  - intros it Hi. by rewrite (Hflags _ it Hi).
  - intros Hvalid.
    destruct (generateAbb_valid bias_modes applied_modes applied_steps areas
                Hvalid) as [[Hf1 Hy1] [Hf2 Hy2]].
    unfold per_area. rewrite <- sweep_triples_length.
    destruct Hg as [-> | ->]; (split; [done|]); symmetry;
      eapply Forall2_length; eassumption.
Qed.

(** *** File prefixes *)

Lemma append_split_at (c : ascii) (s1 s2 r1 r2 : string) :
  free_of c s1 -> free_of c s2 ->
  s1 +:+ String c r1 = s2 +:+ String c r2 -> s1 = s2 /\ r1 = r2.
Proof.
  revert s2; induction s1 as [|a s1 IH]; intros [|b s2]; simpl.
  - intros _ _ [= ->]. done.
  - intros _ [Hb _] [= -> _]. done.
  - intros [Ha _] _ [= -> _]. done.
  - intros [_ H1] [_ H2] [= -> Heq].
    destruct (IH _ H1 H2 Heq) as [-> ->]. done.
Qed.

Lemma append_inj_last (c : ascii) (s1 s2 : string) :
  s1 +:+ String c "" = s2 +:+ String c "" -> s1 = s2.
Proof.
  revert s2; induction s1 as [|a s1 IH]; intros [|b s2]; simpl.
  - done.
  - intros [= _ Heq]. by destruct s2.
  - intros [= _ Heq]. by destruct s1.
  - intros [= -> Heq]. by rewrite (IH _ Heq).
Qed.

Lemma pretty_N_go_free (c : ascii) (x : N) (s : string) :
  (forall d, pretty_N_char d <> c) -> free_of c s ->
  free_of c (pretty_N_go x s).
Proof.
  intros Hc. revert s.
  induction (N.lt_wf_0 x) as [x _ IH]; intros s Hs.
  destruct (decide (x = 0)%N) as [->|Hx]; [by rewrite pretty_N_go_0|].
  rewrite pretty_N_go_step by lia.
  apply IH; [apply N.div_lt; lia|]. split; [apply Hc|done].
Qed.

Lemma pretty_Z_free (c : ascii) (z : Z) :
  c <> "-"%char -> (forall d, pretty_N_char d <> c) ->
  free_of c (pretty z).
Proof.
  intros Hdash Hc.
  assert (forall n : N, free_of c (pretty n)) as HN.
  { intros n. unfold pretty, pretty_N. destruct (decide (n = 0)%N).
    - split; [apply (Hc 0%N)|done].
    - by apply pretty_N_go_free. }
  destruct z as [|p|p]; unfold pretty, pretty_Z.
  - split; [apply (Hc 0%N)|done].
  - apply HN.
  - split; [congruence|apply HN].
Qed.

Lemma pretty_Z_free_A (z : Z) : free_of "A" (pretty z).
Proof.
  apply pretty_Z_free; [done|]. intros d. unfold pretty_N_char.
  by repeat case_match.
Qed.

Lemma pretty_Z_free_S (z : Z) : free_of "S" (pretty z).
Proof.
  apply pretty_Z_free; [done|]. intros d. unfold pretty_N_char.
  by repeat case_match.
Qed.

(** Two prefixes are the same text exactly when area and mode are the same
    and the steps have the same text. *)
Lemma fprefix_DC_eq (a1 m1 a2 m2 : Z) (s1 s2 : F64) :
  Sweep.fprefix_DC a1 m1 s1 = Sweep.fprefix_DC a2 m2 s2
  <-> a1 = a2 /\ m1 = m2 /\ fmt1 s1 = fmt1 s2.
Proof.
  split; [|intros (-> & -> & Hf); unfold Sweep.fprefix_DC; by rewrite Hf].
  unfold Sweep.fprefix_DC. simpl. intros [= Heq].
  apply append_split_at in Heq as [Ha Heq]; [|apply pretty_Z_free_A..].
  apply append_split_at in Heq as [Hm Heq]; [|apply pretty_Z_free_S..].
  apply append_inj_last in Heq.
  split; [by apply (inj pretty)|]. split; [by apply (inj pretty)|done].
Qed.

Lemma fprefix_HWAT_eq (areas a1 m1 a2 m2 : Z) (s1 s2 : F64) :
  Sweep.fprefix_HWAT areas a1 m1 s1 = Sweep.fprefix_HWAT areas a2 m2 s2
  <-> a1 = a2 /\ m1 = m2 /\ fmt1 s1 = fmt1 s2.
Proof.
  split; [|intros (-> & -> & Hf); unfold Sweep.fprefix_HWAT; by rewrite Hf].
  unfold Sweep.fprefix_HWAT. simpl. intros [= Heq].
  apply append_split_at in Heq as [_ Heq]; [|apply pretty_Z_free_A..].
  apply append_split_at in Heq as [Ha Heq]; [|apply pretty_Z_free_A..].
  apply append_split_at in Heq as [Hm Heq]; [|apply pretty_Z_free_S..].
  apply append_inj_last in Heq.
  split; [by apply (inj pretty)|]. split; [by apply (inj pretty)|done].
Qed.

(** C9, as amended. In one sweep on valid modes, the prefixes of the items
    yielded at two triples are the same exactly when the triples have the
    same area, the same applied mode and steps with the same one-decimal
    text; so the prefixes differ whenever the areas differ, the applied
    modes differ, or the steps differ in their one-decimal text. *)
Theorem C9_prefixes_differ_up_to_step_text
    (bias_modes applied_modes : list Z) (applied_steps : list F64)
    (areas : Z) (g : Sweep.generator)
    (i j : nat) (a1 m1 a2 m2 : Z) (s1 s2 : F64) (it1 it2 : Sweep.item) :
  Sweep.valid_modes bias_modes applied_modes ->
  g = Sweep.generateAbb_DC bias_modes applied_modes applied_steps areas
  \/ g = Sweep.generateAbb_HWAT bias_modes applied_modes applied_steps areas ->
  Sweep.sweep_triples areas applied_modes applied_steps !! i
    = Some (a1, m1, s1) ->
  Sweep.sweep_triples areas applied_modes applied_steps !! j
    = Some (a2, m2, s2) ->
  Sweep.pending g !! i = Some it1 ->
  Sweep.pending g !! j = Some it2 ->
  (Sweep.fprefix it1 = Sweep.fprefix it2
   <-> a1 = a2 /\ m1 = m2 /\ fmt1 s1 = fmt1 s2)
  /\ (a1 <> a2 \/ m1 <> m2 \/ fmt1 s1 <> fmt1 s2 ->
      Sweep.fprefix it1 <> Sweep.fprefix it2).
Proof.
  intros Hvalid Hg Hti Htj Hi Hj.
  destruct (generateAbb_valid bias_modes applied_modes applied_steps areas
              Hvalid) as [[_ Hdc] [_ Hat]].
  assert (Sweep.fprefix it1 = Sweep.fprefix it2
          <-> a1 = a2 /\ m1 = m2 /\ fmt1 s1 = fmt1 s2) as Hiff.
  { destruct Hg as [-> | ->].
    - pose proof (Forall2_lookup_lr _ _ _ _ _ _ Hdc Hti Hi) as [-> _].
      pose proof (Forall2_lookup_lr _ _ _ _ _ _ Hdc Htj Hj) as [-> _].
      apply fprefix_DC_eq.
    - pose proof (Forall2_lookup_lr _ _ _ _ _ _ Hat Hti Hi) as [-> _].
      pose proof (Forall2_lookup_lr _ _ _ _ _ _ Hat Htj Hj) as [-> _].
      apply fprefix_HWAT_eq. }
  split; [exact Hiff|]. intros Hdiff Heq.
  apply Hiff in Heq as (? & ? & ?). tauto.
Qed.

End SweepClaims.

(** ** One repetition *)

Section RepFacts.

Context `{Scalars} {Image : Type}.

Abbreviation state := (@Rep.state _ Image).
Abbreviation Hardware := (@Rep.Hardware Image).
Abbreviation event := (@Rep.event _ Image).

(** The loop of [executeRep], run from any state. *)
Lemma capture_loop_run (hw : Hardware) (ibl : list (nat * list F32))
    (s : state) :
  for_each ibl (fun '(i, abb) =>
    bind (try_except (Rep.set_phase hw i abb) (Rep.set_dm_set_failure true))
      (fun _ =>
         bind (Rep.take_image hw i) (fun result =>
           match result with
           | Some image =>
               bind get (fun s => Rep.set_imlist (Rep.imlist s ++ [image]))
           | None => raise TimeoutError
           end))) s
  = (if Rep.loop_timed_out hw ibl then Raise TimeoutError else Ok tt,
     Rep.mkState (Rep.abb_generator s)
       (Rep.events s ++ Rep.loop_events hw ibl)
       (Rep.imlist s ++ Rep.loop_images hw ibl)
       (Rep.dm_set_failure s || Rep.loop_failure hw ibl)).
Proof.
  revert s; induction ibl as [|[i abb] ibl IH]; intros s; simpl.
  - rewrite !app_nil_r, orb_false_r. by destruct s.
  - unfold bind at 1 2 3. unfold try_except, Rep.set_phase, Rep.take_image.
    unfold bind at 2 3. unfold Rep.emit, Rep.set_dm_set_failure, modify.
    unfold raise, ret, get, Rep.set_imlist, modify.
    destruct (Rep.set_phase_raises hw i); simpl;
      (destruct (Rep.capture hw i) as [image|]; simpl;
       [rewrite IH; simpl; rewrite <- !app_assoc; simpl;
        rewrite ?orb_true_r, ?orb_false_r, ?orb_true_l; done
       |rewrite <- !app_assoc, ?app_nil_r, ?orb_true_r, ?orb_false_r; done]).
Qed.

(** One repetition from a generator that has an item left. *)
Lemma executeRep_run (numReps : Z) (saveBasePath : string) (hw : Hardware)
    (repNum : Z) (s : state) (it : Sweep.item) (rest : list Sweep.item) :
  Sweep.pending (Rep.abb_generator s) = it :: rest ->
  let ibl := Rep.enumerate (Sweep.biaslist it) in
  let g := Sweep.mkGenerator rest (Sweep.failure (Rep.abb_generator s)) in
  let started := Rep.Print (Rep.Started_rep repNum numReps) in
  Rep.executeRep numReps saveBasePath hw repNum s
  = if Rep.loop_timed_out hw ibl
    then (Raise TimeoutError,
          Rep.mkState g
            (Rep.events s ++ started :: Rep.loop_events hw ibl)
            (Rep.loop_images hw ibl) (Rep.loop_failure hw ibl))
    else (Ok tt,
          Rep.mkState g
            (Rep.events s ++ started :: Rep.loop_events hw ibl
             ++ Rep.closing_events numReps saveBasePath hw repNum it
                  (Rep.loop_images hw ibl) (Rep.loop_failure hw ibl))
            (Rep.loop_images hw ibl) (Rep.loop_failure hw ibl)).
Proof.
  intros Hpending ibl g started. unfold Rep.executeRep.
  unfold bind at 1. unfold Rep.emit at 1, modify at 1.
  unfold bind at 1. unfold Rep.next_item at 1. simpl.
  unfold Sweep.next, bind at 1, get at 1. rewrite Hpending.
  unfold bind at 1, put at 1, ret at 1. simpl.
  unfold bind at 1. unfold Rep.set_imlist at 1, modify at 1.
  unfold bind at 1. unfold Rep.set_dm_set_failure at 1, modify at 1.
  unfold bind at 1. rewrite capture_loop_run. simpl. fold ibl g started.
  destruct (Rep.loop_timed_out hw ibl).
  - by rewrite <- app_assoc.
  - unfold bind at 1, get at 1. simpl.
    unfold Rep.closing_events.
    destruct (Rep.position hw) as [[curX curY] curZ]. simpl.
    unfold bind, Rep.emit, modify, ret. simpl.
    destruct (Rep.loop_failure hw ibl), (Sweep.is_newarea it),
      (numReps =? repNum + 1); simpl;
      rewrite <- ?app_assoc; simpl; rewrite <- ?app_assoc; done.
Qed.


(** *** The loop, position by position *)

Lemma loop_writes (hw : Hardware) (ibl : list (nat * list F32)) :
  Rep.writes_of (Rep.loop_events hw ibl) = [].
Proof.
  induction ibl as [|[i abb] ibl IH]; simpl; [done|].
  by destruct (Rep.capture hw i).
Qed.



Lemma loop_all_captured (hw : Hardware) (bl : list (list F32)) (a : nat) :
  (forall i, (a <= i < a + length bl)%nat -> is_Some (Rep.capture hw i)) ->
  let ibl := zip (seq a (length bl)) bl in
  Rep.loop_timed_out hw ibl = false
  /\ Rep.captures_of (Rep.loop_events hw ibl)
     = map (fun i => (i, Rep.capture hw i)) (seq a (length bl))
  /\ map Some (Rep.loop_images hw ibl)
     = map (Rep.capture hw) (seq a (length bl))
  /\ (Rep.loop_failure hw ibl = true
      <-> exists i, (a <= i < a + length bl)%nat
                    /\ Rep.set_phase_raises hw i = true).
Proof.
  revert a; induction bl as [|abb bl IH]; intros a Hall; simpl.
  - split; [done|]. split; [done|]. split; [done|].
    split; [done|]. intros (i & Hi & _). lia.
  - destruct (Hall a) as [image Ha]; [simpl; lia|]. rewrite Ha. simpl.
    destruct (IH (S a)) as (IH1 & IH2 & IH3 & IH4).
    { intros i Hi. apply Hall. simpl. lia. }
    split; [done|]. split; [by rewrite IH2|]. split; [by rewrite IH3|].
    rewrite orb_true_iff, IH4. split.
    + intros [Hr|(i & Hi & Hr)]; [exists a|exists i]; (split; [lia|done]).
    + intros (i & Hi & Hr). destruct (decide (i = a)) as [->|Hne];
        [by left|]. right. exists i. split; [lia|done].
Qed.

Lemma loop_first_timeout (hw : Hardware) (bl : list (list F32)) (a k : nat) :
  (a <= k < a + length bl)%nat ->
  Rep.capture hw k = None ->
  (forall i, (a <= i < k)%nat -> is_Some (Rep.capture hw i)) ->
  let ibl := zip (seq a (length bl)) bl in
  Rep.loop_timed_out hw ibl = true
  /\ Rep.captures_of (Rep.loop_events hw ibl)
     = map (fun i => (i, Rep.capture hw i)) (seq a (S k - a)).
Proof.
  revert a; induction bl as [|abb bl IH]; intros a Hk Hnone Hsome; simpl.
  - simpl in Hk. lia.
  - destruct (decide (k = a)) as [->|Hne].
    + rewrite Hnone. replace (S a - a)%nat with 1%nat by lia. simpl.
      by rewrite Hnone.
    + destruct (Hsome a) as [image Ha]; [lia|]. rewrite Ha. simpl.
      destruct (IH (S a)) as [IH1 IH2].
      { simpl in Hk. lia. }
      { done. }
      { intros i Hi. apply Hsome. lia. }
      split; [done|]. rewrite IH2.
      replace (seq a (S k - a)) with (a :: seq (S a) (S k - S a)).
      2:{ replace (S k - a)%nat with (S (S k - S a)) by lia. done. }
      cbn [map]. by rewrite Ha.
Qed.

Lemma loop_not_timed_out (hw : Hardware) (bl : list (list F32)) (a : nat) :
  Rep.loop_timed_out hw (zip (seq a (length bl)) bl) = false ->
  forall i, (a <= i < a + length bl)%nat -> is_Some (Rep.capture hw i).
Proof.
  revert a; induction bl as [|abb bl IH]; intros a Hno i Hi; simpl in *.
  - lia.
  - destruct (Rep.capture hw a) as [image|] eqn:Ha; [|done].
    destruct (decide (i = a)) as [->|Hne]; [by rewrite Ha|].
    apply (IH (S a)); [done|lia].
Qed.

Lemma closing_events_facts (numReps : Z) (saveBasePath : string)
    (hw : Hardware) (repNum : Z) (it : Sweep.item) (images : list Image)
    (failed : bool) :
  let closing := Rep.closing_events numReps saveBasePath hw repNum it
                   images failed in
  Rep.captures_of closing = []
  /\ Rep.writes_of closing
     = [(saveBasePath +:+ Sweep.fprefix it +:+ ".tif", images)]
  /\ (Rep.Print Rep.Dm_not_set ∈ closing <-> failed = true).
Proof.
  unfold Rep.closing_events.
  destruct failed, (Sweep.is_newarea it), (numReps =? repNum + 1); simpl;
    (split; [done|]); (split; [done|]); split; try done;
    try (intros _; apply elem_of_cons; by left);
    intros Hin; exfalso;
    repeat (apply elem_of_cons in Hin as [?|Hin]; [done|]);
    by apply not_elem_of_nil in Hin.
Qed.

(** C2. In a repetition whose generator has an item, a capture that times
    out makes [executeRep] raise [TimeoutError] at once: the captures made
    are those of the bias vectors up to the one that timed out, none later,
    and no file is written. A file is written only by a repetition that
    returns normally, and then it holds one image for every bias vector of
    the list, each the image its capture delivered. *)
Theorem C2_capture_timeout_aborts_repetition
    (numReps : Z) (saveBasePath : string) (hw : Hardware) (repNum : Z)
    (s : state) (it : Sweep.item) (rest : list Sweep.item) :
  Sweep.pending (Rep.abb_generator s) = it :: rest ->
  let n := length (Sweep.biaslist it) in
  exists r s' new,
    Rep.executeRep numReps saveBasePath hw repNum s = (r, s')
    /\ Rep.events s' = Rep.events s ++ new
    /\ (forall k,
          (k < n)%nat -> Rep.capture hw k = None ->
          (forall i, (i < k)%nat -> is_Some (Rep.capture hw i)) ->
          r = Raise TimeoutError
          /\ Rep.captures_of new
             = map (fun i => (i, Rep.capture hw i)) (seq 0 (S k))
          /\ Rep.writes_of new = [])
    /\ (forall fn images,
          (fn, images) ∈ Rep.writes_of new ->
          r = Ok tt
          /\ Rep.writes_of new = [(fn, images)]
          /\ length images = n
          /\ forall i, (i < n)%nat -> Rep.capture hw i = images !! i).
Proof.
  intros Hpending n.
  pose proof (executeRep_run numReps saveBasePath hw repNum s it rest
                Hpending) as Hrun. simpl in Hrun.
  unfold Rep.enumerate in Hrun. fold n in Hrun.
  set (ibl := zip (seq 0 n) (Sweep.biaslist it)) in *.
  destruct (Rep.loop_timed_out hw ibl) eqn:Hto.
  - eexists _, _, _. split; [exact Hrun|]. split; [done|]. split.
    + intros k Hk Hnone Hsome.
      destruct (loop_first_timeout hw (Sweep.biaslist it) 0 k)
        as [_ Hcap]; [lia|done|intros; apply Hsome; lia|].
      split; [done|]. simpl. fold n ibl in Hcap.
      rewrite Hcap, loop_writes. by rewrite Nat.sub_0_r.
    + intros fn images Hin. simpl in Hin. rewrite loop_writes in Hin.
      by apply not_elem_of_nil in Hin.
  - pose proof (loop_not_timed_out hw (Sweep.biaslist it) 0 Hto) as Hsome.
    destruct (loop_all_captured hw (Sweep.biaslist it) 0 Hsome)
      as (_ & Hcap & Himg & _). fold n ibl in Hcap, Himg.
    destruct (closing_events_facts numReps saveBasePath hw repNum it
                (Rep.loop_images hw ibl) (Rep.loop_failure hw ibl))
      as (Hc1 & Hc2 & _).
    eexists _, _, _. split; [exact Hrun|]. split; [done|].
    assert (forall i, (i < n)%nat ->
              Rep.capture hw i = Rep.loop_images hw ibl !! i) as Hlook.
    { intros i Hi.
      assert (map Some (Rep.loop_images hw ibl) !! i
              = map (Rep.capture hw) (seq 0 n) !! i) as Hi' by by rewrite Himg.
      rewrite !list_lookup_fmap, lookup_seq_lt in Hi' by done. simpl in Hi'.
      destruct (Rep.loop_images hw ibl !! i); simpl in Hi'; congruence. }
    assert (length (Rep.loop_images hw ibl) = n) as Hlen.
    { apply (f_equal length) in Himg.
      by rewrite !length_map, length_seq in Himg. }
    split.
    + intros k Hk Hnone _. destruct (Hsome k) as [image Hk']; [lia|].
      congruence.
    + intros fn images Hin. simpl in Hin.
      unfold Rep.writes_of in Hin, Hc2. rewrite omap_app in Hin.
      fold (Rep.writes_of (Rep.loop_events hw ibl)) in Hin.
      rewrite loop_writes in Hin. simpl in Hin.
      unfold Rep.writes_of in Hin. rewrite Hc2 in Hin.
      apply list_elem_of_singleton in Hin as [= -> ->].
      split; [done|]. split; [|split; [exact Hlen|exact Hlook]].
      simpl. unfold Rep.writes_of. rewrite omap_app.
      fold (Rep.writes_of (Rep.loop_events hw ibl)).
      by rewrite loop_writes, Hc2.
Qed.





End RepFacts.

(** ** The sectioning transform *)

Section ClarityFacts.

Context {Frame Processor : Type}.
Variable frame_shape : Frame -> Z * Z.
Variable process : Processor -> Frame -> Frame.

(** C10. When the read of the filter position returns [None],
    [_section_data] returns the frame it was given, whatever the calibrated
    processors are, and reads none of them: the read of the position is its
    only access. The shape of what it returns is then the shape of its
    input, which for a frame of positive width is not the shape
    [(width // 2, height)] computed by the shape function that [_on_section]
    registers with it. *)
Theorem C10_section_data_passes_frame_when_position_unknown
    (dev : Aurox.Clarity) (data : Frame) (obj : nat) :
  exists out dev',
    Aurox._section_data process None data dev = (Ok out, dev')
    /\ out = data
    /\ Aurox._processors dev' = Aurox._processors dev
    /\ Aurox.accesses dev'
       = Aurox.accesses dev ++ [Aurox.Get_filter_position]
    /\ (forall fpos,
          Aurox.Read_processor fpos ∈ Aurox.accesses dev' ->
          Aurox.Read_processor fpos ∈ Aurox.accesses dev)
    /\ frame_shape out = frame_shape data
    /\ Aurox._on_section true true obj []
       = (Ok tt,
          [Camera.mkPostProcessor Aurox.PRIORITY_SECTIONING
             Aurox.Section_data (Aurox.Halve_width obj)])
    /\ (0 < fst (frame_shape data) ->
        frame_shape out
        <> Aurox.shape_call (Aurox.Halve_width obj) (frame_shape data)).
Proof.
  eexists _, _. split; [reflexivity|]. simpl.
  split; [done|]. split; [done|]. split; [done|]. split.
  - intros fpos Hin. apply elem_of_app in Hin as [Hin|Hin]; [done|].
    by apply list_elem_of_singleton in Hin.
  - split; [done|]. split; [done|].
    destruct (frame_shape data) as [w ht]. simpl. intros Hw [= Hhalf].
    assert (w `div` 2 < w) by (apply Z.div_lt; lia). lia.
Qed.

End ClarityFacts.

(** ** The experiments on exact numbers *)

Module ExactFacts.
Import Exact.

Lemma linspace_length (start stop : Q) (num : Z) :
  0 <= num ->
  exists steps,
    linspace start stop num = Ok steps /\ Z.of_nat (length steps) = num.
Proof.
  intros Hnum. unfold linspace.
  replace (num <? 0) with false by (symmetry; apply Z.ltb_ge; lia).
  eexists. split; [done|].
  assert (forall y : list Q, length (set_last y stop) = length y) as Hlast.
  { intros y. unfold set_last. apply length_insert. }
  destruct (1 <? num); rewrite ?Hlast, length_map;
    (destruct (0 <? num - 1);
     [destruct (Qeq_bool _ _)|]; rewrite !length_map;
     unfold Sweep.range; rewrite length_map, length_seq; lia).
Qed.

Lemma linspace_one (start stop : Q) :
  exists step, linspace start stop 1 = Ok [step] /\ (step == start)%Q.
Proof.
  eexists. split; [reflexivity|]. simpl. ring.
Qed.

(** C8. With [applied_step = 1] the applied steps are a single value, equal
    to [-abb_magnitude]; both constructors succeed and hand that single
    step to their generator, which on valid modes yields, for every area,
    one item for each applied mode, and that item is made at that step. *)
Theorem C8_single_step_is_minus_magnitude (cfg : Config) :
  applied_step cfg = 1 ->
  exists step,
    linspace (- abb_magnitude cfg) (abb_magnitude cfg) (applied_step cfg)
    = Ok [step]
    /\ (step == - abb_magnitude cfg)%Q
    /\ (exists e,
          BiasImageDatasetExperiment_init cfg = Ok e
          /\ self_abb_generator e
             = Sweep.generateAbb_DC (bias_modes cfg) (applied_modes cfg)
                 [step] (numReps cfg))
    /\ (exists e,
          ATBiasImageDatasetExperiment_init cfg = Ok e
          /\ self_abb_generator e
             = Sweep.generateAbb_HWAT (bias_modes cfg) (applied_modes cfg)
                 [step] (numReps cfg))
    /\ (Sweep.valid_modes (bias_modes cfg) (applied_modes cfg) ->
        let visits :=
          flat_map (fun area =>
            map (fun applied_abb => (area, applied_abb, step))
              (applied_modes cfg))
            (Sweep.range (numReps cfg)) in
        Forall2 (Sweep.yields_at Sweep.fprefix_DC (bias_modes cfg)) visits
          (Sweep.pending
             (Sweep.generateAbb_DC (bias_modes cfg) (applied_modes cfg)
                [step] (numReps cfg)))
        /\ Forall2
             (Sweep.yields_at (Sweep.fprefix_HWAT (numReps cfg))
                (bias_modes cfg)) visits
             (Sweep.pending
                (Sweep.generateAbb_HWAT (bias_modes cfg) (applied_modes cfg)
                   [step] (numReps cfg)))).
Proof.
  intros Hone.
  destruct (linspace_one (- abb_magnitude cfg) (abb_magnitude cfg))
    as (step & Hlin & Hstep).
  exists step. rewrite Hone. split; [exact Hlin|]. split; [exact Hstep|].
  split; [|split].
  - unfold BiasImageDatasetExperiment_init. rewrite Hone, Hlin. by eexists.
  - unfold ATBiasImageDatasetExperiment_init. rewrite Hone, Hlin. by eexists.
  - intros Hvalid visits.
    destruct (@generateAbb_valid exact_scalars (bias_modes cfg)
                (applied_modes cfg) [step] (numReps cfg) Hvalid)
      as [[_ Hdc] [_ Hat]].
    assert (Sweep.sweep_triples (numReps cfg) (applied_modes cfg) [step]
            = visits) as Hvisits.
    { unfold Sweep.sweep_triples, visits.
      induction (Sweep.range (numReps cfg)) as [|area l IH]; [done|].
      cbn [flat_map]. rewrite IH.
      by rewrite <- (flat_map_singleton (fun m : Z => (area, m, step))
                      (applied_modes cfg)). }
    by rewrite Hvisits in Hdc, Hat.
Qed.


(** [ATBiasImageDatasetExperiment.__init__] sets [numReps] to the product,
    which on valid modes is the number of items its generator yields. *)
Lemma numReps_HWAT_is_product (cfg : Config) :
  0 <= applied_step cfg ->
  exists e steps,
    ATBiasImageDatasetExperiment_init cfg = Ok e
    /\ linspace (- abb_magnitude cfg) (abb_magnitude cfg) (applied_step cfg)
       = Ok steps
    /\ Z.of_nat (length steps) = applied_step cfg
    /\ self_numReps e
       = Z.of_nat (length steps) * Z.of_nat (length (applied_modes cfg))
         * numReps cfg
    /\ (Sweep.valid_modes (bias_modes cfg) (applied_modes cfg) ->
        0 <= numReps cfg ->
        Z.of_nat (length (Sweep.pending (self_abb_generator e)))
        = self_numReps e).
Proof.
  intros Hstep.
  destruct (linspace_length (- abb_magnitude cfg) (abb_magnitude cfg)
              (applied_step cfg) Hstep) as (steps & Hlin & Hlen).
  unfold ATBiasImageDatasetExperiment_init. rewrite Hlin.
  eexists _, steps. split; [done|]. split; [done|]. split; [done|].
  split; [done|]. simpl. intros Hvalid Hareas.
  destruct (@generateAbb_valid exact_scalars (bias_modes cfg)
              (applied_modes cfg) steps (numReps cfg) Hvalid)
    as [_ [_ Hat]].
  apply Forall2_length in Hat. rewrite <- Hat.
  rewrite (@sweep_triples_length exact_scalars).
  rewrite !Nat2Z.inj_mul, Z2Nat.id by done. change (@F64 exact_scalars) with Q. lia.
Qed.

(** [BiasImageDatasetExperiment.__init__] sets [numReps] to the number of
    steps times the number of areas. *)
Lemma numReps_DC_is_steps_times_areas (cfg : Config) :
  0 <= applied_step cfg ->
  exists e,
    BiasImageDatasetExperiment_init cfg = Ok e
    /\ self_numReps e = applied_step cfg * numReps cfg.
Proof.
  intros Hstep.
  destruct (linspace_length (- abb_magnitude cfg) (abb_magnitude cfg)
              (applied_step cfg) Hstep) as (steps & Hlin & Hlen).
  unfold BiasImageDatasetExperiment_init. rewrite Hlin.
  eexists. split; [done|]. simpl. by rewrite Hlen.
Qed.

(** C1. With its default arguments [BiasImageDatasetExperiment.__init__]
    sets [numReps] to 5, while the product of the numbers of applied steps,
    applied modes and areas is 25, and its generator yields 25 items. *)
Theorem C1_numReps_DC_leaves_out_applied_modes :
  exists e steps,
    BiasImageDatasetExperiment_init default_DC = Ok e
    /\ linspace (- abb_magnitude default_DC) (abb_magnitude default_DC)
         (applied_step default_DC) = Ok steps
    /\ self_numReps e = 5
    /\ Z.of_nat (length steps) * Z.of_nat (length (applied_modes default_DC))
       * numReps default_DC = 25
    /\ length (Sweep.pending (self_abb_generator e)) = 25%nat
    /\ Sweep.failure (self_abb_generator e) = None.
Proof.
  eexists _, _. split; [reflexivity|]. split; [reflexivity|].
  split; [reflexivity|]. split; [reflexivity|].
  split; vm_compute; reflexivity.
Qed.

(** C3, as stated, fails. With the two steps 1 and 2 on one axis
    [makeBiasPolytope] returns base, +1, +2, -1, -2, where the order of the
    specification is base, +1, -1, +2, -2. *)
Lemma C3_counterexample_two_steps :
  Sweep.makeBiasPolytope [0; 0]%Q [0] 2 [1; 2]
  = Ok [[0; 0]; [1; 0]; [2; 0]; [-1; 0]; [-2; 0]]%Q
  /\ Sweep.polytope_as_specified [0; 0]%Q [0] [1; 2]
     = [[0; 0]; [1; 0]; [-1; 0]; [2; 0]; [-2; 0]]%Q
  /\ Sweep.makeBiasPolytope [0; 0]%Q [0] 2 [1; 2]
     <> Ok (Sweep.polytope_as_specified [0; 0]%Q [0] [1; 2]).
Proof.
  split; [reflexivity|]. split; [reflexivity|]. discriminate.
Qed.

(** C9, as stated, fails. With [abb_magnitude = 1/32] and [applied_step = 3]
    the steps are -1/32, 0 and 1/32; the second and third items of the sweep
    are made at different steps, and both generators give them the same
    prefix. *)
Lemma C9_counterexample_steps_with_one_text :
  exists steps s1 s2,
    linspace (- (1 # 32)) (1 # 32) 3 = Ok steps
    /\ Sweep.sweep_triples 1 [4] steps !! 1%nat = Some (0, 4, s1)
    /\ Sweep.sweep_triples 1 [4] steps !! 2%nat = Some (0, 4, s2)
    /\ ~ (s1 == s2)%Q
    /\ Sweep.fprefix
         <$> Sweep.pending (Sweep.generateAbb_DC [4; 5] [4] steps 1) !! 1%nat
       = Some "A0A4S0.0_"
    /\ Sweep.fprefix
         <$> Sweep.pending (Sweep.generateAbb_DC [4; 5] [4] steps 1) !! 2%nat
       = Some "A0A4S0.0_"
    /\ Sweep.fprefix
         <$> Sweep.pending (Sweep.generateAbb_HWAT [4; 5] [4] steps 1) !! 1%nat
       = Some "R1A0A4S0.0_"
    /\ Sweep.fprefix
         <$> Sweep.pending (Sweep.generateAbb_HWAT [4; 5] [4] steps 1) !! 2%nat
       = Some "R1A0A4S0.0_".
Proof.
  eexists _, _, _. split; [reflexivity|].
  split; [reflexivity|]. split; [reflexivity|].
  split; [by vm_compute|].
  repeat split; vm_compute; reflexivity.
Qed.

End ExactFacts.

(** ** The theorems at concrete inputs *)

Module Instances.
Import Exact.

(** Two axes and the default step on a zero vector of three amplitudes. *)
Lemma C3_witness :
  Sweep.makeBiasPolytope [0; 0; 0]%Q [0; 1] 3 [1]
  = Ok [[0; 0; 0]; [1; 0; 0]; [-1; 0; 0]; [0; 1; 0]; [0; -1; 0]]%Q.
Proof.
  destruct (@C3_bias_polytope_order_and_size exact_scalars
              [0; 0; 0]%Q [0; 1] 3 [1] eq_refl)
    as (betas & Hrun & _ & _ & _ & Htwo & _).
  { repeat constructor; lia. }
  rewrite Hrun, (Htwo 0 1 1 eq_refl eq_refl). reflexivity.
Defined.

(** The sectioning processor added before one of lower priority. *)
Lemma C5_witness :
  let adds :=
    [Camera.mkPostProcessor 100 Aurox.Section_data (Aurox.Halve_width 0);
     Camera.mkPostProcessor 50 Aurox.Section_data (Aurox.Halve_width 1)] in
  let roi := Camera.mkROI 0 0 512 512 in
  let binning := Camera.mkBinning 1 2 in
  Camera.sensor_size roi binning = Ok (512, 256)
  /\ Camera.priority_order adds (Camera.chain_after adds)
  /\ Camera.getImageSize Aurox.shape_call roi binning (Camera.chain_after adds)
     = (Ok (128, 256), rev adds).
Proof.
  intros adds roi binning. split; [reflexivity|].
  destruct (C5_image_size_folds_in_priority_order Aurox.shape_call adds roi
              binning (512, 256) eq_refl) as (Hord & Hfold & _).
  split; [exact Hord|]. rewrite (Hfold _ Hord). reflexivity.
Defined.

(** Two areas of one applied mode and three steps. *)
Lemma C6_witness :
  let g := Sweep.generateAbb_DC [4; 5] [4] [-5; 0; 5]%Q 2 in
  map Sweep.is_newarea (Sweep.pending g)
  = [false; false; false; true; false; false]
  /\ (forall i it, Sweep.pending g !! i = Some it ->
        (Sweep.is_newarea it = true <-> (0 < i)%nat /\ (i mod 3 = 0)%nat))
  /\ Sweep.failure g = None
  /\ length (Sweep.pending g) = 6%nat.
Proof.
  intros g. split; [vm_compute; reflexivity|].
  destruct (@C6_new_area_on_first_item_of_later_areas exact_scalars
              [4; 5] [4] [-5; 0; 5]%Q 2 g)
    as (_ & Hflags & _ & Hcount).
  - lia.
  - discriminate.
  - discriminate.
  - left. reflexivity.
  - split; [exact Hflags|]. apply Hcount.
    split; [discriminate|]. split; [discriminate|].
    split; repeat constructor; lia.
Defined.

(** Steps -5 and 5 of one area and mode are told apart by their text. *)
Lemma C9_witness :
  let g := Sweep.generateAbb_HWAT [4; 5] [4] [-5; 5]%Q 1 in
  map Sweep.fprefix (Sweep.pending g) = ["R1A0A4S-5.0_"; "R1A0A4S5.0_"]
  /\ exists it1 it2,
      Sweep.pending g = [it1; it2]
      /\ Sweep.fprefix it1 <> Sweep.fprefix it2.
Proof.
  intros g. split; [vm_compute; reflexivity|].
  assert (length (Sweep.pending g) = 2%nat) as Hlen
    by (vm_compute; reflexivity).
  destruct (Sweep.pending g) as [|it1 [|it2 [|it3 rest]]] eqn:Hp;
    try discriminate Hlen.
  exists it1, it2. split; [reflexivity|].
  eapply (@C9_prefixes_differ_up_to_step_text exact_scalars
            [4; 5] [4] [-5; 5]%Q 1 g 0 1 0 4 0 4 (-5)%Q 5%Q).
  - split; [discriminate|]. split; [discriminate|].
    split; repeat constructor; lia.
  - right. reflexivity.
  - reflexivity.
  - reflexivity.
  - by rewrite Hp.
  - by rewrite Hp.
  - right. right. vm_compute. discriminate.
Defined.

(** Three bias vectors; the capture of the second times out. *)
Lemma C2_witness :
  let it := @Sweep.mkItem exact_scalars [[0]; [1]; [-1]]%Q "A0A0S0.0_" false in
  let hw :=
    @Rep.mkHardware nat (fun _ => false)
      (fun i => if (i =? 1)%nat then None else Some i) (0, 0, 0)%Q in
  let s :=
    @Rep.mkState exact_scalars nat (Sweep.mkGenerator [it] None) [] [] false in
  exists s',
    Rep.executeRep 1 "BIDE_" hw 0 s = (Raise TimeoutError, s')
    /\ Rep.captures_of (Rep.events s') = [(0%nat, Some 0%nat); (1%nat, None)]
    /\ Rep.writes_of (Rep.events s') = [].
Proof.
  intros it hw s.
  destruct (@C2_capture_timeout_aborts_repetition exact_scalars nat
              1 "BIDE_" hw 0 s it [] eq_refl)
    as (r & s' & new & Hrun & Hev & Htimeout & _).
  destruct (Htimeout 1%nat) as (-> & Hcap & Hwr).
  - simpl. lia.
  - reflexivity.
  - intros i Hi. replace i with 0%nat by lia. by eexists.
  - exists s'. split; [exact Hrun|]. rewrite Hev. simpl.
    split; [exact Hcap|exact Hwr].
Defined.


(** A frame of 512 by 256 on a device without calibration. *)
Lemma C10_witness :
  let dev := @Aurox.mkClarity unit [None; None; None; None] [] in
  exists dev',
    Aurox._section_data (fun _ frame => frame) None (512, 256) dev
    = (Ok (512, 256), dev')
    /\ Aurox.accesses dev' = [Aurox.Get_filter_position]
    /\ (512, 256) <> Aurox.shape_call (Aurox.Halve_width 0) (512, 256).
Proof.
  intros dev.
  destruct (@C10_section_data_passes_frame_when_position_unknown
              (Z * Z) unit (fun frame => frame) (fun _ frame => frame)
              dev (512, 256) 0%nat)
    as (out & dev' & Hrun & -> & _ & Hacc & _ & _ & _ & Hshape).
  exists dev'. split; [exact Hrun|]. split; [exact Hacc|].
  apply Hshape. simpl. lia.
Defined.

(** One step on a magnitude of 5. *)
Lemma C8_witness :
  exists step,
    linspace (- 5) 5 1 = Ok [step] /\ (step == - 5)%Q.
Proof.
  destruct (ExactFacts.C8_single_step_is_minus_magnitude
              (mkConfig [4; 5] 5 [4; 5] 1 2) eq_refl)
    as (step & Hlin & Hstep & _).
  exists step. split; [exact Hlin|exact Hstep].
Defined.

End Instances.

(** * Further properties *)

(** ** The chain under calls of [addPostProcessor] and [removePostProcessor] *)

Section ChainCallFacts.

Context {DataFn ShapeFn : Type}.
Context `{EqDecision DataFn} `{EqDecision ShapeFn}.

Abbreviation PP' := (@Camera._PostProcessor DataFn ShapeFn).
Abbreviation prio_le' :=
  (fun a b : PP' => Camera.priority a <= Camera.priority b).

Lemma filters_select_candidates prio fd fs (pps : list PP') :
  match fs with
  | Some fs =>
      filter (fun item => Camera.f_shape item = fs)
        match fd with
        | Some fd => filter (fun item => Camera.f_data item = fd)
                       (filter (fun item => Camera.priority item = prio) pps)
        | None => filter (fun item => Camera.priority item = prio) pps
        end
  | None =>
      match fd with
      | Some fd => filter (fun item => Camera.f_data item = fd)
                     (filter (fun item => Camera.priority item = prio) pps)
      | None => filter (fun item => Camera.priority item = prio) pps
      end
  end = filter (Camera.candidate prio fd fs) pps.
Proof.
  unfold Camera.candidate.
  destruct fd as [f|], fs as [g|]; rewrite ?list_filter_filter;
    apply list_filter_iff; intros x; tauto.
Qed.

(** What [removePostProcessor] does, by cases on the candidates. *)
Lemma removePostProcessor_cases
    (prio : Z) (fd : option DataFn) (fs : option ShapeFn) (pps : list PP') :
  (exists l1 x l2,
      pps = l1 ++ x :: l2
      /\ Camera.candidate prio fd fs x
      /\ Forall (fun y => ~ Camera.candidate prio fd fs y) l1
      /\ Camera.removePostProcessor prio fd fs pps = (Ok tt, l1 ++ l2))
  \/ (Forall (fun y => ~ Camera.candidate prio fd fs y) pps
      /\ Camera.removePostProcessor prio fd fs pps = (Raise IndexError, pps)).
Proof.
  unfold Camera.removePostProcessor, bind, get, put, lift.
  rewrite (filters_select_candidates prio fd fs pps), getitem_0.
  pose proof (filter_first_split (Camera.candidate prio fd fs) pps) as Hsplit.
  destruct (filter (Camera.candidate prio fd fs) pps) as [|x c].
  - right. auto.
  - left. destruct Hsplit as (l1 & l2 & -> & Hx & Hl1).
    exists l1, x, l2.
    split; [done|]. split; [exact Hx|]. split; [exact Hl1|].
    rewrite list_remove_split; [done|].
    eapply Forall_impl; [exact Hl1|]. intros y Hy ->. auto.
Qed.

Lemma sorted_remove_middle (l1 l2 : list PP') (x : PP') :
  StronglySorted prio_le' (l1 ++ x :: l2) ->
  StronglySorted prio_le' (l1 ++ l2).
Proof.
  induction l1 as [|y l1 IH]; simpl; intros Hs.
  - by apply StronglySorted_inv in Hs as [? _].
  - apply StronglySorted_inv in Hs as [Hs Hy]. constructor; [by apply IH|].
    rewrite Forall_app in Hy |- *. destruct Hy as [Hy1 Hy2].
    split; [done|]. by apply Forall_cons in Hy2 as [_ ?].
Qed.

Lemma add_gives_sorted (p : Z) (fd : DataFn) (fs : ShapeFn) (pps : list PP') :
  Camera.addPostProcessor p fd fs pps
  = (Ok tt, Camera.sort_by_priority (pps ++ [Camera.mkPostProcessor p fd fs])).
Proof. reflexivity. Qed.

Lemma call_keeps_sorted (c : ChainCalls.chain_call) (pps : list PP') :
  StronglySorted prio_le' pps ->
  StronglySorted prio_le' (snd (ChainCalls.call c pps)).
Proof.
  intros Hs. destruct c as [p fd fs|p fd fs]; simpl.
  - by destruct (sort_by_priority_order
                   (pps ++ [Camera.mkPostProcessor p fd fs])) as [? _].
  - destruct (removePostProcessor_cases p fd fs pps)
      as [(l1 & x & l2 & -> & _ & _ & ->)|[_ ->]]; simpl; [|done].
    by eapply sorted_remove_middle.
Qed.

(** X1. Whatever calls of [addPostProcessor] and [removePostProcessor] are
    made on a new camera, in whatever order and whether or not a removal
    raises, the chain is in ascending order of priority afterwards; a
    removal that raises leaves it as it was, and one that returns makes it
    one shorter. *)
Theorem X1_chain_stays_sorted (cs : list ChainCalls.chain_call) :
  StronglySorted prio_le' (ChainCalls.after_calls cs [])
  /\ (forall (pps : list PP') p fd fs r pps',
        Camera.removePostProcessor p fd fs pps = (r, pps') ->
        (r = Ok tt /\ S (length pps') = length pps)
        \/ (r = Raise IndexError /\ pps' = pps)).
Proof.
  split.
  - assert (forall pps : list PP', StronglySorted prio_le' pps ->
              StronglySorted prio_le' (ChainCalls.after_calls cs pps)) as Hgen.
    { induction cs as [|c cs IH]; intros pps Hs; simpl; [done|].
      apply IH. by apply call_keeps_sorted. }
    apply Hgen. constructor.
  - intros pps p fd fs r pps' Hrun.
    destruct (removePostProcessor_cases p fd fs pps)
      as [(l1 & x & l2 & -> & _ & _ & Heq)|[_ Heq]];
      rewrite Heq in Hrun; injection Hrun as <- <-.
    + left. split; [done|]. rewrite !length_app. simpl. lia.
    + by right.
Qed.

Lemma sort_insert_split (x : PP') (pps : list PP') :
  exists l1 l2, pps = l1 ++ l2 /\ Camera.sort_insert x pps = l1 ++ x :: l2.
Proof.
  induction pps as [|y pps (l1 & l2 & Hpps & Hins)]; simpl.
  - by exists [], [].
  - destruct (Camera.priority x <? Camera.priority y).
    + by exists [], (y :: pps).
    + exists (y :: l1), l2. by rewrite Hpps at 1; rewrite Hins.
Qed.

Lemma add_to_sorted (p : Z) (fd : DataFn) (fs : ShapeFn) (pps : list PP') :
  StronglySorted prio_le' pps ->
  Camera.sort_by_priority (pps ++ [Camera.mkPostProcessor p fd fs])
  = Camera.sort_insert (Camera.mkPostProcessor p fd fs) pps.
Proof.
  intros Hs. set (x := Camera.mkPostProcessor p fd fs).
  apply (priority_order_unique (pps ++ [x]));
    [apply sort_by_priority_order|].
  split; [by apply sort_insert_sorted|].
  intros q. by apply sort_insert_filter.
Qed.

Lemma first_occurrence_unique (x : PP') (l1 l2 l1' l2' : list PP') :
  x ∉ l1 -> x ∉ l1' -> l1 ++ x :: l2 = l1' ++ x :: l2' ->
  l1 = l1' /\ l2 = l2'.
Proof.
  revert l1'; induction l1 as [|y l1 IH]; intros [|y' l1'] H1 H1'; simpl.
  - by intros [= ->].
  - intros [= <- _]. exfalso. apply H1'. by left.
  - intros [= -> _]. exfalso. apply H1. by left.
  - intros [= -> Heq]. destruct (IH l1') as [-> ->]; [| |done|done].
    + intros Hin. apply H1. by right.
    + intros Hin. apply H1'. by right.
Qed.

(** X2. On a chain in priority order, [addPostProcessor] followed by
    [removePostProcessor] with the same priority, data function and shape
    function never raises and leaves a chain in priority order that holds
    the processors it held before; when the chain held no equal processor
    the chain is exactly what it was. *)
Theorem X2_add_then_remove_restores
    (p : Z) (fd : DataFn) (fs : ShapeFn) (pps : list PP') :
  StronglySorted prio_le' pps ->
  exists pps',
    (Camera.addPostProcessor p fd fs ;;;
     Camera.removePostProcessor p (Some fd) (Some fs)) pps = (Ok tt, pps')
    /\ pps' ≡ₚ pps
    /\ StronglySorted prio_le' pps'
    /\ (Camera.mkPostProcessor p fd fs ∉ pps -> pps' = pps).
Proof.
  intros Hs. set (x := Camera.mkPostProcessor p fd fs).
  unfold bind. rewrite add_gives_sorted, add_to_sorted by done. fold x.
  destruct (sort_insert_split x pps) as (l1 & l2 & Hpps & Hins).
  assert (StronglySorted prio_le' (Camera.sort_insert x pps)) as Hs'
    by by apply sort_insert_sorted.
  assert (Camera.candidate p (Some fd) (Some fs) x) as Hx by done.
  destruct (removePostProcessor_cases p (Some fd) (Some fs)
              (Camera.sort_insert x pps))
    as [(l1' & y & l2' & Heq & Hy & Hl1' & ->)|[Hnone _]].
  - assert (y = x) as ->.
    { destruct y as [py fdy fsy]. destruct Hy as (Hp & Hd & Hf).
      simpl in *. by subst. }
    exists (l1' ++ l2'). split; [done|]. split; [|split].
    + apply (Permutation_cons_inv (a := x)).
      rewrite Hpps, !Permutation_middle, <- Heq, Hins. done.
    + rewrite Heq in Hs'. by eapply sorted_remove_middle.
    + intros Hnew. rewrite Hins in Heq.
      destruct (first_occurrence_unique x l1 l2 l1' l2') as [-> ->];
        [| |done|done].
      * intros Hin. apply Hnew. rewrite Hpps. apply elem_of_app. by left.
      * intros Hin. rewrite Forall_forall in Hl1'. by apply (Hl1' x).
  - exfalso. rewrite Forall_forall in Hnone. apply (Hnone x); [|done].
    rewrite Hins. apply elem_of_app. right. by left.
Qed.

(** Adding a processor and removing by a pattern that it alone matches
    gives the chain back. *)
Lemma add_then_remove_fresh
    (p : Z) (fd : DataFn) (fs : ShapeFn) (fdo : option DataFn)
    (fso : option ShapeFn) (pps : list PP') :
  StronglySorted prio_le' pps ->
  Forall (fun y => ~ Camera.candidate p fdo fso y) pps ->
  Camera.candidate p fdo fso (Camera.mkPostProcessor p fd fs) ->
  (Camera.addPostProcessor p fd fs ;;;
   Camera.removePostProcessor p fdo fso) pps = (Ok tt, pps).
Proof.
  intros Hs Hnone Hx. set (x := Camera.mkPostProcessor p fd fs) in *.
  unfold bind. rewrite add_gives_sorted, add_to_sorted by done. fold x.
  destruct (sort_insert_split x pps) as (l1 & l2 & Hpps & Hins).
  rewrite Hins. rewrite Hpps in Hnone. apply Forall_app in Hnone as [Hn1 Hn2].
  destruct (removePostProcessor_cases p fdo fso (l1 ++ x :: l2))
    as [(l1' & y & l2' & Heq & Hy & Hl1' & ->)|[Hno _]].
  - assert (l1 = l1' /\ x :: l2 = y :: l2') as [<- [= <- <-]]; [|by subst].
    clear -Heq Hn1 Hl1' Hx Hy. revert l1' Heq Hl1'.
    induction l1 as [|z l1 IH]; intros [|z' l1'] Heq Hl1'; simpl in *.
    + done.
    + injection Heq as <- _. apply Forall_cons in Hl1' as [Hz _]. done.
    + injection Heq as -> _. apply Forall_cons in Hn1 as [Hz _]. done.
    + injection Heq as -> Heq.
      apply Forall_cons in Hn1 as [_ Hn1].
      apply Forall_cons in Hl1' as [_ Hl1'].
      destruct (IH Hn1 l1' Heq Hl1') as [-> Htail]. done.
  - exfalso. rewrite Forall_forall in Hno. apply (Hno x); [|done].
    apply elem_of_app. right. by left.
Qed.

End ChainCallFacts.

(** ** Delivery of camera data *)

Section ReceiveFacts.

Context {DataFn ShapeFn Frame Time W : Type}.
Variable data_call : DataFn -> Frame -> M W Frame.
Variable zeros : Z * Z -> Frame.
Variable shape_call : ShapeFn -> Z * Z -> Z * Z.
Variable frame_shape : Frame -> Z * Z.

Abbreviation PPr := (@Camera._PostProcessor DataFn ShapeFn).
Abbreviation bus := (@Receive.bus Frame Time W).

(** The loop over the chain publishes nothing. *)
Lemma apply_data_published (pps : list PPr) (image : Frame) (b : bus) :
  Receive.published (snd (Receive.apply_data data_call pps image b))
  = Receive.published b.
Proof.
  revert image b; induction pps as [|pp pps IH]; intros image b; simpl;
    [done|].
  unfold bind, Receive.call_f_data.
  destruct (data_call (Camera.f_data pp) image (Receive.world b))
    as [[out|e] w]; simpl; [|done].
  by rewrite IH.
Qed.

Lemma apply_data_app (l1 l2 : list PPr) (image : Frame) (b : bus) :
  Receive.apply_data data_call (l1 ++ l2) image b
  = match Receive.apply_data data_call l1 image b with
    | (Ok mid, b1) => Receive.apply_data data_call l2 mid b1
    | (Raise e, b1) => (Raise e, b1)
    end.
Proof.
  revert image b; induction l1 as [|pp l1 IH]; intros image b; simpl;
    [done|].
  unfold bind.
  destruct (Receive.call_f_data data_call pp image b) as [[out|e] b1];
    [apply IH|done].
Qed.

(** A chain whose data functions return data of the shape their shape
    functions compute. *)
Lemma apply_data_shape (pps : list PPr) (image out : Frame) (b b' : bus) :
  (forall pp frame w out' w',
     pp ∈ pps ->
     data_call (Camera.f_data pp) frame w = (Ok out', w') ->
     frame_shape out' = shape_call (Camera.f_shape pp) (frame_shape frame)) ->
  Receive.apply_data data_call pps image b = (Ok out, b') ->
  frame_shape out = Camera.apply_shapes shape_call pps (frame_shape image).
Proof.
  revert image b; induction pps as [|pp pps IH]; intros image b Hc; simpl.
  - by intros [= -> _].
  - unfold bind, Receive.call_f_data.
    destruct (data_call (Camera.f_data pp) image (Receive.world b))
      as [[mid|e] w] eqn:Hcall; [|done].
    intros Hrest.
    rewrite <- (Hc pp image (Receive.world b) mid w); [|by left|done].
    eapply IH; [|exact Hrest]. intros pp' frame w0 out' w' Hin.
    apply Hc. by right.
Qed.

(** X3. When every data function of the chain returns data of the shape
    that the shape function registered with it computes, image data that
    [receiveData] publishes has the size [getImageSize] returns for it: the
    published image is the one image published by the call, it carries the
    timestamp received, and its shape is the fold of the shape functions
    over the shape of the data received. *)
Theorem X3_published_image_has_expected_size
    (pps : list PPr) (handler_size : Z * Z) (image : Frame)
    (timestamp : Time) (b b' : bus) :
  (forall pp frame w out' w',
     pp ∈ pps ->
     data_call (Camera.f_data pp) frame w = (Ok out', w') ->
     frame_shape out' = shape_call (Camera.f_shape pp) (frame_shape frame)) ->
  Receive.receiveData data_call zeros pps handler_size (inr image) timestamp b
  = (Ok tt, b') ->
  exists out,
    Receive.published b' = Receive.published b ++ [(out, timestamp)]
    /\ frame_shape out
       = Camera.apply_shapes shape_call pps (frame_shape image)
    /\ forall roi binning,
         Camera.sensor_size roi binning = Ok (frame_shape image) ->
         Camera.getImageSize shape_call roi binning pps
         = (Ok (frame_shape out), pps).
Proof.
  intros Hc. unfold Receive.receiveData, bind.
  destruct (Receive.apply_data data_call pps image b) as [[out|e] b1] eqn:Hrun;
    [|done].
  intros [= <-]. exists out.
  pose proof (apply_data_published pps image b) as Hpub.
  rewrite Hrun in Hpub. simpl in Hpub |- *. rewrite Hpub.
  split; [done|].
  pose proof (apply_data_shape pps image out b b1 Hc Hrun) as Hshape.
  split; [exact Hshape|]. intros roi binning Hsize.
  unfold Camera.getImageSize, bind, lift, get, ret. rewrite Hsize.
  by rewrite Hshape.
Qed.

(** X4. [receiveData] publishes nothing when a data function raises: the
    exception of the first data function that raises, in the order of the
    chain, is raised by [receiveData], and no later data function is
    called. When the hardware hands over an exception instead of image
    data, no data function is called, an image of zeros of the size of the
    handler is published with the timestamp, and the exception is
    raised. *)
Theorem X4_receiveData_failures
    (l1 l2 : list PPr) (pp : PPr) (handler_size : Z * Z) (image mid : Frame)
    (timestamp : Time) (b b1 : bus) (w2 : W) (e : exn) :
  Receive.apply_data data_call l1 image b = (Ok mid, b1) ->
  data_call (Camera.f_data pp) mid (Receive.world b1) = (Raise e, w2) ->
  Receive.receiveData data_call zeros (l1 ++ pp :: l2) handler_size
    (inr image) timestamp b
  = (Raise e, Receive.mkBus w2 (Receive.published b))
  /\ forall (e' : exn) (pps : list PPr),
       Receive.receiveData data_call zeros pps handler_size (inl e')
         timestamp b
       = (Raise e',
          Receive.mkBus (Receive.world b)
            (Receive.published b ++ [(zeros handler_size, timestamp)])).
Proof.
  intros H1 Hpp. split; [|done].
  unfold Receive.receiveData, bind. rewrite apply_data_app, H1. simpl.
  unfold bind, Receive.call_f_data. rewrite Hpp.
  pose proof (apply_data_published l1 image b) as Hpub.
  rewrite H1 in Hpub. simpl in Hpub. by rewrite Hpub.
Qed.

End ReceiveFacts.

(** ** The Clarity device *)

Section ClarityDeviceFacts.

Context {Frame Processor Deforms Path : Type}.
Variable new_processor : Frame -> Processor.
Variable get_deforms : Processor -> Deforms.
Variable process : Processor -> Frame -> Frame.
Variable keyword_only : list string.

Abbreviation session := (@ClarityDevice.session Processor).

Lemma split_lines_free (line : string) :
  free_of "010" line -> ClarityDevice.split_lines line = [line].
Proof.
  induction line as [|c line IH]; simpl; [done|]. intros [Hc Hfree].
  rewrite (proj2 (Ascii.eqb_neq c "010") Hc). by rewrite IH.
Qed.

Lemma split_lines_append (line rest : string) :
  free_of "010" line ->
  ClarityDevice.split_lines (line +:+ String "010" rest)
  = line :: ClarityDevice.split_lines rest.
Proof.
  induction line as [|c line IH]; simpl; [done|]. intros [Hc Hfree].
  rewrite (proj2 (Ascii.eqb_neq c "010") Hc). by rewrite IH.
Qed.

(** Splitting undoes joining, on lines without a newline. *)
Lemma split_join_lines (lines : list string) :
  lines <> [] -> Forall (free_of "010") lines ->
  ClarityDevice.split_lines (ClarityDevice.join_lines lines) = lines.
Proof.
  induction lines as [|line lines IH]; [done|]. intros _ Hfree.
  apply Forall_cons in Hfree as [Hline Hfree].
  destruct lines as [|line' lines]; [by apply split_lines_free|].
  change (ClarityDevice.join_lines (line :: line' :: lines))
    with (line +:+ String "010" (ClarityDevice.join_lines (line' :: lines))).
  rewrite split_lines_append by done. by rewrite IH.
Qed.

(** X5. [Clarity.__init__] reads the labels of the filter cubes as the
    non-empty lines of the configuration value, in order: on a value made
    of lines it returns a device with these labels, the camera name and
    four channels without processor exactly when four of the lines are not
    empty, and raises otherwise; it raises as well when one of the keys
    [filter cubes] and [camera] is missing. *)
Theorem X5_init_reads_four_labels
    (config : gmap string string) (lines : list string) (camera : string) :
  lines <> [] ->
  Forall (free_of "010") lines ->
  config !! "filter cubes" = Some (ClarityDevice.join_lines lines) ->
  config !! "camera" = Some camera ->
  let labels := List.filter ClarityDevice.nonempty lines in
  (length labels = 4%nat ->
   @ClarityDevice.init Processor config
   = Ok (ClarityDevice.mkClarity labels camera
           (Aurox.mkClarity [None; None; None; None] [])))
  /\ (length labels <> 4%nat ->
      @ClarityDevice.init Processor config = Raise Exception)
  /\ (forall config' : gmap string string,
        config' !! "filter cubes" = None \/ config' !! "camera" = None ->
        @ClarityDevice.init Processor config' = Raise Exception).
Proof.
  intros Hne Hfree Hcubes Hcamera labels.
  unfold ClarityDevice.init. rewrite Hcubes, Hcamera.
  rewrite split_join_lines by done. fold labels.
  split; [|split].
  - intros ->. done.
  - intros Hlen. by rewrite (proj2 (Nat.eqb_neq _ _) Hlen).
  - intros config' [-> | Hc]; [done|].
    destruct (config' !! "filter cubes"); [|done]. by rewrite Hc.
Qed.

(** *** Calibration *)

Lemma wait_for_position_waits (reads : nat -> option Z) (fuel i : nat)
    (s : session) :
  (forall j, (j <= fuel)%nat -> reads (i + j)%nat = None) ->
  ClarityDevice.wait_for_position reads fuel i s = None.
Proof.
  revert i s; induction fuel as [|fuel IH]; intros i s Hnone; simpl.
  - specialize (Hnone 0%nat). rewrite Nat.add_0_r in Hnone.
    by rewrite Hnone.
  - pose proof (Hnone 0%nat) as H0. rewrite Nat.add_0_r in H0.
    rewrite H0 by lia. apply IH. intros j Hj.
    replace (S i + j)%nat with (i + S j)%nat by lia. apply Hnone. lia.
Qed.

Lemma wait_for_position_finds (reads : nat -> option Z) (k fuel i : nat)
    (fpos : Z) (s : session) :
  reads (i + k)%nat = Some fpos ->
  (forall j, (j < k)%nat -> reads (i + j)%nat = None) ->
  (k <= fuel)%nat ->
  ClarityDevice.wait_for_position reads fuel i s
  = Some (fpos, ClarityDevice.after_reads (S k) s).
Proof.
  revert fuel i s; induction k as [|k IH]; intros fuel i s Hk Hnone Hfuel.
  - rewrite Nat.add_0_r in Hk. destruct fuel; simpl; rewrite Hk; done.
  - destruct fuel as [|fuel]; [lia|]. simpl.
    pose proof (Hnone 0%nat) as H0. rewrite Nat.add_0_r in H0.
    rewrite H0 by lia.
    rewrite (IH fuel (S i)); [| |intros j Hj|lia].
    + unfold ClarityDevice.after_reads. simpl. by rewrite <- app_assoc.
    + by replace (S i + k)%nat with (i + S k)%nat by lia.
    + replace (S i + j)%nat with (i + S j)%nat by lia. apply Hnone. lia.
Qed.

Lemma on_calib_returns
    (data : Frame) (reads : nat -> option Z) (k fuel : nat) (fpos : Z)
    (idx : nat) (s : session) :
  reads k = Some fpos ->
  (forall j, (j < k)%nat -> reads j = None) ->
  norm_index (length (Aurox._processors (ClarityDevice.clarity s))) fpos
  = Ok idx ->
  (k <= fuel)%nat ->
  ClarityDevice._on_calib new_processor fuel true (Some data) reads s
  = Some (Ok tt,
          ClarityDevice.mkSession
            (Aurox.mkClarity
               (<[idx := Some (new_processor data)]>
                  (Aurox._processors (ClarityDevice.clarity s)))
               (Aurox.accesses (ClarityDevice.clarity s)
                ++ replicate (S k) Aurox.Get_filter_position))
            (ClarityDevice.statuses s
             ++ [ClarityDevice.busy; ClarityDevice.enabled])).
Proof.
  intros Hk Hnone Hidx Hfuel. unfold ClarityDevice._on_calib. simpl.
  rewrite (wait_for_position_finds reads k fuel 0 fpos); [|done|done|done].
  unfold ClarityDevice.after_reads, ClarityDevice.set_processor.
  unfold ClarityDevice.publish_status, modify, bind, get, lift, put. simpl.
  rewrite Hidx. simpl. by rewrite <- app_assoc.
Qed.

(** X6. With a camera handler and image data, [_on_calib] reads the filter
    position until a read is definite: when the first definite read is the
    read number [k], it returns once [k] rounds of the loop are allowed,
    after [k + 1] reads, with a new processor made from the image data at
    that position, every other channel as it was, and the states busy and
    enabled published in that order; with fewer rounds it is still in the
    loop. When no read is ever definite it never leaves the loop. *)
Theorem X6_on_calib_waits_for_definite_position
    (data : Frame) (reads : nat -> option Z) (k : nat) (fpos : Z)
    (idx : nat) (s : session) :
  reads k = Some fpos ->
  (forall j, (j < k)%nat -> reads j = None) ->
  norm_index (length (Aurox._processors (ClarityDevice.clarity s))) fpos
  = Ok idx ->
  (forall fuel, (k <= fuel)%nat ->
     ClarityDevice._on_calib new_processor fuel true (Some data) reads s
     = Some (Ok tt,
             ClarityDevice.mkSession
               (Aurox.mkClarity
                  (<[idx := Some (new_processor data)]>
                     (Aurox._processors (ClarityDevice.clarity s)))
                  (Aurox.accesses (ClarityDevice.clarity s)
                   ++ replicate (S k) Aurox.Get_filter_position))
               (ClarityDevice.statuses s
                ++ [ClarityDevice.busy; ClarityDevice.enabled])))
  /\ (forall fuel, (fuel < k)%nat ->
        ClarityDevice._on_calib new_processor fuel true (Some data) reads s
        = None)
  /\ (forall reads' : nat -> option Z,
        (forall j, reads' j = None) ->
        forall fuel,
          ClarityDevice._on_calib new_processor fuel true (Some data) reads' s
          = None).
Proof.
  intros Hk Hnone Hidx. split; [|split].
  - intros fuel Hfuel. by apply (on_calib_returns data reads k fuel fpos).
  - intros fuel Hfuel. unfold ClarityDevice._on_calib. simpl.
    rewrite wait_for_position_waits; [done|].
    intros j Hj. apply Hnone. lia.
  - intros reads' Hnever fuel. unfold ClarityDevice._on_calib. simpl.
    rewrite wait_for_position_waits; [done|]. intros j _. apply Hnever.
Qed.


Lemma norm_index_lt (n : nat) (i : Z) (k : nat) :
  norm_index n i = Ok k -> (k < n)%nat.
Proof.
  unfold norm_index.
  destruct ((0 <=? i) && (i <? Z.of_nat n)) eqn:H1.
  - intros [= <-]. apply andb_true_iff in H1 as [H1 H2].
    apply Z.leb_le in H1. apply Z.ltb_lt in H2. lia.
  - destruct ((- Z.of_nat n <=? i) && (i <? 0)) eqn:H2; [|done].
    intros [= <-]. apply andb_true_iff in H2 as [H2 H3].
    apply Z.leb_le in H2. apply Z.ltb_lt in H3. lia.
Qed.

(** X8. After [_on_calib] has set the processor of a channel,
    [_section_data] at that filter position returns what this processor
    makes of the data, where it raised [AttributeError] while the channel
    had no processor; at the position of any other channel it returns what
    it returned before. *)
Theorem X8_calibrated_channel_sections
    (data frame : Frame) (reads : nat -> option Z) (k fuel : nat)
    (fpos : Z) (idx : nat) (s s' : session) :
  reads k = Some fpos ->
  (forall j, (j < k)%nat -> reads j = None) ->
  (k <= fuel)%nat ->
  norm_index (length (Aurox._processors (ClarityDevice.clarity s))) fpos
  = Ok idx ->
  ClarityDevice._on_calib new_processor fuel true (Some data) reads s
  = Some (Ok tt, s') ->
  fst (Aurox._section_data process (Some fpos) frame (ClarityDevice.clarity s'))
  = Ok (process (new_processor data) frame)
  /\ (Aurox._processors (ClarityDevice.clarity s) !! idx = Some None ->
      fst (Aurox._section_data process (Some fpos) frame
             (ClarityDevice.clarity s))
      = Raise AttributeError)
  /\ (forall other idx',
        norm_index (length (Aurox._processors (ClarityDevice.clarity s)))
          other = Ok idx' ->
        idx' <> idx ->
        fst (Aurox._section_data process (Some other) frame
               (ClarityDevice.clarity s'))
        = fst (Aurox._section_data process (Some other) frame
                 (ClarityDevice.clarity s))).
Proof.
  intros Hk Hnone Hfuel Hidx Hrun.
  pose proof (norm_index_lt _ _ _ Hidx) as Hlt.
  rewrite (on_calib_returns data reads k fuel fpos idx s) in Hrun by done.
  injection Hrun as <-. simpl.
  assert (forall (procs : list (option Processor)) acc pos i,
    norm_index (length procs) pos = Ok i -> (i < length procs)%nat ->
    fst (Aurox._section_data process (Some pos) frame
           (Aurox.mkClarity procs acc))
    = match procs !! i with
      | Some (Some p) => Ok (process p frame)
      | _ => Raise AttributeError
      end) as Hsection.
  { intros procs acc pos i Hi Hlti.
    unfold Aurox._section_data, bind, Aurox.record_access, modify, get, lift.
    simpl. unfold getitem. rewrite Hi.
    destruct (lookup_lt_is_Some_2 procs i Hlti) as [p ->].
    by destruct p. }
  split; [|split].
  - rewrite (Hsection _ _ fpos idx); [|by rewrite length_insert..].
    by rewrite list_lookup_insert_eq.
  - intros Hnone'. destruct (ClarityDevice.clarity s) as [procs acc].
    simpl in *. rewrite (Hsection _ _ fpos idx) by done. by rewrite Hnone'.
  - intros other idx' Hother Hne.
    assert (idx' < length (Aurox._processors (ClarityDevice.clarity s)))%nat
      as Hlt'.
    { by apply (norm_index_lt _ other). }
    destruct (ClarityDevice.clarity s) as [procs acc]. simpl in *.
    rewrite (Hsection _ _ other idx'); [|by rewrite length_insert..].
    rewrite (Hsection _ _ other idx') by done.
    by rewrite list_lookup_insert_ne.
Qed.


(** *** Export of the deformation maps *)

Abbreviation store :=
  (fun (m : gmap string Deforms) (lp : string * option Processor) =>
     match snd lp with
     | Some p => <[fst lp := get_deforms p]> m
     | None => m
     end).

Lemma getitem_nat {A} (l : list A) (i : nat) (x : A) :
  l !! i = Some x -> getitem l (Z.of_nat i) = Ok x.
Proof.
  intros Hx. pose proof (lookup_lt_Some _ _ _ Hx) as Hlt.
  unfold getitem. rewrite norm_index_nonneg by lia.
  by rewrite Nat2Z.id, Hx.
Qed.

(** With a label for every channel the comprehension stores the maps of
    the calibrated channels one after the other. *)
Lemma collect_deforms_stores (labels : list string)
    (procs : list (option Processor)) (a : nat) (m0 : gmap string Deforms) :
  (a + length procs <= length labels)%nat ->
  ClarityDevice.collect_deforms get_deforms labels
    (zip (seq a (length procs)) procs) m0
  = Ok (fold_left store (zip (drop a labels) procs) m0).
Proof.
  revert a m0; induction procs as [|p procs IH]; intros a m0 Hlen; simpl.
  - by destruct (drop a labels).
  - simpl in Hlen.
    destruct (lookup_lt_is_Some_2 labels a) as [label Hlabel]; [lia|].
    rewrite (drop_S _ _ _ Hlabel). simpl.
    destruct p as [p|]; [rewrite (getitem_nat _ _ _ Hlabel)|];
      apply IH; lia.
Qed.

Lemma fold_store_last (channels : list (string * option Processor))
    (m0 : gmap string Deforms) (label : string) :
  fold_left store channels m0 !! label
  = match last (ClarityDevice.calibrated_under label channels) with
    | Some p => Some (get_deforms p)
    | None => m0 !! label
    end.
Proof.
  induction channels as [|[l p] channels IH] using rev_ind; [done|].
  rewrite fold_left_app. unfold ClarityDevice.calibrated_under in *.
  rewrite omap_app. simpl.
  destruct p as [p|]; simpl.
  - destruct (decide (l = label)) as [->|Hne].
    + by rewrite lookup_insert_eq, last_snoc.
    + rewrite lookup_insert_ne by done. rewrite app_nil_r. exact IH.
  - destruct (decide (l = label)); rewrite app_nil_r; exact IH.
Qed.

Lemma calibrated_under_cons (label l : string) (p : option Processor)
    (channels : list (string * option Processor)) :
  ClarityDevice.calibrated_under label ((l, p) :: channels)
  = match p with
    | Some q =>
        if decide (l = label)
        then q :: ClarityDevice.calibrated_under label channels
        else ClarityDevice.calibrated_under label channels
    | None => ClarityDevice.calibrated_under label channels
    end.
Proof.
  unfold ClarityDevice.calibrated_under. simpl.
  by destruct p, (decide (l = label)).
Qed.

Lemma calibrated_under_missing (labels : list string)
    (procs : list (option Processor)) (label : string) :
  label ∉ labels ->
  ClarityDevice.calibrated_under label (zip labels procs) = [].
Proof.
  revert procs; induction labels as [|l labels IH]; intros [|q procs] Hl;
    try done.
  change (zip (l :: labels) (q :: procs))
    with ((l, q) :: zip labels procs).
  rewrite calibrated_under_cons.
  apply not_elem_of_cons in Hl as [Hne Hl].
  rewrite (IH procs Hl). destruct q; [|done].
  by rewrite decide_False.
Qed.

Lemma calibrated_under_nodup (labels : list string)
    (procs : list (option Processor)) (i : nat) (label : string) :
  NoDup labels -> length labels = length procs ->
  labels !! i = Some label ->
  ClarityDevice.calibrated_under label (zip labels procs)
  = match procs !! i with
    | Some (Some p) => [p]
    | _ => []
    end.
Proof.
  revert procs i; induction labels as [|l labels IH];
    intros [|p procs] i Hnd Hlen Hi; try done.
  apply NoDup_cons in Hnd as [Hl Hnd]. injection Hlen as Hlen.
  change (zip (l :: labels) (p :: procs))
    with ((l, p) :: zip labels procs).
  rewrite calibrated_under_cons.
  destruct i as [|i]; simpl in *.
  - injection Hi as ->. rewrite (calibrated_under_missing _ _ _ Hl).
    destruct p; [|done]. by rewrite decide_True.
  - assert (l <> label) as Hne.
    { intros ->. apply Hl. by eapply list_elem_of_lookup_2. }
    rewrite (IH procs i) by done. destruct p; [|done].
    by rewrite decide_False.
Qed.

Lemma fold_store_none (channels : list (string * option Processor))
    (m0 : gmap string Deforms) :
  Forall (fun lp => snd lp = None) channels ->
  fold_left store channels m0 = m0.
Proof.
  intros Hnone; revert m0.
  induction Hnone as [|[l p] channels Hp _ IH]; intros m0; [done|].
  simpl in *. subst. apply IH.
Qed.

(** X9. With one label for every channel, [_on_deforms] raises
    [Exception], and writes nothing, when no channel has a processor or
    when the file dialog is cancelled. Otherwise the dictionary it hands to
    [savez_compressed] has, under every label, the deformation maps of the
    last calibrated channel with that label; when the labels are all
    different it has the maps of channel [i] under the label of channel [i]
    exactly when that channel has a processor, and nothing under any other
    name. If a calibrated channel is labelled [file], the call raises
    [TypeError] and writes nothing; if none is, it writes one archive at
    the chosen path, which stores the entries of the dictionary, those
    named like a keyword-only parameter of [savez_compressed] apart. *)
Theorem X9_on_deforms_exports_calibrated_channels
    (labels : list string) (procs : list (option Processor))
    (choice : option Path) (saved : list (Path * gmap string Deforms)) :
  length labels = length procs ->
  (Forall (fun p => p = None) procs ->
   ClarityDevice._on_deforms get_deforms keyword_only labels procs choice
     saved
   = (Raise Exception, saved))
  /\ (choice = None ->
      ClarityDevice._on_deforms get_deforms keyword_only labels procs choice
        saved
      = (Raise Exception, saved))
  /\ (forall path,
        choice = Some path ->
        ~ Forall (fun p => p = None) procs ->
        exists deforms : gmap string Deforms,
          (forall label,
             deforms !! label
             = get_deforms
                 <$> last (ClarityDevice.calibrated_under label
                             (zip labels procs)))
          /\ (NoDup labels ->
              (forall i label,
                 labels !! i = Some label ->
                 deforms !! label
                 = match procs !! i with
                   | Some (Some p) => Some (get_deforms p)
                   | _ => None
                   end)
              /\ forall label, label ∉ labels -> deforms !! label = None)
          /\ (is_Some (deforms !! "file") ->
              ClarityDevice._on_deforms get_deforms keyword_only labels
                procs choice saved
              = (Raise TypeError, saved))
          /\ (deforms !! "file" = None ->
              exists stored : gmap string Deforms,
                ClarityDevice._on_deforms get_deforms keyword_only labels
                  procs choice saved
                = (Ok tt, saved ++ [(path, stored)])
                /\ forall label,
                     stored !! label
                     = if decide (label ∈ keyword_only) then None
                       else deforms !! label)).
Proof.
  intros Hlen.
  unfold ClarityDevice._on_deforms, ClarityDevice.savez_compressed,
    Rep.enumerate, bind, lift.
  rewrite (collect_deforms_stores labels procs 0 ∅) by lia.
  rewrite drop_0. set (deforms := fold_left store (zip labels procs) ∅).
  assert (forall label,
    deforms !! label
    = get_deforms
        <$> last (ClarityDevice.calibrated_under label (zip labels procs)))
    as Hlast.
  { intros label. unfold deforms. rewrite fold_store_last.
    by destruct (last _). }
  assert (Forall (fun p => p = None) procs -> deforms = ∅) as Hempty.
  { intros Hnone. apply fold_store_none.
    apply Forall_forall. intros [l p] Hin.
    apply elem_of_zip_r in Hin. simpl in *.
    rewrite Forall_forall in Hnone. by apply Hnone. }
  assert (~ Forall (fun p => p = None) procs -> deforms <> ∅) as Hsome.
  { intros Hnot Heq. apply Hnot. apply Forall_forall. intros p Hin.
    destruct p as [p|]; [exfalso|done].
    apply list_elem_of_lookup_1 in Hin as [i Hi].
    destruct (lookup_lt_is_Some_2 labels i) as [label Hlabel].
    { rewrite Hlen. by eapply lookup_lt_Some. }
    assert (exists q, last (ClarityDevice.calibrated_under label
                              (zip labels procs)) = Some q) as [q Hq].
    { assert (p ∈ ClarityDevice.calibrated_under label (zip labels procs))
        as Hp.
      { unfold ClarityDevice.calibrated_under. apply list_elem_of_omap.
        exists (label, Some p). split.
        - apply list_elem_of_lookup_2 with i.
          by rewrite lookup_zip_with, Hlabel, Hi.
        - by rewrite decide_True. }
      destruct (ClarityDevice.calibrated_under label (zip labels procs))
        as [|q0 l] using rev_ind; [by apply not_elem_of_nil in Hp|].
      exists q0. apply last_snoc. }
    pose proof (Hlast label) as Hl. rewrite Hq, Heq in Hl.
    by rewrite lookup_empty in Hl. }
  split; [|split].
  - intros Hnone. by rewrite (Hempty Hnone), decide_True.
  - intros ->. simpl. by destruct (decide (deforms = ∅)).
  - intros path -> Hnot. exists deforms. simpl.
    rewrite decide_False by by apply Hsome.
    split; [exact Hlast|]. split; [|split].
    + intros Hnd. split.
      * intros i label Hi. rewrite Hlast.
        rewrite (calibrated_under_nodup labels procs i label) by done.
        by destruct (procs !! i) as [[p|]|].
      * intros label Hl. rewrite Hlast.
        by rewrite calibrated_under_missing.
    + intros Hfile. by rewrite decide_True.
    + intros Hfile. rewrite decide_False by (rewrite Hfile; by intros [? ?]).
      eexists. split; [reflexivity|]. intros label.
      apply option_eq. intros x. rewrite map_lookup_filter_Some. simpl.
      destruct (decide (label ∈ keyword_only)) as [Hin|Hin].
      * split; [by intros [_ Hout]|done].
      * split; [by intros [Hx _]|by intros Hx].
Qed.

End ClarityDeviceFacts.

(** ** The user interface of the Clarity device *)

Section ClarityUIFacts.

Import ClarityUI.

(** X10. Toggling the sectioning mode on and then off gives the camera the
    chain it had, when that chain is in priority order and holds no
    processor of the sectioning priority. Toggling it off on such a chain
    raises [IndexError], and a toggle for a camera that is not found raises
    without touching any chain. *)
Theorem X10_section_toggle_on_off
    (pps : list (@Camera._PostProcessor Aurox.data_fn Aurox.shape_fn))
    (obj obj' : nat) :
  StronglySorted (fun a b => Camera.priority a <= Camera.priority b) pps ->
  Forall (fun pp => Camera.priority pp <> Aurox.PRIORITY_SECTIONING) pps ->
  (Aurox._on_section true true obj ;;; Aurox._on_section false true obj') pps
  = (Ok tt, pps)
  /\ Aurox._on_section false true obj pps = (Raise IndexError, pps)
  /\ forall toggled, Aurox._on_section toggled false obj pps
                     = (Raise Exception, pps).
Proof.
  intros Hs Hnone.
  assert (Forall (fun y => ~ Camera.candidate Aurox.PRIORITY_SECTIONING
                              (Some Aurox.Section_data) None y) pps) as Hno.
  { eapply Forall_impl; [exact Hnone|]. intros pp Hpp [Hp _]. done. }
  split; [|split].
  - apply (add_then_remove_fresh Aurox.PRIORITY_SECTIONING Aurox.Section_data
             (Aurox.Halve_width obj) (Some Aurox.Section_data) None);
      done.
  - unfold Aurox._on_section. simpl.
    by destruct (removePostProcessor_cases Aurox.PRIORITY_SECTIONING
                   (Some Aurox.Section_data) None pps)
      as [(l1 & x & l2 & -> & Hx & _ & _)|[_ ->]];
      [apply Forall_app in Hno as [_ Hno];
       apply Forall_cons in Hno as [Hno _]|].
  - by intros [].
Qed.

(** X11. [_timer_controller] leaves the timer alone on a status event of
    another handler. On an event of its own handler the timer runs
    afterwards exactly when the state is not disabled; the timer is
    started, with a period of 1000 ms, only when it was not running, and
    stopped only on the state disabled. *)
Theorem X11_timer_follows_device_state
    (own_handler : bool) (state : ClarityDevice.STATES) (t : Timer) :
  exists new,
    _timer_controller own_handler state t
    = (Ok tt,
       mkTimer
         (if own_handler
          then (if decide (state = ClarityDevice.disabled) then false
                else true)
          else running t)
         (timer_calls t ++ new))
    /\ (own_handler = false -> new = [])
    /\ (forall ms, Start ms ∈ new ->
          running t = false /\ ms = 1000
          /\ state <> ClarityDevice.disabled)
    /\ (Stop ∈ new -> state = ClarityDevice.disabled)
    /\ (length new <= 1)%nat.
Proof.
  unfold _timer_controller.
  destruct own_handler; simpl.
  - destruct (decide (state = ClarityDevice.disabled)) as [Hd|Hd].
    + exists [Stop]. split; [done|]. split; [done|].
      split; [|split; [done|simpl; lia]].
      intros ms Hin. apply list_elem_of_singleton in Hin. done.
    + unfold bind, get. destruct (running t) eqn:Hrun; simpl.
      * exists []. rewrite app_nil_r. destruct t; simpl in *; subst.
        split; [done|]. split; [done|]. split; [|split; [|simpl; lia]];
          intros; exfalso; by eapply not_elem_of_nil.
      * exists [Start ClarityDevice.TIMER_PERIOD_MS]. split; [done|].
        split; [done|]. split; [|split; [|simpl; lia]].
        -- intros ms Hin. apply list_elem_of_singleton in Hin.
           by injection Hin as ->.
        -- intros Hin. by apply list_elem_of_singleton in Hin.
  - exists []. rewrite app_nil_r. destruct t. split; [done|]. split; [done|].
    split; [|split; [|simpl; lia]]; intros; exfalso;
      by eapply not_elem_of_nil.
Qed.


Ltac run_update_UI :=
  unfold _update_UI, publish_state, indeterminate, try_except, bind, lift,
    get, ret, show_status, set_choice_sect, set_choice_fcube, set_cbox_calib,
    set_button_calib_light, set_button_section, enable_button_section,
    queue_toggle, set_cbox_door, modify.

(** After its [try] block [_update_UI] publishes no state. *)
Lemma update_UI_status {Processor : Type}
    (procs : list (option Processor)) (a : Answers) (w : Widgets) :
  exists r w',
    _update_UI procs a w = (r, w')
    /\ status_shown w' = status_shown (snd (publish_state a w)).
Proof.
  unfold _update_UI. unfold bind at 1.
  destruct (publish_state a w) as [[[]|e] w1]; simpl;
    try (eexists _, _; split; reflexivity).
  unfold bind, lift, get, ret, set_choice_sect, set_choice_fcube,
    set_cbox_calib, set_button_calib_light, set_button_section,
    enable_button_section, queue_toggle, set_cbox_door, modify.
  destruct (disk_position a) as [[d|]|?]; simpl;
    try (eexists _, _; split; reflexivity);
    destruct (choice_sect_focus w1); simpl;
    (destruct (filter_position a) as [[f|]|?]; simpl;
     try (eexists _, _; split; reflexivity));
    try (destruct (choice_fcube_focus w1); simpl;
         destruct (getitem procs f) as [[?|]|?]; simpl;
         try (eexists _, _; split; reflexivity));
    (destruct (calibration_led a) as [?|?]; simpl;
     try (eexists _, _; split; reflexivity));
    destruct (button_section w1); simpl;
    destruct (door_closed a) as [?|?]; simpl;
    eexists _, _; split; reflexivity.
Qed.

(** X12. [_update_UI] publishes one state for the device. When the reads of
    its [try] block are answered, that state is busy whenever the disk
    position or the filter position is indeterminate or the door is open,
    whether or not the device is enabled, and otherwise enabled or disabled
    as the device reports. When one of these reads raises, the state error
    is published, no widget is changed, and the function returns without
    raising. *)
Theorem X12_update_UI_publishes_state
    {Processor : Type} (procs : list (option Processor)) (a : Answers)
    (w : Widgets) :
  (forall is_enabled dpos fpos door,
     try_is_enabled a = Ok is_enabled ->
     try_disk_position a = Ok dpos ->
     try_filter_position a = Ok fpos ->
     try_door_closed a = Ok door ->
     exists r w',
       _update_UI procs a w = (r, w')
       /\ status_shown w'
          = status_shown w
            ++ [match dpos, fpos, door with
                | Some _, Some _, true =>
                    if is_enabled then ClarityDevice.enabled
                    else ClarityDevice.disabled
                | _, _, _ => ClarityDevice.busy
                end])
  /\ (forall e,
        try_is_enabled a = Raise e
        \/ (exists is_enabled,
              try_is_enabled a = Ok is_enabled
              /\ (try_disk_position a = Raise e
                  \/ exists dpos,
                       try_disk_position a = Ok (Some dpos)
                       /\ (try_filter_position a = Raise e
                           \/ exists fpos,
                                try_filter_position a = Ok (Some fpos)
                                /\ try_door_closed a = Raise e))) ->
        _update_UI procs a w
        = (Ok tt,
           mkWidgets (choice_sect w) (choice_sect_focus w) (choice_fcube w)
             (choice_fcube_focus w) (cbox_calib w) (button_calib_light w)
             (button_section w) (button_section_enabled w) (queued_toggles w)
             (cbox_door w) (status_shown w ++ [ClarityDevice.error]))).
Proof.
  split.
  - intros is_enabled dpos fpos door H1 H2 H3 H4.
    destruct (update_UI_status procs a w) as (r & w' & Hrun & Hstatus).
    exists r, w'. split; [exact Hrun|]. rewrite Hstatus.
    unfold publish_state, indeterminate, try_except, bind, lift, ret,
      show_status, modify.
    rewrite H1, H2. simpl.
    destruct dpos as [dpos|]; simpl; [|done].
    rewrite H3. simpl. destruct fpos as [fpos|]; simpl; [|done].
    rewrite H4. simpl. by destruct door, is_enabled.
  - intros e [H1|(is_enabled & H1 & [H2|(dpos & H2 & [H3|(fpos & H3 & H4)])])];
      run_update_UI; rewrite ?H1, ?H2, ?H3, ?H4; reflexivity.
Qed.

(** X13. When [_update_UI] gets all its answers and the filter position it
    reads is that of a channel, the sectioning button is enabled, and the
    calibration box ticked, exactly when the position is definite and its
    channel has a processor. A sectioning button that was on stays on only
    then: otherwise it is switched off and one toggle event is queued for
    it, so that after the call the button is on only for a calibrated
    channel. A choice widget that has the focus keeps its selection. *)
Theorem X13_update_UI_switches_sectioning_off
    {Processor : Type} (procs : list (option Processor)) (a : Answers)
    (w : Widgets) (is_enabled door1 led door : bool) (dpos1 fpos1 : option Z)
    (dpos fpos : option Z) (p : option Processor) :
  try_is_enabled a = Ok is_enabled ->
  try_disk_position a = Ok dpos1 ->
  try_filter_position a = Ok fpos1 ->
  try_door_closed a = Ok door1 ->
  disk_position a = Ok dpos ->
  filter_position a = Ok fpos ->
  calibration_led a = Ok led ->
  door_closed a = Ok door ->
  (forall f, fpos = Some f -> getitem procs f = Ok p) ->
  let calibrated :=
    match fpos, p with Some _, Some _ => true | _, _ => false end in
  exists w',
    _update_UI procs a w = (Ok tt, w')
    /\ button_section_enabled w' = calibrated
    /\ cbox_calib w' = calibrated
    /\ button_section w' = button_section w && calibrated
    /\ queued_toggles w'
       = (if button_section w && negb calibrated
          then S (queued_toggles w) else queued_toggles w)
    /\ (button_section w' = true -> calibrated = true)
    /\ choice_sect w'
       = match dpos with
         | Some d => if choice_sect_focus w then choice_sect w else d
         | None => choice_sect w
         end
    /\ choice_fcube w'
       = match fpos with
         | Some f => if choice_fcube_focus w then choice_fcube w else f
         | None => choice_fcube w
         end
    /\ button_calib_light w' = led
    /\ cbox_door w' = door.
Proof.
  intros H1 H2 H3 H4 H5 H6 H7 H8 Hp calibrated. run_update_UI.
  rewrite H1, H2, H5, H6, H7, H8. simpl.
  assert (forall f, fpos = Some f -> getitem procs f = Ok p) as Hp' by done.
  destruct dpos1 as [d1|]; simpl;
    [rewrite H3; simpl; destruct fpos1 as [f1|]; simpl;
     [rewrite H4; simpl|]|];
    (destruct dpos as [d|]; simpl; [destruct (choice_sect_focus w); simpl|]);
    (destruct fpos as [f|]; simpl;
     [rewrite (Hp f eq_refl); simpl; destruct (choice_fcube_focus w); simpl;
      destruct p as [q|]; simpl
     |]);
    unfold calibrated; destruct (button_section w); simpl;
    eexists; (split; [reflexivity|]); simpl; repeat split; done.
Qed.

End ClarityUIFacts.

(** ** The start vector of the sweep *)

Section SweepInduction.

Context `{Scalars}.

Variable Inv : list (Z * Z * F64) -> Sweep.frame -> Prop.
Variable prefix_of : Z -> Z -> F64 -> string.
Variables bias_modes applied_modes : list Z.

Hypothesis Inv_step : forall ts area applied_abb step f,
  applied_abb ∈ applied_modes -> Inv ts f ->
  exists f',
    Sweep.sweep_step bias_modes (prefix_of area applied_abb step)
      applied_abb step f = (Ok tt, f')
    /\ Inv (ts ++ [(area, applied_abb, step)]) f'.

Lemma steps_loop_inv (ts : list (Z * Z * F64)) (area applied_abb : Z)
    (steps : list F64) (f : Sweep.frame) :
  applied_abb ∈ applied_modes -> Inv ts f ->
  match for_each steps (fun step =>
          Sweep.sweep_step bias_modes (prefix_of area applied_abb step)
            applied_abb step) f with
  | (Ok _, f') =>
      Inv (ts ++ map (fun step => (area, applied_abb, step)) steps) f'
  | (Raise _, _) => False
  end.
Proof.
  intros Hm Hf.
  apply (for_each_inv
    (fun l1 f' =>
       Inv (ts ++ map (fun step => (area, applied_abb, step)) l1) f')
    (fun _ => False)).
  - simpl. by rewrite app_nil_r.
  - intros l1 step l2 s _ Hs.
    destruct (Inv_step _ area applied_abb step s Hm Hs) as (f' & -> & Hf').
    by rewrite map_app, app_assoc.
Qed.

Lemma area_loops_inv (ts : list (Z * Z * F64)) (area : Z)
    (steps : list F64) (f : Sweep.frame) :
  Inv ts f ->
  match for_each applied_modes (fun applied_abb =>
          for_each steps (fun step =>
            Sweep.sweep_step bias_modes (prefix_of area applied_abb step)
              applied_abb step)) f with
  | (Ok _, f') =>
      Inv (ts ++ flat_map (fun applied_abb =>
                   map (fun step => (area, applied_abb, step)) steps)
                 applied_modes) f'
  | (Raise _, _) => False
  end.
Proof.
  intros Hf.
  apply (for_each_inv
    (fun l1 f' =>
       Inv (ts ++ flat_map (fun applied_abb =>
                    map (fun step => (area, applied_abb, step)) steps) l1) f')
    (fun _ => False)).
  - simpl. by rewrite app_nil_r.
  - intros l1 applied_abb l2 s Hl Hs.
    assert (applied_abb ∈ applied_modes) as Hm.
    { rewrite Hl. apply elem_of_app. right. by left. }
    pose proof (steps_loop_inv _ area applied_abb steps s Hm Hs) as Hloop.
    destruct (for_each steps _ s) as [[[]|e] s']; [|done].
    rewrite flat_map_app. simpl. by rewrite app_nil_r, app_assoc.
Qed.

End SweepInduction.

Section SweepVectorFacts.

Context `{Scalars}.

Lemma vector_after_length (n : nat) (ts : list (Z * Z * F64)) :
  length (SweepVectors.vector_after n ts) = n.
Proof.
  unfold SweepVectors.vector_after.
  assert (forall sa : list F64,
    length (fold_left
              (fun sa t => <[Z.to_nat (snd (fst t)) := snd t]> sa) ts sa)
    = length sa) as Hgen.
  { induction ts as [|t ts IH]; intros sa; simpl; [done|].
    by rewrite IH, length_insert. }
  by rewrite Hgen, length_replicate.
Qed.

Lemma vector_after_snoc (n : nat) (ts : list (Z * Z * F64))
    (area applied_abb : Z) (step : F64) :
  SweepVectors.vector_after n (ts ++ [(area, applied_abb, step)])
  = <[Z.to_nat applied_abb := step]> (SweepVectors.vector_after n ts).
Proof. unfold SweepVectors.vector_after. by rewrite fold_left_app. Qed.

(** The body of the innermost loop keeps track. *)
Lemma tracked_step (bias_modes applied_modes : list Z) (n : nat)
    (prefix_of : Z -> Z -> F64 -> string)
    (ts : list (Z * Z * F64)) (area applied_abb : Z) (step : F64)
    (f : Sweep.frame) :
  Forall (fun m => 0 <= m < Z.of_nat n) bias_modes ->
  Forall (fun m => 0 <= m < Z.of_nat n) applied_modes ->
  applied_abb ∈ applied_modes ->
  SweepVectors.tracked bias_modes n ts f ->
  exists f',
    Sweep.sweep_step bias_modes (prefix_of area applied_abb step)
      applied_abb step f = (Ok tt, f')
    /\ SweepVectors.tracked bias_modes n
         (ts ++ [(area, applied_abb, step)]) f'.
Proof.
  intros Hbias Hmodes Hm [Hsa Hy].
  rewrite Forall_forall in Hmodes. specialize (Hmodes _ Hm).
  eexists. split.
  - apply (sweep_step_valid n); [|done|done].
    by rewrite Hsa, vector_after_length.
  - split; simpl.
    + by rewrite vector_after_snoc, Hsa.
    + rewrite map_app, Hy, length_app. simpl.
      rewrite Nat.add_1_r, seq_S, map_app. simpl. f_equal.
      * apply map_ext_in. intros k Hk. apply in_seq in Hk.
        by rewrite take_app_le by lia.
      * rewrite take_ge by (rewrite length_app; simpl; lia).
        by rewrite vector_after_snoc, Hsa.
Qed.

Lemma tracked_newarea (bias_modes : list Z) (n : nat)
    (ts : list (Z * Z * F64)) (f : Sweep.frame) (b : bool) :
  SweepVectors.tracked bias_modes n ts f ->
  SweepVectors.tracked bias_modes n ts
    (Sweep.mkFrame (Sweep.start_aberrations f) b (Sweep.yielded f)).
Proof. by intros [? ?]. Qed.

Lemma init_frame_vector_length (bias_modes applied_modes : list Z) :
  Sweep.valid_modes bias_modes applied_modes ->
  let n := SweepVectors.vector_length bias_modes applied_modes in
  Sweep.init_frame bias_modes applied_modes
  = Ok (Sweep.mkFrame (replicate n zero64) false [])
  /\ Forall (fun m => 0 <= m < Z.of_nat n) bias_modes
  /\ Forall (fun m => 0 <= m < Z.of_nat n) applied_modes.
Proof.
  intros Hvalid n.
  destruct (init_frame_valid _ _ Hvalid) as (n' & Hinit & Hb & Ha).
  assert (n' = n) as <-; [|done].
  unfold n, SweepVectors.vector_length.
  unfold Sweep.init_frame in Hinit.
  destruct (Sweep.np_max bias_modes) as [mb|]; [|done].
  destruct (Sweep.np_max applied_modes) as [ma|]; [|done].
  unfold Sweep.np_zeros in Hinit.
  destruct (Z.max mb ma + 1 <? 0); [done|].
  injection Hinit as Hrep. apply (f_equal length) in Hrep.
  by rewrite !length_replicate in Hrep.
Qed.

(** On valid modes both generators keep track of the start vector. *)
Lemma generateAbb_tracked (bias_modes applied_modes : list Z)
    (steps : list F64) (areas : Z) (g : Sweep.generator) :
  Sweep.valid_modes bias_modes applied_modes ->
  g = Sweep.generateAbb_DC bias_modes applied_modes steps areas
  \/ g = Sweep.generateAbb_HWAT bias_modes applied_modes steps areas ->
  let n := SweepVectors.vector_length bias_modes applied_modes in
  let ts := Sweep.sweep_triples areas applied_modes steps in
  map Sweep.biaslist (Sweep.pending g)
  = map (fun k =>
           Sweep.polytope
             (map f32_of (SweepVectors.vector_after n (take (S k) ts)))
             bias_modes [one])
      (seq 0 (length ts)).
Proof.
  intros Hvalid Hg n ts.
  destruct (init_frame_vector_length _ _ Hvalid) as (Hinit & Hbias & Hmodes).
  fold n in Hinit, Hbias, Hmodes.
  assert (SweepVectors.tracked bias_modes n []
            (Sweep.mkFrame (replicate n zero64) false [])) as Hf0 by done.
  destruct Hg as [-> | ->];
    unfold Sweep.generateAbb_DC, Sweep.generateAbb_HWAT, Sweep.run_generator;
    rewrite Hinit.
  - unfold Sweep.loops_DC.
    pose proof (for_each_inv
      (fun l1 f' =>
         SweepVectors.tracked bias_modes n
           (flat_map (fun area =>
              flat_map (fun applied_abb =>
                map (fun step => (area, applied_abb, step)) steps)
                applied_modes) l1) f')
      (fun _ => False)
      (Sweep.range areas)
      (fun area =>
         bind (for_each applied_modes (fun applied_abb =>
                 for_each steps (fun step =>
                   Sweep.sweep_step bias_modes
                     (Sweep.fprefix_DC area applied_abb step)
                     applied_abb step)))
              (fun _ => Sweep.set_newarea true)) _ Hf0) as Hinv.
    match type of Hinv with ?A -> _ => assert A as Hstep end.
    { intros l1 area l2 s _ Hs. unfold bind.
      pose proof (area_loops_inv (SweepVectors.tracked bias_modes n)
                    Sweep.fprefix_DC bias_modes applied_modes
                    (fun ts0 a m st f0 =>
                       tracked_step bias_modes applied_modes n
                         Sweep.fprefix_DC ts0 a m st f0 Hbias Hmodes)
                    _ area steps s Hs) as Harea.
      destruct (for_each applied_modes _ s) as [[[]|e] s']; [|done].
      rewrite flat_map_app. simpl. rewrite app_nil_r.
      by apply tracked_newarea. }
    specialize (Hinv Hstep).
    destruct (for_each (Sweep.range areas) _ _) as [[[]|e] f']; [|done].
    by destruct Hinv as [_ Hy].
  - unfold Sweep.loops_HWAT.
    pose proof (for_each_inv
      (fun l1 f' =>
         SweepVectors.tracked bias_modes n
           (flat_map (fun area =>
              flat_map (fun applied_abb =>
                map (fun step => (area, applied_abb, step)) steps)
                applied_modes) l1) f')
      (fun _ => False)
      (Sweep.range areas)
      (fun area =>
         bind (if area =? 0 then ret tt else Sweep.set_newarea true)
              (fun _ =>
                 for_each applied_modes (fun applied_abb =>
                   for_each steps (fun step =>
                     Sweep.sweep_step bias_modes
                       (Sweep.fprefix_HWAT areas area applied_abb step)
                       applied_abb step)))) _ Hf0) as Hinv.
    match type of Hinv with ?A -> _ => assert A as Hstep end.
    { intros l1 area l2 s _ Hs. unfold bind.
      assert (exists s0,
        (if area =? 0 then ret tt else Sweep.set_newarea true) s = (Ok tt, s0)
        /\ SweepVectors.tracked bias_modes n
             (flat_map (fun area =>
                flat_map (fun applied_abb =>
                  map (fun step => (area, applied_abb, step)) steps)
                  applied_modes) l1) s0) as (s0 & -> & Hs0).
      { destruct (area =? 0); eexists; (split; [done|]); [done|].
        by apply tracked_newarea. }
      pose proof (area_loops_inv (SweepVectors.tracked bias_modes n)
                    (Sweep.fprefix_HWAT areas) bias_modes applied_modes
                    (fun ts0 a m st f0 =>
                       tracked_step bias_modes applied_modes n
                         (Sweep.fprefix_HWAT areas) ts0 a m st f0 Hbias Hmodes)
                    _ area steps s0 Hs0) as Harea.
      destruct (for_each applied_modes _ s0) as [[[]|e] s']; [|done].
      rewrite flat_map_app. simpl. by rewrite app_nil_r. }
    specialize (Hinv Hstep).
    destruct (for_each (Sweep.range areas) _ _) as [[[]|e] f']; [|done].
    by destruct Hinv as [_ Hy].
Qed.

(** X14. On valid modes the start vector of the sweep is never reset: the
    bias list of the item yielded at a triple is the polytope around the
    vector that has, for every applied mode, the step of the last triple
    that applied that mode, up to and including this one, and zero for a
    mode not applied yet. From one item to the next only the amplitude of
    the applied mode changes; the amplitudes that earlier applied modes and
    earlier areas have left stay. *)
Theorem X14_start_vector_accumulates
    (bias_modes applied_modes : list Z) (steps : list F64) (areas : Z)
    (g : Sweep.generator) (i : nat) (it : Sweep.item)
    (area applied_abb : Z) (step : F64) :
  Sweep.valid_modes bias_modes applied_modes ->
  g = Sweep.generateAbb_DC bias_modes applied_modes steps areas
  \/ g = Sweep.generateAbb_HWAT bias_modes applied_modes steps areas ->
  let n := SweepVectors.vector_length bias_modes applied_modes in
  let ts := Sweep.sweep_triples areas applied_modes steps in
  Sweep.pending g !! i = Some it ->
  ts !! i = Some (area, applied_abb, step) ->
  let before := SweepVectors.vector_after n (take i ts) in
  let start := SweepVectors.vector_after n (take (S i) ts) in
  Sweep.biaslist it = Sweep.polytope (map f32_of start) bias_modes [one]
  /\ head (Sweep.biaslist it) = Some (map f32_of start)
  /\ start = <[Z.to_nat applied_abb := step]> before
  /\ start !! Z.to_nat applied_abb = Some step
  /\ (forall j, j <> Z.to_nat applied_abb -> start !! j = before !! j)
  /\ (i = 0%nat -> before = replicate n zero64).
Proof.
  intros Hvalid Hg n ts Hi Hti before start.
  pose proof (generateAbb_tracked bias_modes applied_modes steps areas g
                Hvalid Hg) as Htracked. fold n ts in Htracked.
  assert (Sweep.biaslist it
          = Sweep.polytope (map f32_of start) bias_modes [one]) as Hbl.
  { assert (map Sweep.biaslist (Sweep.pending g) !! i
            = Some (Sweep.biaslist it)) as Hl
      by by rewrite list_lookup_fmap, Hi.
    rewrite Htracked, list_lookup_fmap in Hl.
    rewrite lookup_seq_lt in Hl by by eapply lookup_lt_Some.
    simpl in Hl. by injection Hl as <-. }
  assert (start = <[Z.to_nat applied_abb := step]> before) as Hstart.
  { unfold start, before. rewrite (take_S_r _ _ _ Hti).
    apply vector_after_snoc. }
  destruct (init_frame_vector_length _ _ Hvalid) as (_ & _ & Hmodes).
  fold n in Hmodes.
  assert (0 <= applied_abb < Z.of_nat n) as Hm.
  { rewrite Forall_forall in Hmodes. apply Hmodes.
    apply list_elem_of_lookup_2 in Hti. unfold ts, Sweep.sweep_triples in Hti.
    apply list_elem_of_In, in_flat_map in Hti as (a & _ & Hti).
    apply in_flat_map in Hti as (m & Hm & Hti).
    apply in_map_iff in Hti as (s & [= _ <- _] & _).
    by apply list_elem_of_In. }
  split; [exact Hbl|]. split; [by rewrite Hbl|]. split; [exact Hstart|].
  split; [|split].
  - rewrite Hstart. apply list_lookup_insert_eq.
    unfold before. rewrite vector_after_length. lia.
  - intros j Hj. rewrite Hstart. by apply list_lookup_insert_ne.
  - by intros ->.
Qed.

End SweepVectorFacts.

(** ** The applied steps and the size of the sweep *)

Module ExactSweepFacts.
Import Exact.




(** The sizes of a sweep over given steps. *)
Lemma sweep_of_steps (cfg : Config) (steps : list Q) (g : Sweep.generator) :
  0 <= numReps cfg ->
  Sweep.valid_modes (bias_modes cfg) (applied_modes cfg) ->
  g = Sweep.generateAbb_DC (bias_modes cfg) (applied_modes cfg) steps
        (numReps cfg)
  \/ g = Sweep.generateAbb_HWAT (bias_modes cfg) (applied_modes cfg) steps
           (numReps cfg) ->
  Z.of_nat (length (Sweep.pending g))
  = Z.of_nat (length steps) * Z.of_nat (length (applied_modes cfg))
    * numReps cfg
  /\ Forall (fun it => Z.of_nat (length (Sweep.biaslist it))
                       = 2 * Z.of_nat (length (bias_modes cfg)) + 1)
       (Sweep.pending g)
  /\ Sweep.failure g = None.
Proof.
  intros Hareas Hvalid Hg.
  pose proof (@generateAbb_tracked exact_scalars (bias_modes cfg)
                (applied_modes cfg) steps (numReps cfg) g Hvalid Hg) as Hbl.
  cbv zeta in Hbl. split; [|split].
  - apply (f_equal length) in Hbl.
    rewrite !length_map, length_seq in Hbl. rewrite Hbl.
    rewrite (@sweep_triples_length exact_scalars).
    rewrite !Nat2Z.inj_mul, Z2Nat.id by done.
    change (@F64 exact_scalars) with Q. lia.
  - apply Forall_forall. intros it Hit.
    assert (Sweep.biaslist it ∈ map Sweep.biaslist (Sweep.pending g))
      as Hin by by apply list_elem_of_fmap_2.
    rewrite Hbl in Hin. apply list_elem_of_fmap in Hin as (k & -> & _).
    rewrite (@polytope_length exact_scalars). simpl. lia.
  - destruct (@generateAbb_valid exact_scalars (bias_modes cfg)
                (applied_modes cfg) steps (numReps cfg) Hvalid)
      as [[Hdc _] [Hat _]].
    by destruct Hg as [-> | ->].
Qed.

(** X16. For valid modes, [applied_step >= 0] and [numReps >= 0] both
    constructors succeed, and their generators yield the same bias lists in
    the same order (they differ in the prefixes only). The generator of
    [ATBiasImageDatasetExperiment] yields [self.numReps] items; the one of
    [BiasImageDatasetExperiment] yields [len(applied_modes)] times its
    [self.numReps]. Every bias list has [self.cameraToImageCount]
    vectors. *)
Theorem X16_sweep_sizes (cfg : Config) :
  0 <= applied_step cfg -> 0 <= numReps cfg ->
  Sweep.valid_modes (bias_modes cfg) (applied_modes cfg) ->
  exists e_dc e_at,
    BiasImageDatasetExperiment_init cfg = Ok e_dc
    /\ ATBiasImageDatasetExperiment_init cfg = Ok e_at
    /\ map Sweep.biaslist (Sweep.pending (self_abb_generator e_dc))
       = map Sweep.biaslist (Sweep.pending (self_abb_generator e_at))
    /\ Z.of_nat (length (Sweep.pending (self_abb_generator e_at)))
       = self_numReps e_at
    /\ Z.of_nat (length (Sweep.pending (self_abb_generator e_dc)))
       = Z.of_nat (length (applied_modes cfg)) * self_numReps e_dc
    /\ self_numReps e_at = applied_step cfg
                           * Z.of_nat (length (applied_modes cfg))
                           * numReps cfg
    /\ self_numReps e_dc = applied_step cfg * numReps cfg
    /\ Forall (fun it => Z.of_nat (length (Sweep.biaslist it))
                         = self_cameraToImageCount e_dc)
         (Sweep.pending (self_abb_generator e_dc))
    /\ Forall (fun it => Z.of_nat (length (Sweep.biaslist it))
                         = self_cameraToImageCount e_at)
         (Sweep.pending (self_abb_generator e_at)).
Proof.
  intros Hstep Hareas Hvalid.
  destruct (ExactFacts.linspace_length (- abb_magnitude cfg)
              (abb_magnitude cfg) (applied_step cfg) Hstep)
    as (steps & Hlin & Hlen).
  unfold BiasImageDatasetExperiment_init, ATBiasImageDatasetExperiment_init.
  rewrite Hlin. eexists _, _. split; [done|]. split; [done|]. simpl.
  pose proof (@generateAbb_tracked exact_scalars (bias_modes cfg)
                (applied_modes cfg) steps (numReps cfg) _ Hvalid
                (or_introl eq_refl)) as Hdc.
  pose proof (@generateAbb_tracked exact_scalars (bias_modes cfg)
                (applied_modes cfg) steps (numReps cfg) _ Hvalid
                (or_intror eq_refl)) as Hat.
  simpl in Hdc, Hat.
  destruct (sweep_of_steps cfg steps _ Hareas Hvalid (or_introl eq_refl))
    as (Hndc & Hfdc & _).
  destruct (sweep_of_steps cfg steps _ Hareas Hvalid (or_intror eq_refl))
    as (Hnat & Hfat & _).
  split; [by rewrite Hdc, Hat|].
  split; [exact Hnat|]. split; [rewrite Hndc; lia|].
  split; [by rewrite Hlen|]. split; [by rewrite Hlen|]. done.
Qed.

(** X17. The errors of the constructors. A negative [applied_step] makes
    both raise [ValueError] (from [np.linspace]). With an empty
    [bias_modes] or [applied_modes] both constructors still succeed, as
    the body of a generator runs at its first [next]: the generator then
    has no item and ends with the [ValueError] of [np.max], and the
    [numReps] of [ATBiasImageDatasetExperiment] is zero when
    [applied_modes] is empty. *)
Theorem X17_constructor_errors (cfg : Config) :
  (applied_step cfg < 0 ->
   BiasImageDatasetExperiment_init cfg = Raise ValueError
   /\ ATBiasImageDatasetExperiment_init cfg = Raise ValueError)
  /\ (0 <= applied_step cfg ->
      bias_modes cfg = [] \/ applied_modes cfg = [] ->
      exists e_dc e_at,
        BiasImageDatasetExperiment_init cfg = Ok e_dc
        /\ ATBiasImageDatasetExperiment_init cfg = Ok e_at
        /\ self_abb_generator e_dc = Sweep.mkGenerator [] (Some ValueError)
        /\ self_abb_generator e_at = Sweep.mkGenerator [] (Some ValueError)
        /\ Sweep.next (self_abb_generator e_at)
           = (Raise ValueError, Sweep.mkGenerator [] None)
        /\ (applied_modes cfg = [] -> self_numReps e_at = 0)).
Proof.
  split.
  - intros Hneg.
    unfold BiasImageDatasetExperiment_init, ATBiasImageDatasetExperiment_init,
      linspace.
    by replace (applied_step cfg <? 0) with true
      by (symmetry; apply Z.ltb_lt; lia).
  - intros Hstep Hempty.
    destruct (ExactFacts.linspace_length (- abb_magnitude cfg)
                (abb_magnitude cfg) (applied_step cfg) Hstep)
      as (steps & Hlin & Hlen).
    unfold BiasImageDatasetExperiment_init, ATBiasImageDatasetExperiment_init.
    rewrite Hlin. eexists _, _. split; [done|]. split; [done|]. simpl.
    assert (Sweep.init_frame (bias_modes cfg) (applied_modes cfg)
            = Raise ValueError) as Hinit.
    { unfold Sweep.init_frame.
      destruct Hempty as [-> | ->]; simpl; [done|].
      by destruct (bias_modes cfg). }
    unfold Sweep.generateAbb_DC, Sweep.generateAbb_HWAT, Sweep.run_generator.
    rewrite Hinit. split; [done|]. split; [done|]. split; [done|].
    intros ->. simpl. lia.
Qed.

End ExactSweepFacts.

(** ** A repetition at the ends of the generator, and one that succeeds *)

Section RepetitionFacts.

Context `{Scalars} {Image : Type}.

Lemma loop_captured_trace (hw : @Rep.Hardware Image) (bl : list (list F32))
    (a : nat) (images : list Image) :
  map (Rep.capture hw) (seq a (length bl)) = map Some images ->
  let ibl := zip (seq a (length bl)) bl in
  Rep.loop_timed_out hw ibl = false
  /\ Rep.loop_events hw ibl
     = flat_map (fun '(i, abb) =>
         [Rep.Set_phase abb (Rep.set_phase_raises hw i);
          Rep.Take_image i (Rep.capture hw i)]) ibl
  /\ Rep.loop_images hw ibl = images
  /\ Rep.loop_failure hw ibl
     = existsb (Rep.set_phase_raises hw) (seq a (length bl)).
Proof.
  revert a images. induction bl as [|abb bl IH]; intros a images Hc; simpl.
  - by destruct images.
  - simpl in Hc. destruct images as [|image images]; [done|].
    injection Hc as Hc0 Hc. rewrite Hc0.
    destruct (IH (S a) images Hc) as (-> & -> & -> & ->). done.
Qed.

(** X18. A repetition whose generator has no item left prints its start
    line and raises out of [__next__] before it touches the mirror, the
    camera, the file or the stage: [StopIteration] when the generator has
    ended normally, and the generator's own exception when it ended by
    raising. That exception is raised once: every later repetition raises
    [StopIteration]. *)
Theorem X18_repetition_on_ended_generator (numReps : Z)
    (saveBasePath : string) (hw : @Rep.Hardware Image) (repNum : Z)
    (s : @Rep.state _ Image) :
  Sweep.pending (Rep.abb_generator s) = [] ->
  exists s',
    Rep.executeRep numReps saveBasePath hw repNum s
    = (Raise (default StopIteration (Sweep.failure (Rep.abb_generator s))),
       s')
    /\ Rep.events s'
       = Rep.events s ++ [Rep.Print (Rep.Started_rep repNum numReps)]
    /\ Rep.imlist s' = Rep.imlist s
    /\ Rep.abb_generator s' = Sweep.mkGenerator [] None
    /\ forall (hw' : @Rep.Hardware Image) (repNum' : Z),
         exists s'',
           Rep.executeRep numReps saveBasePath hw' repNum' s'
           = (Raise StopIteration, s'')
           /\ Rep.events s''
              = Rep.events s'
                ++ [Rep.Print (Rep.Started_rep repNum' numReps)].
Proof.
  intros Hp. destruct s as [[p f] evs il fl]. simpl in Hp. subst p.
  destruct f as [e|]; eexists; (split; [reflexivity|]); simpl;
    repeat (split; [done|]); intros hw' repNum'; eexists;
    (split; [reflexivity|]); done.
Qed.

(** X19. A repetition with an item to take and every capture delivering
    an image returns normally, has taken exactly that one item from the
    generator, and has done this, in this order: the start line; for each
    bias vector in the order of the bias list, [set_phase] and then the
    capture; the diagnostic when some [set_phase] raised; one [mimwrite]
    of the images in capture order to [saveBasePath + fprefix + ".tif"];
    the read of the stage position; the move to [(x + 50, y - 50)] exactly
    when the item's new-area flag is set; and the completion line exactly
    when [numReps == repNum + 1]. *)
Theorem X19_successful_repetition_trace (numReps : Z)
    (saveBasePath : string) (hw : @Rep.Hardware Image) (repNum : Z)
    (s : @Rep.state _ Image) (it : Sweep.item) (rest : list Sweep.item)
    (images : list Image) :
  Sweep.pending (Rep.abb_generator s) = it :: rest ->
  map (Rep.capture hw) (seq 0 (length (Sweep.biaslist it)))
  = map Some images ->
  exists s',
    Rep.executeRep numReps saveBasePath hw repNum s = (Ok tt, s')
    /\ Rep.abb_generator s'
       = Sweep.mkGenerator rest (Sweep.failure (Rep.abb_generator s))
    /\ Rep.imlist s' = images
    /\ Rep.events s'
       = Rep.events s
         ++ Rep.Print (Rep.Started_rep repNum numReps)
         :: flat_map (fun '(i, abb) =>
              [Rep.Set_phase abb (Rep.set_phase_raises hw i);
               Rep.Take_image i (Rep.capture hw i)])
              (Rep.enumerate (Sweep.biaslist it))
         ++ (if existsb (Rep.set_phase_raises hw)
                  (seq 0 (length (Sweep.biaslist it)))
             then [Rep.Print Rep.Dm_not_set] else [])
         ++ [Rep.Mimwrite (saveBasePath +:+ Sweep.fprefix it +:+ ".tif")
               images;
             Rep.Get_position]
         ++ (if Sweep.is_newarea it
             then [Rep.Go_to_xy (fst (fst (Rep.position hw)) + 50)
                     (snd (fst (Rep.position hw)) - 50)]
             else [])
         ++ (if numReps =? repNum + 1
             then [Rep.Print Rep.Experiment_complete] else []).
Proof.
  intros Hp Hc.
  rewrite (executeRep_run numReps saveBasePath hw repNum s it rest Hp).
  unfold Rep.enumerate.
  destruct (loop_captured_trace hw (Sweep.biaslist it) 0 images Hc)
    as (-> & -> & -> & ->).
  eexists. split; [reflexivity|]. done.
Qed.

End RepetitionFacts.

(** ** The action table of the hardware-timed experiment *)

Section ActionFacts.

Context `{Scalars} {Cameras Pairs : Type}.
Variable expose : Q -> Cameras -> Pairs -> Q.

Abbreviation astate := (@Actions.state _ Cameras Pairs).

Lemma concat_replicate_add {A} (n m : nat) (l : list A) :
  concat (replicate (n + m) l)
  = concat (replicate n l) ++ concat (replicate m l).
Proof. by rewrite replicate_add, concat_app. Qed.

(** What the actions of [s'] add to those of [s]: [n] toggles, the
    exposure settings [n] times over, and nothing queued. *)
Lemma exposures_loop (es : list (Cameras * Pairs)) (s : astate) :
  exists s',
    for_each es (fun '(cameras, lightTimePairs) =>
      bind get (fun s0 : astate =>
        bind (Actions.act
                (Actions.Expose (Actions.curTime s0) cameras lightTimePairs))
          (fun _ =>
             Actions.set_curTime
               (expose (Actions.curTime s0) cameras lightTimePairs)))) s
    = (Ok tt, s')
    /\ Actions.acc_patterns s' = Actions.acc_patterns s
    /\ Actions.toggles_of (Actions.actions s')
       = Actions.toggles_of (Actions.actions s)
    /\ Actions.exposures_of (Actions.actions s')
       = Actions.exposures_of (Actions.actions s) ++ es
    /\ Actions.queued_of (Actions.actions s')
       = Actions.queued_of (Actions.actions s)
    /\ exists new,
         Actions.actions s' = Actions.actions s ++ new
         /\ map Actions.kind_of new
            = map (fun cp => Actions.Exposed (fst cp) (snd cp)) es.
Proof.
  revert s. induction es as [|[c p] es IH]; intros s.
  - exists s. simpl. rewrite app_nil_r. repeat (split; [done|]).
    exists []. by rewrite app_nil_r.
  - cbn [for_each]. unfold bind at 1. cbn beta iota.
    unfold bind at 1, get at 1. cbn beta iota.
    unfold bind at 1, Actions.act at 1, modify at 1. cbn beta iota.
    unfold Actions.set_curTime at 1, modify at 1.
    match goal with
    | |- context [for_each es ?body ?s1] =>
        destruct (IH s1)
          as (s' & Hrun & Hacc & Htog & Hexp & Hq & new & Hnew & Hkinds)
    end.
    exists s'. split; [exact Hrun|].
    simpl in Hacc, Htog, Hexp, Hq, Hnew.
    unfold Actions.toggles_of, Actions.exposures_of, Actions.queued_of
      in *.
    rewrite omap_app in Htog. rewrite omap_app in Hexp.
    rewrite omap_app in Hq. simpl in Htog, Hexp, Hq.
    rewrite app_nil_r in Htog, Hq.
    split; [done|]. split; [done|].
    split; [by rewrite Hexp, <- app_assoc|]. split; [done|].
    exists (Actions.Expose (Actions.curTime s) c p :: new).
    split; [by rewrite Hnew, <- app_assoc|].
    simpl. by rewrite Hkinds.
Qed.

Lemma patterns_loop (movement_time : Q) (es : list (Cameras * Pairs))
    (biaslist : list (list F32)) (s : astate) :
  exists s',
    for_each biaslist (fun _ =>
      bind (bind get (fun s0 : astate =>
              Actions.act (Actions.Toggle (Actions.curTime s0))))
        (fun _ =>
      bind (bind get (fun s0 : astate =>
              Actions.set_curTime (Actions.curTime s0 + movement_time)%Q))
        (fun _ =>
      bind (bind get (fun s0 : astate =>
              Actions.set_curTime (Actions.curTime s0 + (1 # 1000))%Q))
        (fun _ =>
      bind (bind get (fun s0 : astate =>
              Actions.set_curTime (Actions.curTime s0 + (1 # 1000))%Q))
        (fun _ =>
      for_each es (fun '(cameras, lightTimePairs) =>
        bind get (fun s0 : astate =>
          bind (Actions.act
                  (Actions.Expose (Actions.curTime s0) cameras
                     lightTimePairs))
            (fun _ =>
               Actions.set_curTime
                 (expose (Actions.curTime s0) cameras
                    lightTimePairs))))))))) s
    = (Ok tt, s')
    /\ Actions.acc_patterns s' = Actions.acc_patterns s
    /\ length (Actions.toggles_of (Actions.actions s'))
       = (length (Actions.toggles_of (Actions.actions s))
          + length biaslist)%nat
    /\ Actions.exposures_of (Actions.actions s')
       = Actions.exposures_of (Actions.actions s)
         ++ concat (replicate (length biaslist) es)
    /\ Actions.queued_of (Actions.actions s')
       = Actions.queued_of (Actions.actions s)
    /\ exists new,
         Actions.actions s' = Actions.actions s ++ new
         /\ map Actions.kind_of new
            = flat_map (fun _ => Actions.pattern_kinds es) biaslist.
Proof.
  revert s. induction biaslist as [|abb bl IH]; intros s.
  - exists s. simpl. rewrite app_nil_r.
    split; [done|]. split; [done|]. split; [lia|]. split; [done|].
    split; [done|]. exists []. by rewrite app_nil_r.
  - cbn [for_each]. unfold bind at 1. cbn beta iota.
    unfold bind at 1. unfold bind at 1. unfold get at 1. cbn beta iota.
    unfold Actions.act at 1, modify at 1. cbn beta iota.
    do 3 (unfold bind at 1; unfold bind at 1; unfold get at 1;
          cbn beta iota;
          unfold Actions.set_curTime at 1, modify at 1; cbn beta iota).
    match goal with
    | |- context [for_each es ?body ?s1] =>
        destruct (exposures_loop es s1)
          as (s2 & Hrun & Hacc & Htog & Hexp & Hq & new1 & Hnew1 & Hkinds1)
    end.
    cbn beta iota in Hrun |- *. rewrite Hrun.
    destruct (IH s2)
      as (s' & Hrun' & Hacc' & Htog' & Hexp' & Hq' & new2 & Hnew2 & Hkinds2).
    exists s'. split; [exact Hrun'|].
    simpl in Hacc, Htog, Hexp, Hq, Hnew1.
    unfold Actions.toggles_of, Actions.exposures_of, Actions.queued_of
      in *.
    rewrite omap_app in Htog. rewrite omap_app in Hexp.
    rewrite omap_app in Hq. simpl in Htog, Hexp, Hq.
    rewrite app_nil_r in Hexp, Hq.
    split; [congruence|]. split; [|split; [|split]].
    + rewrite Htog', Htog, length_app. simpl. lia.
    + rewrite Hexp', Hexp, <- app_assoc. by simpl.
    + congruence.
    + exists (Actions.Toggle (Actions.curTime s) :: new1 ++ new2).
      split; [by rewrite Hnew2, Hnew1, <- !app_assoc|].
      simpl. unfold Actions.pattern_kinds.
      by rewrite map_app, Hkinds1, Hkinds2.
Qed.

Lemma items_loop (movement_time : Q) (es : list (Cameras * Pairs))
    (items : list Sweep.item) (s : astate) :
  let patterns := concat (map Sweep.biaslist items) in
  exists s',
    for_each items (fun it =>
      bind (Actions.extend (Sweep.biaslist it)) (fun _ =>
      for_each (Sweep.biaslist it) (fun _ =>
      bind (bind get (fun s0 : astate =>
              Actions.act (Actions.Toggle (Actions.curTime s0))))
        (fun _ =>
      bind (bind get (fun s0 : astate =>
              Actions.set_curTime (Actions.curTime s0 + movement_time)%Q))
        (fun _ =>
      bind (bind get (fun s0 : astate =>
              Actions.set_curTime (Actions.curTime s0 + (1 # 1000))%Q))
        (fun _ =>
      bind (bind get (fun s0 : astate =>
              Actions.set_curTime (Actions.curTime s0 + (1 # 1000))%Q))
        (fun _ =>
      for_each es (fun '(cameras, lightTimePairs) =>
        bind get (fun s0 : astate =>
          bind (Actions.act
                  (Actions.Expose (Actions.curTime s0) cameras
                     lightTimePairs))
            (fun _ =>
               Actions.set_curTime
                 (expose (Actions.curTime s0) cameras
                    lightTimePairs))))))))))) s
    = (Ok tt, s')
    /\ Actions.acc_patterns s' = Actions.acc_patterns s ++ patterns
    /\ length (Actions.toggles_of (Actions.actions s'))
       = (length (Actions.toggles_of (Actions.actions s))
          + length patterns)%nat
    /\ Actions.exposures_of (Actions.actions s')
       = Actions.exposures_of (Actions.actions s)
         ++ concat (replicate (length patterns) es)
    /\ Actions.queued_of (Actions.actions s')
       = Actions.queued_of (Actions.actions s)
    /\ exists new,
         Actions.actions s' = Actions.actions s ++ new
         /\ map Actions.kind_of new
            = flat_map (fun _ => Actions.pattern_kinds es) patterns.
Proof.
  revert s. induction items as [|it items IH]; intros s patterns.
  - exists s. unfold patterns. simpl. rewrite !app_nil_r.
    split; [done|]. split; [done|]. split; [lia|]. split; [done|].
    split; [done|]. exists []. by rewrite app_nil_r.
  - cbn [for_each]. unfold bind at 1. cbn beta iota.
    unfold bind at 1, Actions.extend at 1, modify at 1. cbn beta iota.
    match goal with
    | |- context [for_each (Sweep.biaslist it) ?body ?s1] =>
        destruct (patterns_loop movement_time es (Sweep.biaslist it) s1)
          as (s2 & Hrun & Hacc & Htog & Hexp & Hq & new1 & Hnew1 & Hkinds1)
    end.
    rewrite Hrun.
    destruct (IH s2)
      as (s' & Hrun' & Hacc' & Htog' & Hexp' & Hq' & new2 & Hnew2 & Hkinds2).
    exists s'. split; [exact Hrun'|].
    simpl in Hacc, Htog, Hexp, Hq, Hnew1. unfold patterns. simpl.
    split; [|split; [|split; [|split]]].
    + by rewrite Hacc', Hacc, <- app_assoc.
    + rewrite Htog', Htog, length_app. lia.
    + rewrite Hexp', Hexp, length_app, concat_replicate_add.
      by rewrite <- app_assoc.
    + congruence.
    + exists (new1 ++ new2).
      split; [by rewrite Hnew2, Hnew1, <- app_assoc|].
      by rewrite map_app, flat_map_app, Hkinds1, Hkinds2.
Qed.

(** X20. The actions [generateActions] adds are, in this order: for every
    pattern of the bias lists of the generator's items, taken in the order
    of the items, one toggle of the mirror followed by one exposure for
    every exposure setting, in their order; and then, when the generator
    ends normally, one call that queues all these patterns, after which
    [generateActions] returns normally. On a generator that ends by
    raising, the exception leaves [generateActions] and no pattern is
    queued. *)
Theorem X20_generateActions_queues_all_patterns (g : Sweep.generator)
    (movement_time : Q) (exposureSettings : list (Cameras * Pairs))
    (s : astate) :
  let patterns := concat (map Sweep.biaslist (Sweep.pending g)) in
  exists s',
    Actions.generateActions expose g movement_time exposureSettings s
    = (match Sweep.failure g with Some e => Raise e | None => Ok tt end, s')
    /\ length (Actions.toggles_of (Actions.actions s'))
       = (length (Actions.toggles_of (Actions.actions s))
          + length patterns)%nat
    /\ Actions.exposures_of (Actions.actions s')
       = Actions.exposures_of (Actions.actions s)
         ++ concat (replicate (length patterns) exposureSettings)
    /\ match Sweep.failure g with
       | Some _ =>
           Actions.queued_of (Actions.actions s')
           = Actions.queued_of (Actions.actions s)
       | None =>
           Actions.queued_of (Actions.actions s')
           = Actions.queued_of (Actions.actions s) ++ [patterns]
           /\ last (Actions.actions s')
              = Some (Actions.Queue_patterns patterns)
       end
    /\ exists new,
         Actions.actions s' = Actions.actions s ++ new
         /\ map Actions.kind_of new
            = flat_map (fun _ => Actions.pattern_kinds exposureSettings)
                patterns
              ++ match Sweep.failure g with
                 | Some _ => []
                 | None => [Actions.Queued patterns]
                 end.
Proof.
  intros patterns. unfold Actions.generateActions.
  unfold bind at 1, Actions.set_curTime at 1, modify at 1. cbn beta iota.
  unfold bind at 1, Actions.set_acc_patterns at 1, modify at 1.
  cbn beta iota. unfold bind at 1.
  match goal with
  | |- context [for_each (Sweep.pending g) ?body ?s1] =>
      destruct (items_loop movement_time exposureSettings (Sweep.pending g)
                  s1)
        as (s2 & Hrun & Hacc & Htog & Hexp & Hq & new & Hnew & Hkinds)
  end.
  rewrite Hrun. simpl in Hacc, Htog, Hexp, Hq, Hnew.
  fold patterns in Hacc, Htog, Hexp, Hkinds.
  destruct (Sweep.failure g) as [e|].
  - exists s2. repeat (split; [done|]).
    exists new. split; [done|]. by rewrite app_nil_r.
  - eexists. split; [reflexivity|]. simpl.
    unfold Actions.toggles_of, Actions.exposures_of, Actions.queued_of
      in *.
    rewrite !omap_app. simpl. rewrite !app_nil_r, Hacc.
    split; [done|]. split; [done|].
    split; [split; [by rewrite Hq|by rewrite last_snoc]|].
    exists (new ++ [Actions.Queue_patterns patterns]).
    split; [by rewrite Hnew, <- app_assoc|].
    by rewrite map_app, Hkinds.
Qed.


End ActionFacts.

Module ExactActionFacts.
Import Exact.
Section Table.

Context {Cameras Pairs : Type}.
Variable expose : Q -> Cameras -> Pairs -> Q.

Lemma concat_length_uniform {A} (ls : list (list A)) (c : nat) :
  Forall (fun l => length l = c) ls ->
  length (concat ls) = (length ls * c)%nat.
Proof.
  induction 1 as [|l ls Hl _ IH]; [done|].
  simpl. rewrite length_app, IH, Hl. lia.
Qed.

(** X21. The action table of [ATBiasImageDatasetExperiment] for valid
    modes, [applied_step >= 0] and [numReps >= 0]: [generateActions] on the
    generator the constructor has made returns normally, and the patterns
    it queues in its last action, like the toggles it adds, are
    [self.numReps * self.cameraToImageCount] in number. *)
Theorem X21_action_table_has_one_pattern_per_image (cfg : Config)
    (movement_time : Q) (exposureSettings : list (Cameras * Pairs))
    (s : @Actions.state exact_scalars Cameras Pairs) :
  0 <= applied_step cfg -> 0 <= numReps cfg ->
  Sweep.valid_modes (bias_modes cfg) (applied_modes cfg) ->
  exists e s' patterns,
    ATBiasImageDatasetExperiment_init cfg = Ok e
    /\ Actions.generateActions expose (self_abb_generator e) movement_time
         exposureSettings s = (Ok tt, s')
    /\ last (Actions.actions s') = Some (Actions.Queue_patterns patterns)
    /\ Actions.queued_of (Actions.actions s')
       = Actions.queued_of (Actions.actions s) ++ [patterns]
    /\ Z.of_nat (length patterns)
       = self_numReps e * self_cameraToImageCount e
    /\ Z.of_nat (length (Actions.toggles_of (Actions.actions s')))
       = Z.of_nat (length (Actions.toggles_of (Actions.actions s)))
         + self_numReps e * self_cameraToImageCount e.
Proof.
  intros Hstep Hareas Hvalid.
  destruct (ExactFacts.linspace_length (- abb_magnitude cfg)
              (abb_magnitude cfg) (applied_step cfg) Hstep)
    as (steps & Hlin & Hlen).
  unfold ATBiasImageDatasetExperiment_init. rewrite Hlin.
  set (g := @Sweep.generateAbb_HWAT exact_scalars (bias_modes cfg)
              (applied_modes cfg) steps (numReps cfg)).
  destruct (ExactSweepFacts.sweep_of_steps cfg steps g Hareas Hvalid
              (or_intror eq_refl)) as (Hitems & Hsize & Hfail).
  set (c := 2 * Z.of_nat (length (bias_modes cfg)) + 1) in *.
  assert (Z.of_nat (length (concat (map Sweep.biaslist (Sweep.pending g))))
          = Z.of_nat (length steps)
            * Z.of_nat (length (applied_modes cfg)) * numReps cfg * c)
    as Hcount.
  { rewrite (concat_length_uniform _ (Z.to_nat c)).
    - rewrite length_map, Nat2Z.inj_mul, Hitems. unfold c. lia.
    - apply Forall_fmap. eapply Forall_impl; [exact Hsize|].
      intros it Hit. simpl. rewrite <- Hit. by rewrite Nat2Z.id. }
  set (patterns := concat (map Sweep.biaslist (Sweep.pending g))) in *.
  assert (exists s',
    Actions.generateActions expose g movement_time exposureSettings s
    = (Ok tt, s')
    /\ last (Actions.actions s') = Some (Actions.Queue_patterns patterns)
    /\ Actions.queued_of (Actions.actions s')
       = Actions.queued_of (Actions.actions s) ++ [patterns]
    /\ length (Actions.toggles_of (Actions.actions s'))
       = (length (Actions.toggles_of (Actions.actions s))
          + length patterns)%nat) as (s' & Hrun & Hlast & Hq & Htog).
  { unfold Actions.generateActions.
    unfold bind at 1, Actions.set_curTime at 1, modify at 1. cbn beta iota.
    unfold bind at 1, Actions.set_acc_patterns at 1, modify at 1.
    cbn beta iota. unfold bind at 1.
    match goal with
    | |- context [for_each (Sweep.pending g) ?body ?s1] =>
        destruct (items_loop expose movement_time exposureSettings
                    (Sweep.pending g) s1)
          as (s2 & Hrun & Hacc & Htog & _ & Hq & _)
    end.
    rewrite Hrun, Hfail. simpl in Hacc, Htog, Hq. fold patterns in Hacc, Htog.
    eexists. split; [reflexivity|]. simpl.
    unfold Actions.toggles_of, Actions.queued_of in *.
    rewrite !omap_app. simpl. rewrite !app_nil_r, Hacc.
    split; [by rewrite last_snoc|]. split; [f_equal; exact Hq|]. exact Htog. }
  eexists _, s', patterns.
  split; [reflexivity|]. simpl. split; [exact Hrun|].
  split; [exact Hlast|]. split; [exact Hq|].
  split; [exact Hcount|].
  apply (f_equal Z.of_nat) in Htog. rewrite Nat2Z.inj_add in Htog.
  etransitivity; [exact Htog|]. f_equal. exact Hcount.
Qed.

End Table.
End ExactActionFacts.

(** ** The bias polytope outside its valid inputs *)

Section PolytopeEdges.

Context `{Scalars}.

Lemma offset_copy_invalid (op : F32 -> Step -> F32) (beta : list F32)
    (axis : Z) (step : Step) :
  ~ (- Z.of_nat (length beta) <= axis < Z.of_nat (length beta)) ->
  Sweep.offset_copy op beta axis step = Raise IndexError.
Proof.
  intros Hr. unfold Sweep.offset_copy, norm_index.
  destruct (Z.leb_spec 0 axis), (Z.ltb_spec axis (Z.of_nat (length beta))),
    (Z.leb_spec (- Z.of_nat (length beta)) axis), (Z.ltb_spec axis 0);
    simpl; try done; lia.
Qed.

(** The loops of [makeBiasPolytope] over one axis that is a position. *)
Lemma axis_loops_valid (beta : list F32) (steps : list Step) (axis : Z)
    (s : list (list F32)) :
  - Z.of_nat (length beta) <= axis < Z.of_nat (length beta) ->
  bind (for_each steps (fun step =>
          bind (lift (Sweep.offset_copy f32_add beta axis step))
            (fun plus_offset => Sweep.append plus_offset)))
    (fun _ =>
       for_each steps (fun step =>
         bind (lift (Sweep.offset_copy f32_sub beta axis step))
           (fun minus_offset => Sweep.append minus_offset))) s
  = (Ok tt,
     s ++ map (Sweep.shifted f32_add beta axis) steps
       ++ map (Sweep.shifted f32_sub beta axis) steps).
Proof.
  intros Hr. unfold bind at 1.
  rewrite (for_each_extend steps _ (fun step =>
    [Sweep.shifted f32_add beta axis step])).
  2:{ apply Forall_forall. intros step _ s'.
      unfold bind, lift. by rewrite offset_copy_valid. }
  rewrite (for_each_extend steps _ (fun step =>
    [Sweep.shifted f32_sub beta axis step])).
  2:{ apply Forall_forall. intros step _ s'.
      unfold bind, lift. by rewrite offset_copy_valid. }
  by rewrite <- app_assoc, !flat_map_singleton.
Qed.

Lemma axes_loop_raises (beta : list F32) (axes : list Z)
    (steps : list Step) (s : list (list F32)) :
  steps <> [] ->
  Exists (fun axis =>
    ~ (- Z.of_nat (length beta) <= axis < Z.of_nat (length beta))) axes ->
  exists s',
    for_each axes (fun axis =>
      bind (for_each steps (fun step =>
              bind (lift (Sweep.offset_copy f32_add beta axis step))
                (fun plus_offset => Sweep.append plus_offset)))
        (fun _ =>
           for_each steps (fun step =>
             bind (lift (Sweep.offset_copy f32_sub beta axis step))
               (fun minus_offset => Sweep.append minus_offset)))) s
    = (Raise IndexError, s').
Proof.
  intros Hsteps. revert s.
  induction axes as [|axis axes IH]; intros s Hbad.
  - by apply Exists_nil in Hbad.
  - cbn [for_each]. unfold bind at 1.
    destruct (decide (- Z.of_nat (length beta) <= axis
                      < Z.of_nat (length beta))) as [Hr|Hr].
    + rewrite (axis_loops_valid beta steps axis s Hr).
      apply IH. apply Exists_cons in Hbad as [Hbad|Hbad]; done.
    + destruct steps as [|step steps]; [done|].
      cbn [for_each]. unfold bind, lift.
      rewrite (offset_copy_invalid _ _ _ _ Hr). by eexists.
Qed.

(** X22. [makeBiasPolytope] outside the inputs of a sweep. With a start
    vector of [nk] amplitudes, an axis that is no position of it (outside
    [-nk, nk)) makes it raise [IndexError] as soon as there is a step to
    apply, and no list is returned; with no step at all the axes are never
    looked at and the result is the base vector alone. A start vector whose
    length is neither [nk] nor 1 raises [ValueError]; a single start value
    is broadcast to all [nk] amplitudes. *)
Theorem X22_bias_polytope_edges (start_aberrations : list F64)
    (offset_axes : list Z) (nk : Z) (steps : list Step) :
  (Z.of_nat (length start_aberrations) = nk ->
   (steps <> [] ->
    Exists (fun axis => ~ (- nk <= axis < nk)) offset_axes ->
    Sweep.makeBiasPolytope start_aberrations offset_axes nk steps
    = Raise IndexError)
   /\ (steps = [] ->
       Sweep.makeBiasPolytope start_aberrations offset_axes nk steps
       = Ok [map f32_of start_aberrations]))
  /\ (Z.of_nat (length start_aberrations) <> nk ->
      (length start_aberrations <> 1%nat ->
       Sweep.makeBiasPolytope start_aberrations offset_axes nk steps
       = Raise ValueError)
      /\ (forall x, start_aberrations = [x] -> 0 <= nk ->
          Forall (fun axis => - nk <= axis < nk) offset_axes ->
          Sweep.makeBiasPolytope start_aberrations offset_axes nk steps
          = Ok (Sweep.polytope (replicate (Z.to_nat nk) (f32_of x))
                  offset_axes steps))).
Proof.
  split.
  - intros <-. split.
    + intros Hsteps Hbad. unfold Sweep.makeBiasPolytope.
      rewrite new_beta_same_length.
      unfold bind at 1. unfold Sweep.append at 1, modify.
      destruct (axes_loop_raises (map f32_of start_aberrations) offset_axes
                  steps ([] ++ [map f32_of start_aberrations]) Hsteps)
        as (s' & Hrun).
      { by rewrite length_map. }
      cbn beta iota. by rewrite Hrun.
    + intros ->. unfold Sweep.makeBiasPolytope.
      rewrite new_beta_same_length.
      unfold bind at 1. unfold Sweep.append at 1, modify. cbn beta iota.
      rewrite (for_each_extend offset_axes _ (fun _ => [])).
      * simpl. induction offset_axes as [|axis axes IH]; [done|]. exact IH.
      * apply Forall_forall. intros axis _ s. simpl.
        by rewrite app_nil_r.
  - intros Hlen. split.
    + intros Hone. unfold Sweep.makeBiasPolytope, Sweep.new_beta.
      destruct (nk <? 0); [done|].
      replace (Z.of_nat (length start_aberrations) =? nk) with false
        by (symmetry; apply Z.eqb_neq; lia).
      by destruct start_aberrations as [|x [|y l]].
    + intros x -> Hnk Haxes. unfold Sweep.makeBiasPolytope, Sweep.new_beta.
      replace (nk <? 0) with false by (symmetry; apply Z.ltb_ge; lia).
      replace (Z.of_nat (length [x]) =? nk) with false
        by (symmetry; apply Z.eqb_neq; lia).
      set (beta := replicate (Z.to_nat nk) (f32_of x)).
      unfold bind at 1. unfold Sweep.append at 1, modify. cbn beta iota.
      rewrite (for_each_extend offset_axes _ (fun axis =>
        map (Sweep.shifted f32_add beta axis) steps
        ++ map (Sweep.shifted f32_sub beta axis) steps)); [done|].
      eapply Forall_impl; [exact Haxes|]. intros axis Hr s.
      cbn beta in Hr.
      apply axis_loops_valid. unfold beta. rewrite length_replicate.
      rewrite Z2Nat.id by done. exact Hr.
Qed.

End PolytopeEdges.

(** ** The further properties at concrete inputs *)

Module FurtherInstances.
Import Exact.

(** A removal that finds its processor, on a chain of two. *)
Lemma X1_witness :
  let pps := [@Camera.mkPostProcessor nat nat 5 0%nat 0%nat;
              Camera.mkPostProcessor 7 1%nat 1%nat] in
  let pps' := [@Camera.mkPostProcessor nat nat 5 0%nat 0%nat] in
  Camera.removePostProcessor 7 None None pps = (Ok tt, pps')
  /\ ((Ok tt = Ok tt /\ S (length pps') = length pps)
      \/ (@Ok unit tt = Raise IndexError /\ pps' = pps)).
Proof.
  intros pps pps'. split; [reflexivity|].
  apply (proj2 (@X1_chain_stays_sorted nat nat _ _ []) pps 7 None None).
  reflexivity.
Defined.

(** A processor of a priority of its own, added and removed again. *)
Lemma X2_witness :
  let pps := [@Camera.mkPostProcessor nat nat 5 0%nat 0%nat;
              Camera.mkPostProcessor 7 1%nat 1%nat] in
  (Camera.addPostProcessor 6 2%nat 2%nat ;;;
   Camera.removePostProcessor 6 (Some 2%nat) (Some 2%nat)) pps
  = (Ok tt, pps).
Proof.
  intros pps.
  destruct (@X2_add_then_remove_restores nat nat _ _ 6 2%nat 2%nat pps)
    as (pps' & Hrun & _ & _ & Hfresh).
  - repeat constructor; simpl; lia.
  - rewrite Hrun. rewrite Hfresh; [reflexivity|].
    intros Hin.
    apply elem_of_cons in Hin as [Hin|Hin]; [discriminate Hin|].
    apply elem_of_cons in Hin as [Hin|Hin]; [discriminate Hin|].
    by apply elem_of_nil in Hin.
Defined.

(** The sectioning processor on a frame of 512 by 256. *)
Lemma X3_witness :
  let data_call := fun (_ : Aurox.data_fn) (frame : Z * Z) (w : unit) =>
    (Ok (Aurox.shape_call (Aurox.Halve_width 0) frame), w) in
  let zeros := fun size : Z * Z => size in
  let pps := [Camera.mkPostProcessor 100 Aurox.Section_data
                (Aurox.Halve_width 0)] in
  Receive.receiveData data_call zeros pps (512, 256) (inr (512, 256)) 7%nat
    (Receive.mkBus tt [])
  = (Ok tt, Receive.mkBus tt [((256, 256), 7%nat)])
  /\ Camera.getImageSize Aurox.shape_call (Camera.mkROI 0 0 512 512)
       (Camera.mkBinning 1 2) pps
     = (Ok (256, 256), pps).
Proof.
  intros data_call zeros pps. split; [reflexivity|].
  destruct (@X3_published_image_has_expected_size
              Aurox.data_fn Aurox.shape_fn (Z * Z) nat unit
              data_call zeros Aurox.shape_call (fun frame => frame)
              pps (512, 256) (512, 256) 7%nat
              (Receive.mkBus tt [])
              (Receive.mkBus tt [((256, 256), 7%nat)]))
    as (out & Hpub & _ & Hsize).
  - intros pp frame w out' w' Hin Hcall.
    apply elem_of_cons in Hin as [->|Hin]; [|by apply elem_of_nil in Hin].
    by injection Hcall as <- _.
  - reflexivity.
  - simpl in Hpub. injection Hpub as <-.
    exact (Hsize (Camera.mkROI 0 0 512 512) (Camera.mkBinning 1 2) eq_refl).
Defined.

(** A chain whose only data callable raises. *)
Lemma X4_witness :
  let data_call := fun (fd : bool) (frame : nat) (w : nat) =>
    if fd then (@Raise nat Exception, S w) else (Ok frame, w) in
  let zeros := fun _ : Z * Z => 0%nat in
  Receive.receiveData data_call zeros
    [@Camera.mkPostProcessor bool unit 100 true tt] (512, 256) (inr 3%nat)
    7%nat (Receive.mkBus 0%nat [])
  = (Raise Exception, Receive.mkBus 1%nat []).
Proof.
  intros data_call zeros.
  exact (proj1 (@X4_receiveData_failures bool unit nat nat nat
                  data_call zeros [] []
                  (Camera.mkPostProcessor 100 true tt) (512, 256)
                  3%nat 3%nat 7%nat (Receive.mkBus 0%nat [])
                  (Receive.mkBus 0%nat []) 1%nat Exception
                  eq_refl eq_refl)).
Defined.

(** Four labels, with an empty line between them. *)
Lemma X5_witness :
  let lines := ["GFP"; "mCherry"; ""; "DAPI"; "Cy5"] in
  let config : gmap string string :=
    <["filter cubes" := ClarityDevice.join_lines lines]>
      (<["camera" := "west"]> ∅) in
  @ClarityDevice.init unit config
  = Ok (ClarityDevice.mkClarity ["GFP"; "mCherry"; "DAPI"; "Cy5"] "west"
          (Aurox.mkClarity [None; None; None; None] [])).
Proof.
  intros lines config.
  destruct (@X5_init_reads_four_labels unit config lines "west")
    as (Hfour & _ & _).
  - discriminate.
  - repeat constructor; discriminate.
  - reflexivity.
  - reflexivity.
  - apply Hfour. reflexivity.
Defined.

(** The filter position is read as 1 at the third read. *)
Lemma X6_witness :
  let reads := fun i : nat => if (i <? 2)%nat then None else Some 1 in
  let s := @ClarityDevice.mkSession nat
             (Aurox.mkClarity [None; None; None; None] []) [] in
  ClarityDevice._on_calib (fun data : nat => data) 5 true (Some 42%nat)
    reads s
  = Some (Ok tt,
          ClarityDevice.mkSession
            (Aurox.mkClarity [None; Some 42%nat; None; None]
               [Aurox.Get_filter_position; Aurox.Get_filter_position;
                Aurox.Get_filter_position])
            [ClarityDevice.busy; ClarityDevice.enabled])
  /\ ClarityDevice._on_calib (fun data : nat => data) 1 true (Some 42%nat)
       reads s
     = None.
Proof.
  intros reads s.
  destruct (@X6_on_calib_waits_for_definite_position nat nat
              (fun data => data) 42%nat reads 2 1 1 s eq_refl)
    as (Hok & Hwait & _).
  - intros j Hj. destruct j as [|[|j]]; [reflexivity|reflexivity|lia].
  - reflexivity.
  - split; [apply (Hok 5%nat); lia|apply (Hwait 1%nat); lia].
Defined.


(** Sectioning at channel 1 before and after its calibration. *)
Lemma X8_witness :
  let reads := fun i : nat => if (i <? 2)%nat then None else Some 1 in
  let process := fun (p : nat) (frame : nat) => (p + frame)%nat in
  let s := @ClarityDevice.mkSession nat
             (Aurox.mkClarity [None; None; None; None] []) [] in
  let s' := ClarityDevice.mkSession
              (Aurox.mkClarity [None; Some 42%nat; None; None]
                 [Aurox.Get_filter_position; Aurox.Get_filter_position;
                  Aurox.Get_filter_position])
              [ClarityDevice.busy; ClarityDevice.enabled] in
  fst (Aurox._section_data process (Some 1) 10%nat (ClarityDevice.clarity s'))
  = Ok 52%nat
  /\ fst (Aurox._section_data process (Some 1) 10%nat
            (ClarityDevice.clarity s))
     = Raise AttributeError.
Proof.
  intros reads process s s'.
  destruct (@X8_calibrated_channel_sections nat nat (fun data => data)
              process 42%nat 10%nat reads 2 5 1 1 s s' eq_refl)
    as (Hafter & Hbefore & _).
  - intros j Hj. destruct j as [|[|j]]; [reflexivity|reflexivity|lia].
  - lia.
  - reflexivity.
  - reflexivity.
  - split; [exact Hafter|exact (Hbefore eq_refl)].
Defined.

(** Two calibrated channels out of four. *)
Lemma X9_witness :
  let labels := ["GFP"; "mCherry"; "DAPI"; "Cy5"] in
  let procs := [None; Some 1%nat; None; Some 3%nat] in
  let get_deforms := fun p : nat => (2 * p)%nat in
  exists stored,
    ClarityDevice._on_deforms get_deforms [] labels procs
      (Some "deforms.npz") []
    = (Ok tt, [("deforms.npz", stored)])
    /\ stored !! "mCherry" = Some 2%nat
    /\ stored !! "GFP" = None.
Proof.
  intros labels procs get_deforms.
  destruct (@X9_on_deforms_exports_calibrated_channels nat nat string
              get_deforms [] labels procs (Some "deforms.npz") [] eq_refl)
    as (_ & _ & Hexport).
  destruct (Hexport "deforms.npz" eq_refl)
    as (deforms & _ & Hnodup & _ & Hwrite).
  - intros Hall. apply Forall_cons in Hall as [_ Hall].
    apply Forall_cons in Hall as [Hnone _]. discriminate Hnone.
  - destruct Hnodup as [Hat Hout].
    + apply (bool_decide_unpack _). reflexivity.
    + destruct Hwrite as (stored & Hrun & Hstored).
      * apply Hout. apply (bool_decide_unpack _). reflexivity.
      * exists stored. split; [exact Hrun|].
        rewrite !Hstored. simpl.
        split; [exact (Hat 1%nat "mCherry" eq_refl)
               |exact (Hat 0%nat "GFP" eq_refl)].
Defined.

(** Sectioning switched on and off on a chain with one other processor. *)
Lemma X10_witness :
  let pps := [Camera.mkPostProcessor 50 Aurox.Section_data
                (Aurox.Halve_width 1)] in
  (Aurox._on_section true true 0 ;;; Aurox._on_section false true 0) pps
  = (Ok tt, pps)
  /\ Aurox._on_section false true 0 pps = (Raise IndexError, pps).
Proof.
  intros pps.
  destruct (X10_section_toggle_on_off pps 0 0) as (Hboth & Hoff & _).
  - repeat constructor.
  - repeat constructor. simpl. discriminate.
  - split; [exact Hboth|exact Hoff].
Defined.

(** The proxy raises at the first read of the [try] block. *)
Lemma X12_witness :
  let a := ClarityUI.mkAnswers (Raise Exception) (Ok None) (Ok None)
             (Ok true) (Ok None) (Ok None) (Ok false) (Ok true) in
  let w := ClarityUI.mkWidgets 0 false 0 false false false true true 0 false
             [] in
  ClarityUI._update_UI [@None unit] a w
  = (Ok tt,
     ClarityUI.mkWidgets 0 false 0 false false false true true 0 false
       [ClarityDevice.error]).
Proof.
  intros a w.
  exact (proj2 (@X12_update_UI_publishes_state unit [None] a w) Exception
           (or_introl eq_refl)).
Defined.

(** Sectioning is on while the filter turns to a channel without
    calibration. *)
Lemma X13_witness :
  let a := ClarityUI.mkAnswers (Ok true) (Ok (Some 1)) (Ok (Some 2))
             (Ok true) (Ok (Some 1)) (Ok (Some 2)) (Ok false) (Ok true) in
  let w := ClarityUI.mkWidgets 0 false 0 false true false true true 0 false
             [] in
  exists w',
    ClarityUI._update_UI [None; Some tt; None; None] a w = (Ok tt, w')
    /\ ClarityUI.button_section_enabled w' = false
    /\ ClarityUI.button_section w' = false
    /\ ClarityUI.queued_toggles w' = 1%nat
    /\ ClarityUI.choice_fcube w' = 2.
Proof.
  intros a w.
  destruct (@X13_update_UI_switches_sectioning_off unit
              [None; Some tt; None; None] a w true true false true
              (Some 1) (Some 2) (Some 1) (Some 2) None
              eq_refl eq_refl eq_refl eq_refl eq_refl eq_refl eq_refl
              eq_refl)
    as (w' & Hrun & Hen & _ & Hsec & Hq & _ & _ & Hfc & _).
  - intros f [= <-]. reflexivity.
  - exists w'. split; [exact Hrun|]. split; [exact Hen|].
    split; [exact Hsec|]. split; [exact Hq|exact Hfc].
Defined.

(** The third item of a sweep of two modes and two steps: mode 4 keeps the
    last step applied to it. *)
Lemma X14_witness :
  let g := Sweep.generateAbb_DC [4; 5] [4; 5] [-5; 5]%Q 1 in
  exists it,
    Sweep.pending g !! 2%nat = Some it
    /\ head (Sweep.biaslist it) = Some [0; 0; 0; 0; 5; -5]%Q.
Proof.
  intros g.
  assert (length (Sweep.pending g) = 4%nat) as Hlen
    by (vm_compute; reflexivity).
  destruct (Sweep.pending g) as [|it1 [|it2 [|it3 [|it4 [|it5 rest]]]]]
    eqn:Hp; try discriminate Hlen.
  exists it3. split; [reflexivity|].
  destruct (@X14_start_vector_accumulates exact_scalars [4; 5] [4; 5]
              [-5; 5]%Q 1 g 2%nat it3 0 5 (-5)%Q)
    as (_ & Hhead & _).
  - split; [discriminate|]. split; [discriminate|].
    split; repeat constructor; lia.
  - left. reflexivity.
  - by rewrite Hp.
  - reflexivity.
  - rewrite Hhead. reflexivity.
Defined.


(** Two modes, three steps and two areas. *)
Lemma X16_witness :
  let cfg := mkConfig [4; 5] 5 [4; 5] 3 2 in
  exists e_dc e_at,
    BiasImageDatasetExperiment_init cfg = Ok e_dc
    /\ ATBiasImageDatasetExperiment_init cfg = Ok e_at
    /\ Z.of_nat (length (Sweep.pending (self_abb_generator e_at))) = 12
    /\ self_numReps e_at = 12
    /\ Z.of_nat (length (Sweep.pending (self_abb_generator e_dc))) = 12
    /\ self_numReps e_dc = 6.
Proof.
  intros cfg.
  destruct (ExactSweepFacts.X16_sweep_sizes cfg)
    as (e_dc & e_at & Hdc & Hat & _ & Hn_at & Hn_dc & Hr_at & Hr_dc & _).
  - simpl. lia.
  - simpl. lia.
  - split; [discriminate|]. split; [discriminate|].
    split; repeat constructor; lia.
  - exists e_dc, e_at. split; [exact Hdc|]. split; [exact Hat|].
    rewrite Hn_at, Hn_dc, Hr_at, Hr_dc. by repeat split.
Defined.

(** No bias mode. *)
Lemma X17_witness :
  let cfg := mkConfig [] 5 [4; 5] 3 1 in
  exists e,
    BiasImageDatasetExperiment_init cfg = Ok e
    /\ self_abb_generator e = Sweep.mkGenerator [] (Some ValueError).
Proof.
  intros cfg.
  destruct (ExactSweepFacts.X17_constructor_errors cfg) as [_ Hempty].
  destruct Hempty as (e_dc & e_at & Hdc & _ & Hgen & _).
  - simpl. lia.
  - left. reflexivity.
  - exists e_dc. split; [exact Hdc|exact Hgen].
Defined.

(** A repetition on a generator that has ended by raising. *)
Lemma X18_witness :
  let hw := @Rep.mkHardware nat (fun _ => false) (fun i => Some i)
              (0, 0, 0)%Q in
  let s := @Rep.mkState exact_scalars nat
             (Sweep.mkGenerator [] (Some ValueError)) [] [] false in
  exists s',
    Rep.executeRep 1 "BIDE_" hw 0 s = (Raise ValueError, s')
    /\ Rep.events s' = [Rep.Print (Rep.Started_rep 0 1)].
Proof.
  intros hw s.
  destruct (@X18_repetition_on_ended_generator exact_scalars nat 1 "BIDE_"
              hw 0 s eq_refl) as (s' & Hrun & Hev & _).
  exists s'. split; [exact Hrun|exact Hev].
Defined.

(** The last repetition of an experiment, on the first item of an area. *)
Lemma X19_witness :
  let it := @Sweep.mkItem exact_scalars [[0]; [1]; [-1]]%Q "A1A4S-5.0_"
              true in
  let hw := @Rep.mkHardware nat (fun _ => false) (fun i => Some i)
              (10, 20, 0)%Q in
  let s := @Rep.mkState exact_scalars nat (Sweep.mkGenerator [it] None)
             [] [] false in
  exists s',
    Rep.executeRep 1 "BIDE_" hw 0 s = (Ok tt, s')
    /\ Rep.events s'
       = [Rep.Print (Rep.Started_rep 0 1);
          Rep.Set_phase [0]%Q false; Rep.Take_image 0 (Some 0%nat);
          Rep.Set_phase [1]%Q false; Rep.Take_image 1 (Some 1%nat);
          Rep.Set_phase [-1]%Q false; Rep.Take_image 2 (Some 2%nat);
          Rep.Mimwrite "BIDE_A1A4S-5.0_.tif" [0; 1; 2]%nat;
          Rep.Get_position;
          Rep.Go_to_xy (10 + 50)%Q (20 - 50)%Q;
          Rep.Print Rep.Experiment_complete].
Proof.
  intros it hw s.
  destruct (@X19_successful_repetition_trace exact_scalars nat 1 "BIDE_"
              hw 0 s it [] [0; 1; 2]%nat eq_refl eq_refl)
    as (s' & Hrun & _ & _ & Hev).
  exists s'. split; [exact Hrun|]. rewrite Hev. reflexivity.
Defined.

(** The action table of two modes, three steps and two areas. *)
Lemma X21_witness :
  let cfg := mkConfig [4; 5] 5 [4; 5] 3 2 in
  let expose := fun (t : Q) (_ _ : unit) => t in
  exists e s' patterns,
    ATBiasImageDatasetExperiment_init cfg = Ok e
    /\ Actions.generateActions expose (self_abb_generator e) (1 # 100)
         [(tt, tt)] (Actions.mkState 0 [] [])
       = (Ok tt, s')
    /\ last (Actions.actions s') = Some (Actions.Queue_patterns patterns)
    /\ Z.of_nat (length patterns) = 60.
Proof.
  intros cfg expose.
  destruct (@ExactActionFacts.X21_action_table_has_one_pattern_per_image
              unit unit expose cfg (1 # 100) [(tt, tt)]
              (Actions.mkState 0 [] []))
    as (e & s' & patterns & Hinit & Hrun & Hlast & _ & Hcount & _).
  - simpl. lia.
  - simpl. lia.
  - split; [discriminate|]. split; [discriminate|].
    split; repeat constructor; lia.
  - exists e, s', patterns. split; [exact Hinit|]. split; [exact Hrun|].
    split; [exact Hlast|]. rewrite Hcount.
    assert (match ATBiasImageDatasetExperiment_init cfg with
            | Ok e' => self_numReps e' * self_cameraToImageCount e'
            | Raise _ => 0
            end = 60) as Hsize by (vm_compute; reflexivity).
    by rewrite Hinit in Hsize.
Defined.

(** An axis beyond a vector of three amplitudes. *)
Lemma X22_witness :
  @Sweep.makeBiasPolytope exact_scalars [0; 0; 0]%Q [0; 5] 3 [1]
  = Raise IndexError.
Proof.
  apply (proj1 (proj1 (@X22_bias_polytope_edges exact_scalars [0; 0; 0]%Q
                         [0; 5] 3 [1]) eq_refl)).
  - discriminate.
  - apply Exists_cons_tl, Exists_cons_hd. lia.
Defined.

End FurtherInstances.
